(** * UnusedStoreEliminator: removal of memory and storage stores that are
    never read or are overwritten before being read.

    Shallow embedding of [libyul/optimiser/UnusedStoreEliminator.cpp].
    The optimiser step walks a Yul AST, keeps per-location sets of still
    undecided ("active") stores and finally removes every store that was
    never marked as used.

    Conventions of the embedding:
    - [u256] values are integers in [0, 2^256); additions wrap around.
    - A [Statement const*] is the position of the statement in the AST
      (the path from the root block), see [StmtId].
    - [yulAssert] failures and [std::map::at] / [std::vector::at] misses
      abort the step; they are returned as [Err e].
    - Collaborators whose code lives in other translation units
      ([KnowledgeBase], [SemanticInformation], the dialect, the SSA value
      tracker, the side-effect collectors and the shared base traversal's
      join) are parameters of the development. *)

From Stdlib Require Import ZArith String List Lia.
From stdpp Require Import base option list gmap strings sets.

Set Warnings "-register-all,-clear-no-such-hyp".

Local Open Scope Z_scope.
Local Open Scope string_scope.

(** ** Basic data *)

Definition YulString : Type := string.

Definition u256_modulus : Z := 2 ^ 256.

(** Addition of [u256]: wraps around. *)
Definition u256_add (a b : Z) : Z := (a + b) mod u256_modulus.

Definition is_u256 (a : Z) : Prop := 0 <= a < u256_modulus.

(** Variable names for special constants that can never appear in actual Yul code. *)
Definition zero : YulString := "@ 0".
Definition one : YulString := "@ 1".
Definition thirtyTwo : YulString := "@ 32".

(** [evmasm::SemanticInformation::Location]. *)
Module Location.
Inductive t : Set := Storage | Memory.
#[global] Instance eq_dec : EqDecision t.
Proof. solve_decision. Defined.
End Location.

(** [evmasm::SemanticInformation::Effect]. *)
Module Effect.
Inductive t : Set := None | Read | Write.
#[global] Instance eq_dec : EqDecision t.
Proof. solve_decision. Defined.
End Effect.

(** The aborts the step can run into. *)
Inductive Error : Set :=
| FunCallExpected          (* yulAssert(funCall) in visit *)
| CandidateMismatch        (* the two classifications of visit disagree *)
| SingleOperationExpected  (* yulAssert(operations.size() == 1) *)
| LengthParameterAndConstant
| EffectIsNone
| UnsupportedLengthConstant
| StorageLengthNotOne      (* the yulAssert in knownUnrelated *)
| OutOfRange.              (* std::out_of_range of .at() *)

#[global] Instance Error_eq_dec : EqDecision Error.
Proof. solve_decision. Defined.

Inductive Result (A : Type) : Type :=
| Ok (a : A)
| Err (e : Error).
Arguments Ok {A} a.
Arguments Err {A} e.

#[global] Instance Result_ret : MRet Result := fun A a => Ok a.
#[global] Instance Result_bind : MBind Result := fun A B f m =>
  match m with
  | Ok a => f a
  | Err e => Err e
  end.

Definition yulAssert (site : Error) (b : bool) : Result unit :=
  if b then Ok tt else Err site.

(** [m.at(k)] of a [std::map]. *)
Definition map_at {K V : Type} `{Countable K} (m : gmap K V) (k : K) : Result V :=
  match m !! k with
  | Some v => Ok v
  | None => Err OutOfRange
  end.

(** [v.at(i)] of a [std::vector]. *)
Definition vector_at {A : Type} (v : list A) (i : nat) : Result A :=
  match v !! i with
  | Some a => Ok a
  | None => Err OutOfRange
  end.

(** ** The operations of a call *)

(** [UnusedStoreEliminator::Operation]: start and length are names of SSA
    variables (or of the special constants); [None] means unknown. *)
Record Operation : Type := mkOperation {
  location : Location.t;
  effect : Effect.t;
  start : option YulString;
  length : option YulString;
}.

#[global] Instance Operation_eq_dec : EqDecision Operation.
Proof. solve_decision. Defined.

(** The queries of [KnowledgeBase] the step uses.  The class itself is
    defined elsewhere; an instance is built from the dialect and the SSA
    values, see [knowledge] below. *)
Module KnowledgeBase.
Record t : Type := mk {
  valueIfKnownConstant : YulString -> option Z;
  knownToBeZero : YulString -> bool;
  knownToBeDifferent : YulString -> YulString -> bool;
  knownToBeDifferentByAtLeast32 : YulString -> YulString -> bool;
  knownToBeEqual : YulString -> YulString -> bool;
}.
End KnowledgeBase.

Section AliasPredicates.

Variable knowledge : KnowledgeBase.t.

Definition isKnownZero (v : option YulString) : bool :=
  match v with
  | Some l => KnowledgeBase.knownToBeZero knowledge l
  | None => false
  end.

(** [start + length] fits and ends at or before [other]. *)
Definition endsBefore (start1 length1 start2 : Z) : bool :=
  bool_decide (u256_add start1 length1 >= start1) &&
  bool_decide (u256_add start1 length1 <= start2).

(** The first two range tests of the memory case of [knownUnrelated]:
    [_op1] ends before [_op2] starts, all three values being known. *)
Definition knownBefore (_op1 _op2 : Operation) : bool :=
  match start _op1, length _op1, start _op2 with
  | Some s1, Some l1, Some s2 =>
      match KnowledgeBase.valueIfKnownConstant knowledge l1,
            KnowledgeBase.valueIfKnownConstant knowledge s1,
            KnowledgeBase.valueIfKnownConstant knowledge s2 with
      | Some length1, Some start1, Some start2 => endsBefore start1 length1 start2
      | _, _, _ => false
      end
  | _, _, _ => false
  end.

(** The last test of the memory case: both are at most one word long and
    the starts differ by at least 32. *)
Definition knownWordsApart (_op1 _op2 : Operation) : bool :=
  match start _op1, length _op1, start _op2, length _op2 with
  | Some s1, Some l1, Some s2, Some l2 =>
      match KnowledgeBase.valueIfKnownConstant knowledge l1,
            KnowledgeBase.valueIfKnownConstant knowledge l2 with
      | Some length1, Some length2 =>
          bool_decide (length1 <= 32) && bool_decide (length2 <= 32) &&
          KnowledgeBase.knownToBeDifferentByAtLeast32 knowledge s1 s2
      | _, _ => false
      end
  | _, _, _, _ => false
  end.

Definition hasLengthOne (v : option YulString) : bool :=
  match v with
  | Some l => bool_decide (KnowledgeBase.valueIfKnownConstant knowledge l = Some 1)
  | None => false
  end.

(** [UnusedStoreEliminator::knownUnrelated]. *)
Definition knownUnrelated (_op1 _op2 : Operation) : Result bool :=
  if negb (bool_decide (location _op1 = location _op2)) then Ok true
  else
    match location _op1 with
    | Location.Storage =>
        match start _op1, start _op2 with
        | Some s1, Some s2 =>
            _ ← yulAssert StorageLengthNotOne
                  (hasLengthOne (length _op1) && hasLengthOne (length _op2));
            Ok (KnowledgeBase.knownToBeDifferent knowledge s1 s2)
        | _, _ => Ok false
        end
    | Location.Memory =>
        if isKnownZero (length _op1) || isKnownZero (length _op2) then Ok true
        else if knownBefore _op1 _op2 then Ok true
        else if knownBefore _op2 _op1 then Ok true
        else if knownWordsApart _op1 _op2 then Ok true
        else Ok false
    end.

(** The range test at the end of the memory case of [knownCovered]. *)
Definition rangeInside (coveredStart coveredLength coveringStart coveringLength : Z) : bool :=
  bool_decide (coveringStart <= coveredStart) &&
  bool_decide (u256_add coveringStart coveringLength >= coveringStart) &&
  bool_decide (u256_add coveredStart coveredLength >= coveredStart) &&
  bool_decide (u256_add coveredStart coveredLength <= u256_add coveringStart coveringLength).

(** [UnusedStoreEliminator::knownCovered]. *)
Definition knownCovered (_covered _covering : Operation) : bool :=
  if negb (bool_decide (location _covered = location _covering)) then false
  else if
    (bool_decide (is_Some (start _covered)) && bool_decide (start _covered = start _covering)) &&
    (bool_decide (is_Some (length _covered)) && bool_decide (length _covered = length _covering))
  then true
  else
    match location _covered with
    | Location.Memory =>
        if isKnownZero (length _covered) then true
        else
          match start _covered, start _covering, length _covered, length _covering with
          | Some cs, Some gs, Some cl, Some gl =>
              let coveredLength := KnowledgeBase.valueIfKnownConstant knowledge cl in
              let coveringLength := KnowledgeBase.valueIfKnownConstant knowledge gl in
              if KnowledgeBase.knownToBeEqual knowledge cs gs &&
                 match coveredLength, coveringLength with
                 | Some a, Some b => bool_decide (a <= b)
                 | _, _ => false
                 end
              then true
              else
                match KnowledgeBase.valueIfKnownConstant knowledge cs,
                      KnowledgeBase.valueIfKnownConstant knowledge gs,
                      coveredLength, coveringLength with
                | Some coveredStart, Some coveringStart, Some a, Some b =>
                    rangeInside coveredStart a coveringStart b
                | _, _, _, _ => false
                end
          | _, _, _, _ => false
          end
    | Location.Storage => false
    end.

End AliasPredicates.

(** ** The AST *)

Module LiteralKind.
Inductive t : Set := Number | Boolean | String.
#[global] Instance eq_dec : EqDecision t.
Proof. solve_decision. Defined.
End LiteralKind.

(** Modelled from the spec: the AST is declared outside this file.  An
    expression is a call, an identifier or a literal, the three
    alternatives the step asks for. *)
Inductive Expression : Type :=
| FunctionCall (functionName : YulString) (arguments : list Expression)
| Identifier (name : YulString)
| Literal (kind : LiteralKind.t) (value : YulString).

(** Modelled from the spec: the statements of the AST: expression statements,
    declarations and assignments, blocks, the structured control flow of
    the shared traversal ([If], [Switch], [ForLoop]), function definitions
    and [Leave].  A [Switch] case is its optional literal (absent for
    [default]) and its body.  The loop exits [break] and [continue] are
    handled by the shared traversal alone, which is outside this file and
    is not described for them; they are not part of this model. *)
Inductive Statement : Type :=
| ExpressionStatement (expression : Expression)
| VariableDeclaration (variables : list YulString) (value : option Expression)
| Assignment (variableNames : list YulString) (value : Expression)
| Block (statements : list Statement)
| If (condition : Expression) (body : list Statement)
| Switch (expression : Expression) (cases : list (option YulString * list Statement))
| ForLoop (pre : list Statement) (condition : Expression)
          (post : list Statement) (body : list Statement)
| FunctionDefinition (name : YulString) (parameters returnVariables : list YulString)
                     (body : list Statement)
| Leave.

(** A [Statement const*]: the position of the statement, innermost index
    first.  The statement number [i] of the block at position [b] is at
    [i :: b]; the sub-block number [k] of the statement at [s] is at
    [k :: s]; the root block is at [[]]. *)
Definition StmtId : Type := list nat.

(** The blocks directly inside a statement, in a fixed order. *)
Definition subBlocks (st : Statement) : list (list Statement) :=
  match st with
  | Block b => [b]
  | If _ b => [b]
  | Switch _ cs => map snd cs
  | ForLoop pre _ post body => [pre; body; post]
  | FunctionDefinition _ _ _ b => [b]
  | _ => []
  end.

(** [BlockAt root b blk]: the block [blk] lives at position [b] of the AST
    below [root]; [StmtAt root s st]: the statement [st] lives at [s]. *)
Inductive BlockAt (root : list Statement) : StmtId -> list Statement -> Prop :=
| BlockAt_root : BlockAt root [] root
| BlockAt_sub s st k blk :
    StmtAt root s st -> subBlocks st !! k = Some blk -> BlockAt root (k :: s) blk
with StmtAt (root : list Statement) : StmtId -> Statement -> Prop :=
| StmtAt_intro b blk i st :
    BlockAt root b blk -> blk !! i = Some st -> StmtAt root (i :: b) st.

(** ** The collaborators *)

(** [evmasm::Instruction], as far as the step and its examples name them. *)
Inductive Instruction : Set :=
| STOP | ADD | KECCAK256 | CALLDATALOAD | CALLDATACOPY | CODECOPY | EXTCODECOPY
| RETURNDATASIZE | RETURNDATACOPY | POP | MLOAD | MSTORE | MSTORE8
| SLOAD | SSTORE | MSIZE | LOG0 | CREATE | CALL | CALLCODE | RETURN
| DELEGATECALL | CREATE2 | STATICCALL | REVERT | INVALID | SELFDESTRUCT.

#[global] Instance Instruction_eq_dec : EqDecision Instruction.
Proof. solve_decision. Defined.

(** [SideEffects]: only the memory and storage effects are consulted. *)
Module SideEffects.
Record t : Type := mk {
  memory : Effect.t;
  storage : Effect.t;
}.
End SideEffects.

Record ControlFlowSideEffects : Type := mkControlFlowSideEffects {
  canTerminate : bool;
  canContinue : bool;
}.

Record BuiltinFunction : Type := mkBuiltinFunction {
  sideEffects : SideEffects.t;
  controlFlowSideEffects : ControlFlowSideEffects;
  instruction : option Instruction;
}.

(** The dialect: builtin lookup by name; [isEVMDialect] is the outcome of
    [dynamic_cast<EVMDialect const*>], [providesObjectAccess] the flag of
    an EVM dialect. *)
Record Dialect : Type := mkDialect {
  builtin : YulString -> option BuiltinFunction;
  isEVMDialect : bool;
  providesObjectAccess : bool;
}.

(** Modelled from the spec: [toEVMInstruction] is declared with the EVM
    dialect, outside this file; the callee "is a known opcode" when the
    dialect is an EVM dialect and its builtin of that name carries an
    instruction. *)
Definition toEVMInstruction (d : Dialect) (_name : YulString) : option Instruction :=
  if isEVMDialect d then
    match builtin d _name with
    | Some b => instruction b
    | None => None
    end
  else None.

(** [evmasm::SemanticInformation::Operation]: parameter indices of start
    and length, or a constant length. *)
Module SemanticInformation.
Record Operation : Type := mkOperation {
  location : Location.t;
  effect : Effect.t;
  startParameter : option nat;
  lengthParameter : option nat;
  lengthConstant : option nat;
}.
(** The tables of [evmasm::SemanticInformation] the step reads. *)
Record t : Type := mk {
  memory : Instruction -> Effect.t;
  storage : Instruction -> Effect.t;
  otherState : Instruction -> Effect.t;
  readWriteOperations : Instruction -> list Operation;
}.
End SemanticInformation.

(** [AssignedValue]: the expression an SSA variable was assigned. *)
Record AssignedValue : Type := mkAssignedValue {
  assignedValue : Expression;
}.

(** The constant members of the step's object. *)
Record UnusedStoreEliminator : Type := mkUnusedStoreEliminator {
  m_dialect : Dialect;
  m_functionSideEffects : gmap YulString SideEffects.t;
  m_controlFlowSideEffects : gmap YulString ControlFlowSideEffects;
  m_ssaValues : gmap YulString AssignedValue;
  m_ignoreMemory : bool;
}.

(** The members that change during the walk.  [activeMemoryStores] and
    [activeStorageStores] are the two entries of [m_activeStores]. *)
Record State : Type := mkState {
  m_allStores : gset StmtId;
  m_usedStores : gset StmtId;
  activeMemoryStores : gset StmtId;
  activeStorageStores : gset StmtId;
  m_storeOperations : gmap StmtId Operation;
}.

Definition initialState : State :=
  mkState ∅ ∅ ∅ ∅ ∅.

Definition activeStores (l : Location.t) (σ : State) : gset StmtId :=
  match l with
  | Location.Storage => activeStorageStores σ
  | Location.Memory => activeMemoryStores σ
  end.

Definition setActiveStores (l : Location.t) (a : gset StmtId) (σ : State) : State :=
  match l with
  | Location.Storage =>
      mkState (m_allStores σ) (m_usedStores σ) (activeMemoryStores σ) a (m_storeOperations σ)
  | Location.Memory =>
      mkState (m_allStores σ) (m_usedStores σ) a (activeStorageStores σ) (m_storeOperations σ)
  end.

Definition setUsedStores (u : gset StmtId) (σ : State) : State :=
  mkState (m_allStores σ) u (activeMemoryStores σ) (activeStorageStores σ) (m_storeOperations σ).

Definition setStoreOperations (ops : gmap StmtId Operation) (σ : State) : State :=
  mkState (m_allStores σ) (m_usedStores σ) (activeMemoryStores σ) (activeStorageStores σ) ops.

(** [_onlyLocation == nullopt || _onlyLocation == l]. *)
Definition concerns (_onlyLocation : option Location.t) (l : Location.t) : bool :=
  match _onlyLocation with
  | None => true
  | Some l' => bool_decide (l' = l)
  end.

(** [UnusedStoreEliminator::clearActive]. *)
Definition clearActive (_onlyLocation : option Location.t) (σ : State) : State :=
  let σ1 := if concerns _onlyLocation Location.Memory
            then setActiveStores Location.Memory ∅ σ else σ in
  if concerns _onlyLocation Location.Storage
  then setActiveStores Location.Storage ∅ σ1 else σ1.

(** [UnusedStoreEliminator::markActiveAsUsed]. *)
Definition markActiveAsUsed (_onlyLocation : option Location.t) (σ : State) : State :=
  let σ1 := if concerns _onlyLocation Location.Memory
            then setUsedStores (m_usedStores σ ∪ activeMemoryStores σ) σ else σ in
  let σ2 := if concerns _onlyLocation Location.Storage
            then setUsedStores (m_usedStores σ1 ∪ activeStorageStores σ1) σ1 else σ1 in
  clearActive _onlyLocation σ2.

(** Sequential iteration threading a state through a list. *)
Fixpoint forEach {A S : Type} (f : A -> S -> Result S) (l : list A) (s : S) : Result S :=
  match l with
  | [] => Ok s
  | a :: l' => s' ← f a s; forEach f l' s'
  end.

(** The active sets of both locations: (memory, storage). *)
Definition ActiveStores : Type := (gset StmtId * gset StmtId)%type.

Definition getActive (σ : State) : ActiveStores :=
  (activeMemoryStores σ, activeStorageStores σ).

Definition setActive (a : ActiveStores) (σ : State) : State :=
  mkState (m_allStores σ) (m_usedStores σ) (fst a) (snd a) (m_storeOperations σ).

(** ** The step *)

Section Step.

(** [SemanticInformation]'s tables. *)
Variable semantics : SemanticInformation.t.
(** The constructor of [KnowledgeBase]: dialect and value lookup. *)
Variable knowledgeBase : Dialect -> (YulString -> option AssignedValue) -> KnowledgeBase.t.
(** The join of two active sets of one location, done by the shared
    traversal at control-flow joins. *)
Variable merge : gset StmtId -> gset StmtId -> gset StmtId.

Variable rse : UnusedStoreEliminator.

(** [KnowledgeBase knowledge(m_dialect, [this](YulString _var)
    { return util::valueOrNullptr(m_ssaValues, _var); })]. *)
Definition knowledge : KnowledgeBase.t :=
  knowledgeBase (m_dialect rse) (fun _var => m_ssaValues rse !! _var).

(** [UnusedStoreEliminator::identifierNameIfSSA]. *)
Definition identifierNameIfSSA (_expression : Expression) : option YulString :=
  match _expression with
  | Identifier name =>
      if bool_decide (is_Some (m_ssaValues rse !! name)) then Some name else None
  | _ => None
  end.

(** The [switch] over the constant length of an operation: only 1 and 32
    have a name. *)
Definition lengthOfConstant (c : nat) : Result YulString :=
  match c with
  | 1%nat => Ok one
  | 32%nat => Ok thirtyTwo
  | _ => Err UnsupportedLengthConstant
  end.

(** The lambda of [operationsFromFunctionCall]: one operation of the
    instruction, its parameters resolved against the call's arguments. *)
Definition operationFromSemantics (arguments : list Expression)
    (_op : SemanticInformation.Operation) : Result Operation :=
  _ ← yulAssert LengthParameterAndConstant
        (negb (bool_decide (is_Some (SemanticInformation.lengthParameter _op)) &&
               bool_decide (is_Some (SemanticInformation.lengthConstant _op))));
  _ ← yulAssert EffectIsNone
        (negb (bool_decide (SemanticInformation.effect _op = Effect.None)));
  ourStart ←
    match SemanticInformation.startParameter _op with
    | Some i => a ← vector_at arguments i; Ok (identifierNameIfSSA a)
    | None => Ok None
    end;
  ourLength ←
    match SemanticInformation.lengthParameter _op with
    | Some i => a ← vector_at arguments i; Ok (identifierNameIfSSA a)
    | None => Ok None
    end;
  ourLength' ←
    match SemanticInformation.lengthConstant _op with
    | Some c => l ← lengthOfConstant c; Ok (Some l)
    | None => Ok ourLength
    end;
  Ok (mkOperation (SemanticInformation.location _op) (SemanticInformation.effect _op)
                  ourStart ourLength').

(** [UnusedStoreEliminator::operationsFromFunctionCall]. *)
Definition operationsFromFunctionCall (functionName : YulString)
    (arguments : list Expression) : Result (list Operation) :=
  sideEffects ←
    match builtin (m_dialect rse) functionName with
    | Some f => Ok (sideEffects f)
    | None => map_at (m_functionSideEffects rse) functionName
    end;
  match toEVMInstruction (m_dialect rse) functionName with
  | None =>
      (* Unknown read is worse than unknown write. *)
      Ok ((if bool_decide (SideEffects.memory sideEffects = Effect.None) then []
           else [mkOperation Location.Memory Effect.Read None None]) ++
          (if bool_decide (SideEffects.storage sideEffects = Effect.None) then []
           else [mkOperation Location.Storage Effect.Read None None]))%list
  | Some instruction =>
      mapM (operationFromSemantics arguments)
           (SemanticInformation.readWriteOperations semantics instruction)
  end.

(** The body of the loop of [applyOperation] for one active statement;
    the accumulator is ([m_usedStores], [toRemove]). *)
Definition applyOperationTo (_operation : Operation) (ops : gmap StmtId Operation)
    (statement : StmtId) (acc : gset StmtId * gset StmtId)
    : Result (gset StmtId * gset StmtId) :=
  storeOperation ← map_at ops statement;
  if bool_decide (effect _operation = Effect.Read) then
    unrelated ← knownUnrelated knowledge storeOperation _operation;
    if negb unrelated
    then Ok ({[statement]} ∪ fst acc, {[statement]} ∪ snd acc)
    else Ok acc
  else if bool_decide (effect _operation = Effect.Write) &&
          knownCovered knowledge storeOperation _operation
  then Ok (fst acc, {[statement]} ∪ snd acc)
  else Ok acc.

(** [UnusedStoreEliminator::applyOperation]. *)
Definition applyOperation (_operation : Operation) (σ : State) : Result State :=
  let active := activeStores (location _operation) σ in
  r ← forEach (applyOperationTo _operation (m_storeOperations σ))
              (elements active) (m_usedStores σ, ∅);
  Ok (setActiveStores (location _operation) (active ∖ snd r) (setUsedStores (fst r) σ)).

(** The control-flow side effects of the callee. *)
Definition calleeControlFlow (functionName : YulString) : Result ControlFlowSideEffects :=
  match builtin (m_dialect rse) functionName with
  | Some b => Ok (controlFlowSideEffects b)
  | None => map_at (m_controlFlowSideEffects rse) functionName
  end.

(** The tail of [operator()(FunctionCall const&)]: what the side effects
    on control flow do to the active stores. *)
Definition applyControlFlow (sideEffects : ControlFlowSideEffects) (σ : State) : State :=
  let σ1 := if canTerminate sideEffects
            then markActiveAsUsed (Some Location.Storage) σ else σ in
  if negb (canContinue sideEffects) then
    let σ2 := clearActive (Some Location.Memory) σ1 in
    if negb (canTerminate sideEffects)
    then clearActive (Some Location.Storage) σ2 else σ2
  else σ1.

(** [UnusedStoreEliminator::operator()(FunctionCall const&)]; [walkArguments]
    is the inherited walk over the arguments. *)
Definition operator_FunctionCall (walkArguments : State -> Result State)
    (functionName : YulString) (arguments : list Expression) (σ : State) : Result State :=
  σ0 ← walkArguments σ;
  operations ← operationsFromFunctionCall functionName arguments;
  σ1 ← forEach applyOperation operations σ0;
  sideEffects ← calleeControlFlow functionName;
  Ok (applyControlFlow sideEffects σ1).

(** Modelled from the spec: the generic walker over expressions is outside
    this file; sub-expressions are evaluated before the call they are
    arguments of, the last argument first, and identifiers and literals do
    nothing. *)
Fixpoint visitExpression (e : Expression) (σ : State) {struct e} : Result State :=
  match e with
  | FunctionCall functionName arguments =>
      operator_FunctionCall
        ((fix walkReverse (es : list Expression) (σ : State) : Result State :=
            match es with
            | [] => Ok σ
            | e' :: es' => σ' ← walkReverse es' σ; visitExpression e' σ'
            end) arguments)
        functionName arguments σ
  | Identifier _ => Ok σ
  | Literal _ _ => Ok σ
  end.

Definition isIdentifierOrLiteral (_expr : Expression) : bool :=
  match _expr with
  | FunctionCall _ _ => false
  | _ => true
  end.

Definition isStorageWrite (i : Instruction) : bool :=
  bool_decide (i = SSTORE).

Definition isMemoryWrite (i : Instruction) : bool :=
  bool_decide (i = EXTCODECOPY) || bool_decide (i = CODECOPY) ||
  bool_decide (i = CALLDATACOPY) || bool_decide (i = RETURNDATACOPY) ||
  bool_decide (i = MSTORE) || bool_decide (i = MSTORE8).

Definition isCandidateForRemoval (i : Instruction) : bool :=
  negb (bool_decide (SemanticInformation.otherState semantics i = Effect.Write)) &&
  (bool_decide (SemanticInformation.storage semantics i = Effect.Write) ||
   (negb (m_ignoreMemory rse) &&
    bool_decide (SemanticInformation.memory semantics i = Effect.Write))).

(** The test of [visit] on a [returndatacopy]: only
    [returndatacopy(X, 0, returndatasize())] may be removed. *)
Definition allowReturndatacopyToBeRemoved (arguments : list Expression) : Result bool :=
  a1 ← vector_at arguments 1;
  a2 ← vector_at arguments 2;
  match identifierNameIfSSA a2, identifierNameIfSSA a1 with
  | Some length, Some startOffset =>
      v ← map_at (m_ssaValues rse) length;
      Ok (KnowledgeBase.knownToBeZero knowledge startOffset &&
          match assignedValue v with
          | FunctionCall lengthName _ =>
              bool_decide (toEVMInstruction (m_dialect rse) lengthName = Some RETURNDATASIZE)
          | _ => false
          end)
  | _, _ => Ok false
  end.

(** The end of [visit] for a candidate: the statement enters [m_allStores],
    the active set of its location and [m_storeOperations]. *)
Definition recordStore (_statement : StmtId) (functionName : YulString)
    (arguments : list Expression) (σ : State) : Result State :=
  let σ1 := mkState ({[_statement]} ∪ m_allStores σ) (m_usedStores σ)
                    (activeMemoryStores σ) (activeStorageStores σ) (m_storeOperations σ) in
  operations ← operationsFromFunctionCall functionName arguments;
  match operations with
  | [op] =>
      let l := location op in
      let σ2 := setActiveStores l ({[_statement]} ∪ activeStores l σ1) σ1 in
      Ok (setStoreOperations (<[_statement := op]> (m_storeOperations σ2)) σ2)
  | _ => Err SingleOperationExpected
  end.

(** The part of [visit] after the inherited visit, for an expression
    statement. *)
Definition visitStore (_statement : StmtId) (expression : Expression) (σ : State)
    : Result State :=
  match expression with
  | FunctionCall functionName arguments =>
      match toEVMInstruction (m_dialect rse) functionName with
      | None => Ok σ
      | Some instruction =>
          if negb (forallb isIdentifierOrLiteral arguments) then Ok σ
          else
            _ ← yulAssert CandidateMismatch
                  (bool_decide (isCandidateForRemoval instruction =
                     (isStorageWrite instruction ||
                      (negb (m_ignoreMemory rse) && isMemoryWrite instruction))));
            if isCandidateForRemoval instruction then
              allowed ←
                (if bool_decide (instruction = RETURNDATACOPY)
                 then allowReturndatacopyToBeRemoved arguments
                 else Ok true) : Result bool;
              if (allowed : bool) then recordStore _statement functionName arguments σ
              else Ok σ
            else Ok σ
      end
  | _ => Err FunCallExpected
  end.

(** [UnusedStoreEliminator::operator()(Leave const&)]. *)
Definition operator_Leave (σ : State) : State :=
  markActiveAsUsed None σ.

(** *** The shared traversal *)

(** The join of the active stores of both locations. *)
Definition mergeActive (target other : ActiveStores) : ActiveStores :=
  (merge (fst target) (fst other), merge (snd target) (snd other)).

(** Modelled from the spec: [operator()(Block const&)] of the generic
    walker, which is outside this file: the statements of a block are
    visited in order; the statement number [i] of the block at [b] is
    visited as [i :: b]. *)
Definition walkVector (visit : StmtId -> Statement -> State -> Result State)
    (b : StmtId) : nat -> list Statement -> State -> Result State :=
  fix walk (i : nat) (l : list Statement) (σ : State) {struct l} : Result State :=
    match l with
    | [] => Ok σ
    | st :: l' => σ' ← visit (i :: b) st σ; walk (S i) l' σ'
    end.

(** Modelled from the spec: the [If] of the shared traversal, which is
    outside this file.  The body is run from the active stores [S] found
    after the condition, and its result is joined with [S]. *)
Definition operator_If (visitCondition walkBody : State -> Result State) (σ : State)
    : Result State :=
  σ0 ← visitCondition σ;
  let skipBranch := getActive σ0 in
  σ1 ← walkBody σ0;
  Ok (setActive (mergeActive (getActive σ1) skipBranch) σ1).

(** Modelled from the spec: the arms of a [Switch] of the shared
    traversal.  Every arm is run from the active stores [preState]; the
    active stores it ends with are collected. *)
Definition walkCases (walkBody : nat -> list Statement -> State -> Result State)
    (preState : ActiveStores)
    : nat -> list (option YulString * list Statement) -> State ->
      Result (State * list ActiveStores) :=
  fix walk (k : nat) (cs : list (option YulString * list Statement)) (σ : State) {struct cs} :=
    match cs with
    | [] => Ok (σ, [])
    | c :: cs' =>
        σ1 ← walkBody k (snd c) (setActive preState σ);
        r ← walk (S k) cs' σ1;
        Ok (fst r, getActive σ1 :: snd r)
    end.

(** Modelled from the spec: the join after a [Switch]: all arms' results,
    and the state before the arms when there is no default. *)
Definition joinBranches (hasDefault : bool) (preState : ActiveStores)
    (branches : list ActiveStores) : ActiveStores :=
  match (if hasDefault then rev branches else preState :: branches) with
  | [] => preState
  | b :: bs => fold_left mergeActive bs b
  end.

(** Modelled from the spec: the [Switch] of the shared traversal: the
    expression, then the arms, then the join. *)
Definition operator_Switch (visitExpr : State -> Result State)
    (walkArms : ActiveStores -> State -> Result (State * list ActiveStores))
    (hasDefault : bool) (σ : State) : Result State :=
  σ0 ← visitExpr σ;
  let preState := getActive σ0 in
  r ← walkArms preState σ0;
  Ok (setActive (joinBranches hasDefault preState (snd r)) (fst r)).

(** Modelled from the spec: the [ForLoop] of the shared traversal, in the
    formulation that analyses the body twice: the stores active after no
    run and after one run of the body are joined with those after two. *)
Definition operator_ForLoop (walkPre visitCondition walkBody walkPost : State -> Result State)
    (σ : State) : Result State :=
  σ0 ← walkPre σ;
  σ1 ← visitCondition σ0;
  let zeroRuns := getActive σ1 in
  σ2 ← walkBody σ1;
  σ3 ← walkPost σ2;
  σ4 ← visitCondition σ3;
  let oneRun := getActive σ4 in
  σ5 ← walkBody σ4;
  σ6 ← walkPost σ5;
  σ7 ← visitCondition σ6;
  Ok (setActive (mergeActive (mergeActive (getActive σ7) oneRun) zeroRuns) σ7).

(** Modelled from the spec: the [FunctionDefinition] of the shared
    traversal.  The body is run from empty active stores; reaching its end
    returns to the caller, so what is still active is marked as used; the
    active stores of the enclosing code are restored. *)
Definition base_FunctionDefinition (walkBody : State -> Result State) (σ : State)
    : Result State :=
  let outer := getActive σ in
  σ1 ← walkBody (setActive (∅, ∅) σ);
  Ok (setActive outer (markActiveAsUsed None σ1)).

(** [UnusedStoreEliminator::operator()(FunctionDefinition const&)]:
    [m_storeOperations] is emptied for the body and restored after it. *)
Definition operator_FunctionDefinition (walkBody : State -> Result State) (σ : State)
    : Result State :=
  let storeOperations := m_storeOperations σ in
  σ1 ← base_FunctionDefinition walkBody (setStoreOperations ∅ σ);
  Ok (setStoreOperations storeOperations σ1).

Definition isDefault (c : option YulString * list Statement) : bool :=
  match fst c with
  | Some _ => false
  | None => true
  end.

(** [UnusedStoreEliminator::visit(Statement const&)]: the inherited visit
    dispatches on the statement (the generic walker visits the value of a
    declaration or assignment and the expression of an expression
    statement); an expression statement is then examined as a store. *)
Fixpoint visit (s : StmtId) (st : Statement) (σ : State) {struct st} : Result State :=
  match st with
  | ExpressionStatement e =>
      σ1 ← visitExpression e σ;
      visitStore s e σ1
  | VariableDeclaration _ (Some e) => visitExpression e σ
  | VariableDeclaration _ None => Ok σ
  | Assignment _ e => visitExpression e σ
  | Block b => walkVector visit (0%nat :: s) 0 b σ
  | If c b =>
      operator_If (visitExpression c) (walkVector visit (0%nat :: s) 0 b) σ
  | Switch e cs =>
      operator_Switch (visitExpression e)
        (fun preState =>
           walkCases (fun k b => walkVector visit (k :: s) 0 b) preState 0 cs)
        (existsb isDefault cs) σ
  | ForLoop pre c post body =>
      operator_ForLoop (walkVector visit (0%nat :: s) 0 pre) (visitExpression c)
                       (walkVector visit (1%nat :: s) 0 body)
                       (walkVector visit (2%nat :: s) 0 post) σ
  | FunctionDefinition _ _ _ b =>
      operator_FunctionDefinition (walkVector visit (0%nat :: s) 0 b) σ
  | Leave => Ok (operator_Leave σ)
  end.

(** [rse(_ast)]: the walk over the root block. *)
Definition walkRoot (_ast : list Statement) : Result State :=
  walkVector visit [] 0 _ast initialState.

(** The end of [run]: what is still active at the end of the code. *)
Definition finalize (σ : State) : State :=
  let σ1 := if isEVMDialect (m_dialect rse) && providesObjectAccess (m_dialect rse)
            then clearActive (Some Location.Memory) σ
            else markActiveAsUsed (Some Location.Memory) σ in
  markActiveAsUsed (Some Location.Storage) σ1.

(** The set given to [StatementRemover]. *)
Definition storesToRemove (σ : State) : gset StmtId :=
  m_allStores (finalize σ) ∖ m_usedStores (finalize σ).

End Step.

(** ** The driver *)

(** Modelled from the spec: [MSizeFinder::containsMSize] is outside this
    file; the program "contains a query of the current memory size" when
    some call in it, at any depth, is a call of the [msize] opcode. *)
Fixpoint expressionContainsMSize (d : Dialect) (e : Expression) {struct e} : bool :=
  match e with
  | FunctionCall functionName arguments =>
      bool_decide (toEVMInstruction d functionName = Some MSIZE) ||
      existsb (expressionContainsMSize d) arguments
  | _ => false
  end.

Fixpoint statementContainsMSize (d : Dialect) (st : Statement) {struct st} : bool :=
  match st with
  | ExpressionStatement e => expressionContainsMSize d e
  | VariableDeclaration _ (Some e) => expressionContainsMSize d e
  | VariableDeclaration _ None => false
  | Assignment _ e => expressionContainsMSize d e
  | Block b => existsb (statementContainsMSize d) b
  | If c b => expressionContainsMSize d c || existsb (statementContainsMSize d) b
  | Switch e cs =>
      expressionContainsMSize d e ||
      existsb (fun c => existsb (statementContainsMSize d) (snd c)) cs
  | ForLoop pre c post body =>
      existsb (statementContainsMSize d) pre || expressionContainsMSize d c ||
      existsb (statementContainsMSize d) post || existsb (statementContainsMSize d) body
  | FunctionDefinition _ _ _ b => existsb (statementContainsMSize d) b
  | Leave => false
  end.

Definition containsMSize (d : Dialect) (_ast : list Statement) : bool :=
  existsb (statementContainsMSize d) _ast.

Definition zeroLiteral : Expression := Literal LiteralKind.Number "0".
Definition oneLiteral : Expression := Literal LiteralKind.Number "1".
Definition thirtyTwoLiteral : Expression := Literal LiteralKind.Number "32".

Section Driver.

Variable semantics : SemanticInformation.t.
Variable knowledgeBase : Dialect -> (YulString -> option AssignedValue) -> KnowledgeBase.t.
Variable merge : gset StmtId -> gset StmtId -> gset StmtId.
(** [SideEffectsPropagator::sideEffects] over the call graph of the code. *)
Variable sideEffectsPropagator : Dialect -> list Statement -> gmap YulString SideEffects.t.
(** [ControlFlowSideEffectsCollector::functionSideEffectsNamed]. *)
Variable controlFlowSideEffectsCollector :
  Dialect -> list Statement -> gmap YulString ControlFlowSideEffects.
(** [SSAValueTracker::values]. *)
Variable ssaValueTracker : list Statement -> gmap YulString Expression.

(** The value map of [run]: the SSA values and the three constants. *)
Definition runValues (_ast : list Statement) : gmap YulString AssignedValue :=
  <[thirtyTwo := mkAssignedValue thirtyTwoLiteral]>
    (<[one := mkAssignedValue oneLiteral]>
       (<[zero := mkAssignedValue zeroLiteral]>
          (mkAssignedValue <$> ssaValueTracker _ast))).

(** The object [rse] that [run] builds. *)
Definition runEliminator (dialect : Dialect) (_ast : list Statement) : UnusedStoreEliminator :=
  mkUnusedStoreEliminator dialect
    (sideEffectsPropagator dialect _ast)
    (controlFlowSideEffectsCollector dialect _ast)
    (runValues _ast)
    (containsMSize dialect _ast).

(** [UnusedStoreEliminator::run]: the result is the set of statements
    handed to the [StatementRemover]. *)
Definition run (dialect : Dialect) (_ast : list Statement) : Result (gset StmtId) :=
  let rse := runEliminator dialect _ast in
  σ ← walkRoot semantics knowledgeBase merge rse _ast;
  Ok (storesToRemove rse σ).

End Driver.

(** ** An instance: a small EVM dialect

    The theorems below hold for every choice of the collaborators that
    meets their stated assumptions.  This instance fixes one choice, on
    which the step can be run. *)
Module EVMExample.

Definition opcodes : list (YulString * Instruction) :=
  [("stop", STOP); ("add", ADD); ("keccak256", KECCAK256);
   ("calldataload", CALLDATALOAD); ("calldatacopy", CALLDATACOPY);
   ("codecopy", CODECOPY); ("extcodecopy", EXTCODECOPY);
   ("returndatasize", RETURNDATASIZE); ("returndatacopy", RETURNDATACOPY);
   ("pop", POP); ("mload", MLOAD); ("mstore", MSTORE); ("mstore8", MSTORE8);
   ("sload", SLOAD); ("sstore", SSTORE); ("msize", MSIZE); ("log0", LOG0);
   ("create", CREATE); ("call", CALL); ("callcode", CALLCODE); ("return", RETURN);
   ("delegatecall", DELEGATECALL); ("create2", CREATE2); ("staticcall", STATICCALL);
   ("revert", REVERT); ("invalid", INVALID); ("selfdestruct", SELFDESTRUCT)].

(** Modelled from the spec: the semantic classification of the opcodes
    (memory, storage and other state read or written). *)
Definition memory (i : Instruction) : Effect.t :=
  match i with
  | CALLDATACOPY | CODECOPY | EXTCODECOPY | RETURNDATACOPY | MSTORE | MSTORE8
  | CALL | CALLCODE | DELEGATECALL | STATICCALL => Effect.Write
  | CREATE | CREATE2 | KECCAK256 | MLOAD | MSIZE | RETURN | REVERT | LOG0 => Effect.Read
  | _ => Effect.None
  end.

Definition storage (i : Instruction) : Effect.t :=
  match i with
  | CALL | CALLCODE | DELEGATECALL | CREATE | CREATE2 | SSTORE => Effect.Write
  | SLOAD | STATICCALL => Effect.Read
  | _ => Effect.None
  end.

Definition otherState (i : Instruction) : Effect.t :=
  match i with
  | CALL | CALLCODE | DELEGATECALL | CREATE | CREATE2 | SELFDESTRUCT | STATICCALL
  | LOG0 => Effect.Write
  | CALLDATALOAD | CALLDATACOPY | EXTCODECOPY | RETURNDATASIZE | RETURNDATACOPY => Effect.Read
  | _ => Effect.None
  end.

(** Modelled from the spec: the operations of the opcodes; storage is
    indexed by words, so a storage slot has length 1; [mstore] and [mload]
    touch 32 bytes, [mstore8] one. *)
Definition readWriteOperations (i : Instruction) : list SemanticInformation.Operation :=
  let op := SemanticInformation.mkOperation in
  match i with
  | SSTORE | SLOAD => [op Location.Storage (storage i) (Some 0) None (Some 1)]%nat
  | MSTORE | MLOAD => [op Location.Memory (memory i) (Some 0) None (Some 32)]%nat
  | MSTORE8 => [op Location.Memory (memory i) (Some 0) None (Some 1)]%nat
  | REVERT | RETURN | KECCAK256 | LOG0 =>
      [op Location.Memory (memory i) (Some 0) (Some 1) None]%nat
  | EXTCODECOPY => [op Location.Memory (memory i) (Some 1) (Some 3) None]%nat
  | CODECOPY | CALLDATACOPY | RETURNDATACOPY =>
      [op Location.Memory (memory i) (Some 0) (Some 2) None]%nat
  | CALL | CALLCODE =>
      [op Location.Memory Effect.Read (Some 3) (Some 4) None;
       op Location.Storage Effect.Read None None None;
       op Location.Storage Effect.Write None None None;
       op Location.Memory Effect.Write (Some 5) None None]%nat
  | DELEGATECALL =>
      [op Location.Memory Effect.Read (Some 2) (Some 3) None;
       op Location.Storage Effect.Read None None None;
       op Location.Storage Effect.Write None None None;
       op Location.Memory Effect.Write (Some 4) None None]%nat
  | STATICCALL =>
      [op Location.Memory Effect.Read (Some 2) (Some 3) None;
       op Location.Storage Effect.Read None None None;
       op Location.Memory Effect.Write (Some 4) None None]%nat
  | CREATE | CREATE2 =>
      [op Location.Memory Effect.Read (Some 1) (Some 2) None;
       op Location.Storage Effect.Read None None None;
       op Location.Storage Effect.Write None None None]%nat
  | _ => []
  end.

Definition semantics : SemanticInformation.t :=
  SemanticInformation.mk memory storage otherState readWriteOperations.

(** Modelled from the spec: [return], [stop] and [selfdestruct] end the
    execution observably; [revert] and [invalid] neither continue nor
    terminate; every other opcode continues. *)
Definition controlFlow (i : Instruction) : ControlFlowSideEffects :=
  match i with
  | RETURN | STOP | SELFDESTRUCT => mkControlFlowSideEffects true false
  | REVERT | INVALID => mkControlFlowSideEffects false false
  | _ => mkControlFlowSideEffects false true
  end.

Definition lookupOpcode (_name : YulString) : option Instruction :=
  snd <$> List.find (fun p => bool_decide (fst p = _name)) opcodes.

Definition dialect (objectAccess : bool) : Dialect :=
  mkDialect
    (fun _name =>
       match lookupOpcode _name with
       | Some i => Some (mkBuiltinFunction (SideEffects.mk (memory i) (storage i))
                                           (controlFlow i) (Some i))
       | None => None
       end)
    true objectAccess.

(** The value of a decimal number literal. *)
Fixpoint parseDigits (acc : Z) (s : string) : option Z :=
  match s with
  | EmptyString => Some acc
  | String c s' =>
      let n := Z.of_nat (Ascii.nat_of_ascii c) in
      if ((48 <=? n)%Z && (n <=? 57)%Z) then parseDigits (10 * acc + (n - 48)) s' else None
  end.

Definition valueOfLiteral (v : YulString) : option Z :=
  match v with
  | EmptyString => None
  | _ => (fun n => n mod u256_modulus) <$> parseDigits 0 v
  end.

(** Modelled from the spec: a knowledge oracle that only folds literal
    bindings: a symbol has a known constant value when it is bound to a
    number literal; two symbols are known to be equal when they are the
    same symbol. *)
Definition constantOf (lookup : YulString -> option AssignedValue) (v : YulString)
    : option Z :=
  match lookup v with
  | Some (mkAssignedValue (Literal LiteralKind.Number n)) => valueOfLiteral n
  | _ => None
  end.

Definition knowledgeBase (d : Dialect) (lookup : YulString -> option AssignedValue)
    : KnowledgeBase.t :=
  KnowledgeBase.mk
    (constantOf lookup)
    (fun v => bool_decide (constantOf lookup v = Some 0))
    (fun a b =>
       match constantOf lookup a, constantOf lookup b with
       | Some x, Some y => negb (bool_decide (x = y))
       | _, _ => false
       end)
    (fun a b =>
       match constantOf lookup a, constantOf lookup b with
       | Some x, Some y =>
           bool_decide (32 <= (x - y) mod u256_modulus) &&
           bool_decide ((x - y) mod u256_modulus <= u256_modulus - 32)
       | _, _ => false
       end)
    (fun a b => bool_decide (a = b)).

(** Modelled from the spec: the join keeps the stores that are active on
    both paths. *)
Definition merge (a b : gset StmtId) : gset StmtId := a ∩ b.

(** Modelled from the spec: the SSA value tracker, which is outside this
    file: an SSA symbol is a name whose defining expression is immutable;
    here, the variables declared alone with a value, or without a value
    (then zero), and never assigned. *)
Fixpoint declarations (st : Statement) {struct st} : list (YulString * Expression) :=
  match st with
  | VariableDeclaration [x] (Some e) => [(x, e)]
  | VariableDeclaration xs None => map (fun x => (x, zeroLiteral)) xs
  | Block b => flat_map declarations b
  | If _ b => flat_map declarations b
  | FunctionDefinition _ _ _ b => flat_map declarations b
  | Switch _ cs => flat_map (fun c => flat_map declarations (snd c)) cs
  | ForLoop pre _ post body =>
      (flat_map declarations pre ++ flat_map declarations post ++
       flat_map declarations body)%list
  | _ => []
  end.

Fixpoint assignments (st : Statement) {struct st} : list YulString :=
  match st with
  | Assignment xs _ => xs
  | Block b => flat_map assignments b
  | If _ b => flat_map assignments b
  | FunctionDefinition _ _ _ b => flat_map assignments b
  | Switch _ cs => flat_map (fun c => flat_map assignments (snd c)) cs
  | ForLoop pre _ post body =>
      (flat_map assignments pre ++ flat_map assignments post ++
       flat_map assignments body)%list
  | _ => []
  end.

Definition ssaValueTracker (_ast : list Statement) : gmap YulString Expression :=
  let assigned := flat_map assignments _ast in
  list_to_map
    (List.filter (fun p => negb (bool_decide (fst p ∈ assigned)))
                 (flat_map declarations _ast)).

(** The example code has no user-defined functions. *)
Definition noSideEffects (d : Dialect) (_ast : list Statement)
    : gmap YulString SideEffects.t := ∅.
Definition noControlFlowSideEffects (d : Dialect) (_ast : list Statement)
    : gmap YulString ControlFlowSideEffects := ∅.

(** The run of the step on the code, with this instance. *)
Definition runOn (objectAccess : bool) (_ast : list Statement) : Result (gset StmtId) :=
  run semantics knowledgeBase merge noSideEffects noControlFlowSideEffects
      ssaValueTracker (dialect objectAccess) _ast.

Definition number (n : YulString) : Expression := Literal LiteralKind.Number n.
Definition call (f : YulString) (args : list Expression) : Statement :=
  ExpressionStatement (FunctionCall f args).
Definition letVar (x : YulString) (e : Expression) : Statement :=
  VariableDeclaration [x] (Some e).

(** [mstore(0, 1) mstore(0, 2) return(0, 32)]. *)
Definition literalStores : list Statement :=
  [call "mstore" [number "0"; number "1"];
   call "mstore" [number "0"; number "2"];
   call "return" [number "0"; number "32"]].

(** The same code after every literal was given an SSA variable:
    [let a := 0  let b := 1  let c := 2  let d := 32
     mstore(a, b)  mstore(a, c)  return(a, d)]. *)
Definition ssaStores : list Statement :=
  [letVar "a" (number "0"); letVar "b" (number "1");
   letVar "c" (number "2"); letVar "d" (number "32");
   call "mstore" [Identifier "a"; Identifier "b"];
   call "mstore" [Identifier "a"; Identifier "c"];
   call "return" [Identifier "a"; Identifier "d"]].

(** The object [rse] that [run] builds for the code. *)
Definition eliminator (objectAccess : bool) (_ast : list Statement) : UnusedStoreEliminator :=
  runEliminator noSideEffects noControlFlowSideEffects ssaValueTracker
    (dialect objectAccess) _ast.

(** The knowledge base of the run on the code, and the values it knows. *)
Definition knowledgeOf (_ast : list Statement) : KnowledgeBase.t :=
  knowledge knowledgeBase (eliminator false _ast).

Definition valuation (lookup : YulString -> option AssignedValue) (v : YulString) : Z :=
  match constantOf lookup v with
  | Some c => c
  | None => 0
  end.

(** [let p := 0  let z := 0  let n := returndatasize()
     returndatacopy(p, z, n)]. *)
Definition returndataCopy : list Statement :=
  [letVar "p" (number "0"); letVar "z" (number "0");
   letVar "n" (FunctionCall "returndatasize" []);
   call "returndatacopy" [Identifier "p"; Identifier "z"; Identifier "n"]].

(** [let a := 0  let b := 1  mstore(a, b)  let m := msize()]. *)
Definition msizeStores : list Statement :=
  [letVar "a" (number "0"); letVar "b" (number "1");
   call "mstore" [Identifier "a"; Identifier "b"];
   letVar "m" (FunctionCall "msize" [])].

(** [let k := 0  let v := 1  let w := 2
     sstore(k, v)  let x := sload(k)  sstore(k, w)]. *)
Definition storageStores : list Statement :=
  [letVar "k" (number "0"); letVar "v" (number "1"); letVar "w" (number "2");
   call "sstore" [Identifier "k"; Identifier "v"];
   letVar "x" (FunctionCall "sload" [Identifier "k"]);
   call "sstore" [Identifier "k"; Identifier "w"]].

(** [let p := 0  let z := 0  calldatacopy(p, p, z)]: a copy of no bytes. *)
Definition emptyCopy : list Statement :=
  [letVar "p" (number "0"); letVar "z" (number "0");
   call "calldatacopy" [Identifier "p"; Identifier "p"; Identifier "z"]].

(** The state of the walk over [ssaStores] before its last statement. *)
Definition beforeReturn : Result State :=
  walkVector (visit semantics knowledgeBase merge (eliminator false ssaStores))
             [] 0 (take 6 ssaStores) initialState.

End EVMExample.


(** ** Properties of the collaborators *)

(** The answers of a knowledge base are sound for the values [ρ] the
    symbols have at run time: whatever it claims to know is true. *)
Record KnowledgeSound (ρ : YulString -> Z) (kb : KnowledgeBase.t) : Prop := {
  sound_range : forall v, is_u256 (ρ v);
  sound_constant : forall v c,
    KnowledgeBase.valueIfKnownConstant kb v = Some c -> ρ v = c;
  sound_zero : forall v, KnowledgeBase.knownToBeZero kb v = true -> ρ v = 0;
  sound_different : forall a b,
    KnowledgeBase.knownToBeDifferent kb a b = true -> ρ a <> ρ b;
  sound_different32 : forall a b,
    KnowledgeBase.knownToBeDifferentByAtLeast32 kb a b = true ->
    32 <= (ρ a - ρ b) mod u256_modulus <= u256_modulus - 32;
  sound_equal : forall a b, KnowledgeBase.knownToBeEqual kb a b = true -> ρ a = ρ b;
}.

(** ** The invariant of the walk *)

Section Invariant.

Variable semantics : SemanticInformation.t.
Variable knowledgeBase : Dialect -> (YulString -> option AssignedValue) -> KnowledgeBase.t.
Variable rse : UnusedStoreEliminator.
(** The root block of the code that is walked. *)
Variable root : list Statement.

(** The statement at [s] is a call of the shape that [visit] records as a
    store: an opcode of the hard-coded list, with memory writes only when
    memory is not ignored, and in the one removable shape if it is a
    [returndatacopy]. *)
Definition RecordedStoreShape (s : StmtId) (functionName : YulString)
    (arguments : list Expression) : Prop :=
  exists instruction,
    StmtAt root s (ExpressionStatement (FunctionCall functionName arguments)) /\
    toEVMInstruction (m_dialect rse) functionName = Some instruction /\
    isStorageWrite instruction || (negb (m_ignoreMemory rse) && isMemoryWrite instruction) = true /\
    (instruction = RETURNDATACOPY ->
     allowReturndatacopyToBeRemoved knowledgeBase rse arguments = Ok true).

(** The statement at [s] is recorded as a store of location [l]: it has
    that shape and a single operation, at [l]. *)
Definition RecordedStore (s : StmtId) (l : Location.t) : Prop :=
  exists functionName arguments op,
    RecordedStoreShape s functionName arguments /\
    operationsFromFunctionCall semantics rse functionName arguments = Ok [op] /\
    location op = l.

(** Active stores [a] that are all known stores of their location. *)
Definition ActiveWithin (all : gset StmtId) (a : ActiveStores) : Prop :=
  (forall s, s ∈ fst a -> s ∈ all /\ RecordedStore s Location.Memory) /\
  (forall s, s ∈ snd a -> s ∈ all /\ RecordedStore s Location.Storage).

(** A storage operation with a start has a length known to be 1. *)
Definition StorageWordSized (op : Operation) : Prop :=
  location op = Location.Storage -> is_Some (start op) ->
  hasLengthOne (knowledge knowledgeBase rse) (length op) = true.

(** Storage is indexed by words: an instruction's storage operation with
    a start parameter has the constant length 1, and the knowledge base
    knows the value of the constant [one]. *)
Definition StorageWordIndexed : Prop :=
  (forall i o, o ∈ SemanticInformation.readWriteOperations semantics i ->
     SemanticInformation.location o = Location.Storage ->
     is_Some (SemanticInformation.startParameter o) ->
     SemanticInformation.lengthConstant o = Some 1%nat) /\
  KnowledgeBase.valueIfKnownConstant (knowledge knowledgeBase rse) one = Some 1.

(** The invariant of the walk. *)
Record Invariant (σ : State) : Prop := {
  inv_all : forall s, s ∈ m_allStores σ -> exists l, RecordedStore s l;
  inv_active : ActiveWithin (m_allStores σ) (getActive σ);
  inv_used : m_usedStores σ ⊆ m_allStores σ;
  inv_operations : StorageWordIndexed ->
    forall s op, m_storeOperations σ !! s = Some op -> StorageWordSized op;
}.

(** What a part of the walk started in [σ] may end with: a state that
    meets the invariant again and has lost no store from [m_allStores] and
    [m_usedStores]; or an abort, which is not the one of [knownUnrelated]
    when storage is indexed by words. *)
Definition Outcome (σ : State) (r : Result State) : Prop :=
  match r with
  | Ok σ' =>
      Invariant σ' /\ m_allStores σ ⊆ m_allStores σ' /\ m_usedStores σ ⊆ m_usedStores σ'
  | Err e => StorageWordIndexed -> e <> StorageLengthNotOne
  end.

End Invariant.

(** The one shape of [returndatacopy] that may be removed:
    [returndatacopy(X, 0, returndatasize())], the start offset being an SSA
    variable known to be zero and the length an SSA variable whose value is
    a call of [returndatasize]. *)
Definition RemovableReturndatacopy
    (knowledgeBase : Dialect -> (YulString -> option AssignedValue) -> KnowledgeBase.t)
    (rse : UnusedStoreEliminator) (arguments : list Expression) : Prop :=
  exists startOffset length lengthName lengthArguments,
    arguments !! 1%nat = Some (Identifier startOffset) /\
    arguments !! 2%nat = Some (Identifier length) /\
    is_Some (m_ssaValues rse !! startOffset) /\
    KnowledgeBase.knownToBeZero (knowledge knowledgeBase rse) startOffset = true /\
    m_ssaValues rse !! length =
      Some (mkAssignedValue (FunctionCall lengthName lengthArguments)) /\
    toEVMInstruction (m_dialect rse) lengthName = Some RETURNDATASIZE.

Section Traversal.

Variable semantics : SemanticInformation.t.
Variable knowledgeBase : Dialect -> (YulString -> option AssignedValue) -> KnowledgeBase.t.
Variable merge : gset StmtId -> gset StmtId -> gset StmtId.
Variable rse : UnusedStoreEliminator.
Variable root : list Statement.

(** The visit of a statement found at [s] keeps the invariant. *)
Definition VisitKeeps (st : Statement) : Prop :=
  forall s σ, StmtAt root s st -> Invariant semantics knowledgeBase rse root σ ->
    Outcome semantics knowledgeBase rse root σ
      (visit semantics knowledgeBase merge rse s st σ).

End Traversal.

(** The join of the shared traversal yields no store that is in neither
    of its arguments. *)
Definition MergeWithin (merge : gset StmtId -> gset StmtId -> gset StmtId) : Prop :=
  forall a b s, s ∈ merge a b -> s ∈ a \/ s ∈ b.

(** ** The area of an operation *)

(** With the values [ρ] of the symbols, the operation may touch the byte
    (or storage slot) [x]: nothing tells that it does not.  An absent start
    leaves the position open, an absent length the extent; a length of
    zero touches nothing. *)
Definition MayTouch (ρ : YulString -> Z) (op : Operation) (x : Z) : Prop :=
  (forall l, length op = Some l -> ρ l <> 0) /\
  (forall s, start op = Some s -> ρ s <= x) /\
  (forall s l, start op = Some s -> length op = Some l -> x < ρ s + ρ l).

(** The operation is sure to touch [x]: its start and length are recorded
    and [x] lies in between. *)
Definition MustTouch (ρ : YulString -> Z) (op : Operation) (x : Z) : Prop :=
  exists s l, start op = Some s /\ length op = Some l /\ ρ s <= x < ρ s + ρ l.

(** The test of the loop of [applyOperation] on one active store, whose
    recorded operation is [storeOperation]: whether the store leaves the
    active set (a read that is not known to be unrelated, or a write that
    is known to cover it). *)
Definition leavesActive (kb : KnowledgeBase.t) (_operation storeOperation : Operation)
    : Result bool :=
  if bool_decide (effect _operation = Effect.Read) then
    unrelated ← knownUnrelated kb storeOperation _operation;
    Ok (negb unrelated)
  else
    Ok (bool_decide (effect _operation = Effect.Write) &&
        knownCovered kb storeOperation _operation).

(** ** An instance with a user-defined function

    The object of the step for code that calls a function [f], which is
    not a builtin, may write to memory and may read storage, and always
    continues. *)
Definition userFunctionEliminator : UnusedStoreEliminator :=
  mkUnusedStoreEliminator (EVMExample.dialect false)
    {[ "f" := SideEffects.mk Effect.Write Effect.Read ]}
    {[ "f" := mkControlFlowSideEffects false true ]}
    (runValues EVMExample.ssaValueTracker EVMExample.ssaStores)
    false.


(** ** Stores before the end of the execution

    [let k := 0  let v := 1  mstore(k, v)  sstore(k, v)  stop()]. *)
Definition storesBeforeStop : list Statement :=
  [EVMExample.letVar "k" (EVMExample.number "0");
   EVMExample.letVar "v" (EVMExample.number "1");
   EVMExample.call "mstore" [Identifier "k"; Identifier "v"];
   EVMExample.call "sstore" [Identifier "k"; Identifier "v"];
   EVMExample.call "stop" []].

(** The state of the walk over [storesBeforeStop] before its last
    statement: the two stores are active and nothing is used. *)
Definition beforeStop : Result State :=
  walkVector (visit EVMExample.semantics EVMExample.knowledgeBase EVMExample.merge
                    (EVMExample.eliminator false storesBeforeStop))
             [] 0 (take 4 storesBeforeStop) initialState.


(** * Theorems *)

(** ** The alias predicates *)

Ltac split_bools :=
  repeat match goal with
  | H : _ && _ = true |- _ => apply andb_prop in H as [? ?]
  | H : _ || _ = true |- _ => apply orb_prop in H as [? | ?]
  | H : bool_decide _ = true |- _ => apply bool_decide_eq_true_1 in H
  | H : Some _ = Some _ |- _ => injection H as H; subst
  | H : is_Some None |- _ => destruct H as [? ?]; discriminate
  | H : true = false |- _ => discriminate
  | H : false = true |- _ => discriminate
  end.

Section AliasFacts.

Variable kb : KnowledgeBase.t.

Lemma u256_add_no_overflow a b :
  is_u256 a -> is_u256 b -> u256_add a b >= a -> u256_add a b = a + b.
Proof.
  unfold is_u256, u256_add, u256_modulus. intros Ha Hb Hge.
  destruct (Z_lt_ge_dec (a + b) (2 ^ 256)) as [Hlt | Hov].
  - apply Z.mod_small. lia.
  - exfalso.
    assert (Heq : (a + b) mod 2 ^ 256 = a + b - 2 ^ 256).
    { symmetry. apply Z.mod_unique with (q := 1); lia. }
    lia.
Qed.

Lemma endsBefore_spec s1 l1 s2 :
  is_u256 s1 -> is_u256 l1 -> endsBefore s1 l1 s2 = true -> s1 + l1 <= s2.
Proof.
  unfold endsBefore. intros Hs Hl H.
  apply andb_prop in H as [H1 H2].
  apply bool_decide_eq_true_1 in H1. apply bool_decide_eq_true_1 in H2.
  rewrite (u256_add_no_overflow _ _ Hs Hl H1) in H2. exact H2.
Qed.

(** C5 (as amended): an operation whose start and length are both
    recorded covers itself. *)
Theorem knownCovered_refl_known (a : Operation) :
  is_Some (start a) -> is_Some (length a) -> knownCovered kb a a = true.
Proof.
  intros Hs Hl. unfold knownCovered.
  rewrite (bool_decide_eq_true_2 (location a = location a) eq_refl). simpl.
  rewrite (bool_decide_eq_true_2 _ Hs), (bool_decide_eq_true_2 _ Hl).
  rewrite (bool_decide_eq_true_2 (start a = start a) eq_refl).
  rewrite (bool_decide_eq_true_2 (length a = length a) eq_refl).
  reflexivity.
Qed.

(** Without a start on one side, two storage operations are not known to
    be unrelated. *)
Lemma knownUnrelated_storage_unknown_start (a b : Operation) :
  location a = Location.Storage -> location b = Location.Storage ->
  start a = None \/ start b = None ->
  knownUnrelated kb a b = Ok false.
Proof.
  intros Ha Hb Hstart. unfold knownUnrelated.
  rewrite Ha, Hb. simpl.
  destruct Hstart as [-> | ->]; [reflexivity |].
  destruct (start a); reflexivity.
Qed.

Lemma sub_mod_small x y :
  0 <= x - y < 32 -> ~ (32 <= (x - y) mod u256_modulus <= u256_modulus - 32).
Proof.
  unfold u256_modulus. intros H. rewrite Z.mod_small; lia.
Qed.

(** C6 (as amended): with a knowledge base whose answers are sound, an
    operation [a] that is known to be covered by [b] is not known to be
    unrelated to [b], unless the length of [a] is zero. *)
Theorem knownCovered_excludes_knownUnrelated (ρ : YulString -> Z) (a b : Operation) :
  KnowledgeSound ρ kb ->
  knownCovered kb a b = true ->
  (forall l, length a = Some l -> ρ l <> 0) ->
  knownUnrelated kb a b <> Ok true.
Proof.
  intros Hs Hc Hnz Hu.
  destruct a as [la ea sa lena], b as [lb eb sb lenb].
  unfold knownCovered, knownUnrelated in *; simpl in *.
  destruct (decide (la = lb)) as [-> | Hne].
  2: { rewrite (bool_decide_eq_false_2 _ Hne) in Hc. discriminate. }
  rewrite (bool_decide_eq_true_2 (lb = lb) eq_refl) in *. simpl in *.
  destruct lb.
  - (* storage: only syntactic equality covers *)
    destruct sa as [s1|], sb as [s2|]; simpl in *; try discriminate.
    destruct (bool_decide (Some s1 = Some s2) && _) eqn:Hsyn; [| discriminate].
    split_bools.
    destruct (hasLengthOne kb _ && hasLengthOne kb _); simpl in Hu; [| discriminate].
    injection Hu as Hu. apply (sound_different _ _ Hs) in Hu. congruence.
  - (* memory *)
    assert (Hcases :
      exists s1 l1 s2 l2, sa = Some s1 /\ lena = Some l1 /\ sb = Some s2 /\ lenb = Some l2 /\
        ((ρ s1 = ρ s2 /\ ρ l1 <= ρ l2) \/
         (ρ s2 <= ρ s1 /\ ρ s1 + ρ l1 <= ρ s2 + ρ l2))).
    { destruct (_ && _) eqn:Hsyn in Hc.
      - split_bools.
        destruct sa as [s1|]; [| split_bools].
        destruct lena as [l1|]; [| split_bools].
        exists s1, l1, s1, l1. repeat split; try congruence. left. lia.
      - destruct (isKnownZero kb lena) eqn:Hz.
        { destruct lena as [l1|]; [| discriminate]. simpl in Hz.
          apply (sound_zero _ _ Hs) in Hz. exfalso. eapply Hnz; eauto. }
        destruct sa as [s1|], sb as [s2|], lena as [l1|], lenb as [l2|]; try discriminate.
        exists s1, l1, s2, l2. repeat split.
        destruct (KnowledgeBase.valueIfKnownConstant kb l1) as [a|] eqn:Ha;
        destruct (KnowledgeBase.valueIfKnownConstant kb l2) as [b|] eqn:Hb;
        rewrite ?andb_false_r in Hc; simpl in Hc;
        try (repeat destruct (KnowledgeBase.valueIfKnownConstant kb _); discriminate).
        apply (sound_constant _ _ Hs) in Ha, Hb. subst a b.
        destruct (KnowledgeBase.knownToBeEqual kb s1 s2 && _) eqn:Heq.
        + split_bools. left. split; [by apply (sound_equal _ _ Hs) | done].
        + destruct (KnowledgeBase.valueIfKnownConstant kb s1) as [x|] eqn:Hx; [| discriminate].
          destruct (KnowledgeBase.valueIfKnownConstant kb s2) as [y|] eqn:Hy; [| discriminate].
          apply (sound_constant _ _ Hs) in Hx, Hy. subst x y.
          unfold rangeInside in Hc. split_bools.
          pose proof (sound_range _ _ Hs s1). pose proof (sound_range _ _ Hs s2).
          pose proof (sound_range _ _ Hs l1). pose proof (sound_range _ _ Hs l2).
          match goal with
          | H1 : u256_add (ρ s2) (ρ l2) >= _, H2 : u256_add (ρ s1) (ρ l1) >= _ |- _ =>
              rewrite (u256_add_no_overflow (ρ s2) (ρ l2)) in * by assumption;
              rewrite (u256_add_no_overflow (ρ s1) (ρ l1)) in * by assumption
          end.
          right. lia. }
    clear Hc. destruct Hcases as (s1 & l1 & s2 & l2 & -> & -> & -> & -> & Hgeo).
    pose proof (sound_range _ _ Hs s1) as Hrs1. pose proof (sound_range _ _ Hs s2) as Hrs2.
    pose proof (sound_range _ _ Hs l1) as Hrl1. pose proof (sound_range _ _ Hs l2) as Hrl2.
    unfold is_u256 in *.
    assert (Hl1 : ρ l1 <> 0) by (apply Hnz; reflexivity).
    simpl in Hu.
    destruct (KnowledgeBase.knownToBeZero kb l1) eqn:Hz1.
    { apply (sound_zero _ _ Hs) in Hz1. lia. }
    destruct (KnowledgeBase.knownToBeZero kb l2) eqn:Hz2.
    { apply (sound_zero _ _ Hs) in Hz2. lia. }
    simpl in Hu.
    destruct (knownBefore kb _ _) eqn:Hb1 in Hu.
    { unfold knownBefore in Hb1. simpl in Hb1.
      destruct (KnowledgeBase.valueIfKnownConstant kb l1) as [x|] eqn:Hx; [| discriminate].
      destruct (KnowledgeBase.valueIfKnownConstant kb s1) as [y|] eqn:Hy; [| discriminate].
      destruct (KnowledgeBase.valueIfKnownConstant kb s2) as [z|] eqn:Hz; [| discriminate].
      apply (sound_constant _ _ Hs) in Hx, Hy, Hz. subst.
      apply endsBefore_spec in Hb1; unfold is_u256; lia. }
    destruct (knownBefore kb _ _) eqn:Hb2 in Hu.
    { unfold knownBefore in Hb2. simpl in Hb2.
      destruct (KnowledgeBase.valueIfKnownConstant kb l2) as [x|] eqn:Hx; [| discriminate].
      destruct (KnowledgeBase.valueIfKnownConstant kb s2) as [y|] eqn:Hy; [| discriminate].
      destruct (KnowledgeBase.valueIfKnownConstant kb s1) as [z|] eqn:Hz; [| discriminate].
      apply (sound_constant _ _ Hs) in Hx, Hy, Hz. subst.
      apply endsBefore_spec in Hb2; unfold is_u256; lia. }
    destruct (knownWordsApart kb _ _) eqn:Hw in Hu; [| discriminate].
    unfold knownWordsApart in Hw. simpl in Hw.
    destruct (KnowledgeBase.valueIfKnownConstant kb l1) as [x|] eqn:Hx; [| discriminate].
    destruct (KnowledgeBase.valueIfKnownConstant kb l2) as [y|] eqn:Hy; [| discriminate].
    apply (sound_constant _ _ Hs) in Hx, Hy. subst.
    split_bools.
    match goal with
    | H : KnowledgeBase.knownToBeDifferentByAtLeast32 kb s1 s2 = true |- _ =>
        apply (sound_different32 _ _ Hs) in H; revert H
    end.
    apply sub_mod_small. lia.
Qed.

End AliasFacts.

(** ** Induction over the AST *)

Lemma Expression_nested_ind (P : Expression -> Prop) :
  (forall functionName arguments, Forall P arguments -> P (FunctionCall functionName arguments)) ->
  (forall name, P (Identifier name)) ->
  (forall kind value, P (Literal kind value)) ->
  forall e, P e.
Proof.
  intros Hcall Hid Hlit. fix IH 1. intros [functionName arguments | name | kind value].
  - apply Hcall. induction arguments as [| a l IHl]; constructor; [apply IH | exact IHl].
  - apply Hid.
  - apply Hlit.
Qed.

Lemma Statement_nested_ind (P : Statement -> Prop) :
  (forall e, P (ExpressionStatement e)) ->
  (forall xs v, P (VariableDeclaration xs v)) ->
  (forall xs e, P (Assignment xs e)) ->
  (forall b, Forall P b -> P (Block b)) ->
  (forall c b, Forall P b -> P (If c b)) ->
  (forall e cs, Forall (fun c => Forall P (snd c)) cs -> P (Switch e cs)) ->
  (forall pre c post body,
     Forall P pre -> Forall P post -> Forall P body -> P (ForLoop pre c post body)) ->
  (forall n ps rs b, Forall P b -> P (FunctionDefinition n ps rs b)) ->
  P Leave ->
  forall st, P st.
Proof.
  intros He Hv Ha Hb Hi Hs Hf Hd Hl. fix IH 1.
  assert (Hblock : forall b : list Statement, Forall P b).
  { intros b. induction b as [| st b IHb]; constructor; [apply IH | exact IHb]. }
  intros [e | xs v | xs e | b | c b | e cs | pre c post body | n ps rs b |].
  - apply He.
  - apply Hv.
  - apply Ha.
  - apply Hb, Hblock.
  - apply Hi, Hblock.
  - apply Hs. induction cs as [| c cs IHcs]; constructor; [apply Hblock | exact IHcs].
  - apply Hf; apply Hblock.
  - apply Hd, Hblock.
  - apply Hl.
Qed.

(** ** The invariant is kept by every part of the walk *)

Section InvariantFacts.

Variable semantics : SemanticInformation.t.
Variable knowledgeBase : Dialect -> (YulString -> option AssignedValue) -> KnowledgeBase.t.
Variable rse : UnusedStoreEliminator.
Variable root : list Statement.

Abbreviation Inv := (Invariant semantics knowledgeBase rse root).
Abbreviation Out := (Outcome semantics knowledgeBase rse root).
Abbreviation Within := (ActiveWithin semantics knowledgeBase rse root).
Abbreviation WordIndexed := (StorageWordIndexed semantics knowledgeBase rse).
Abbreviation WordSized := (StorageWordSized knowledgeBase rse).

Lemma Outcome_refl σ : Inv σ -> Out σ (Ok σ).
Proof. intros H. simpl. auto. Qed.

Lemma Outcome_bind σ (m : Result State) (k : State -> Result State) :
  Out σ m ->
  (forall σ1, m = Ok σ1 -> Inv σ1 -> Out σ1 (k σ1)) ->
  Out σ (m ≫= k).
Proof.
  intros Hm Hk. destruct m as [σ1 | e]; simpl in *; [| exact Hm].
  destruct Hm as (Hinv & Hall & Hused).
  specialize (Hk σ1 eq_refl Hinv).
  destruct (k σ1) as [σ2 | e]; simpl in *; [| exact Hk].
  destruct Hk as (Hinv2 & Hall2 & Hused2).
  split; [exact Hinv2 | split; set_solver].
Qed.

Lemma ActiveWithin_mono all all' a :
  all ⊆ all' -> Within all a -> Within all' a.
Proof.
  intros Hsub [Hm Hs]. split; intros s Hin.
  - destruct (Hm s Hin). split; [auto | assumption].
  - destruct (Hs s Hin). split; [auto | assumption].
Qed.

Lemma ActiveWithin_empty all : Within all (∅, ∅).
Proof. split; intros s Hin; simpl in Hin; set_solver. Qed.

Lemma Invariant_setActive σ a :
  Inv σ -> Within (m_allStores σ) a -> Inv (setActive a σ).
Proof.
  intros [H1 H2 H3 H4] Ha. split; simpl; assumption.
Qed.

Lemma Invariant_setStoreOperations σ ops :
  Inv σ ->
  (WordIndexed -> forall s op, ops !! s = Some op -> WordSized op) ->
  Inv (setStoreOperations ops σ).
Proof. intros [H1 H2 H3 H4] Hops. split; simpl; assumption. Qed.

(** A state with the same known stores and operations, whose active
    sets have only shrunk and whose used stores are known stores, still
    meets the invariant. *)
Lemma Invariant_shrink σ σ' :
  Inv σ ->
  m_allStores σ' = m_allStores σ ->
  m_usedStores σ' ⊆ m_allStores σ ->
  activeMemoryStores σ' ⊆ activeMemoryStores σ ->
  activeStorageStores σ' ⊆ activeStorageStores σ ->
  m_storeOperations σ' = m_storeOperations σ ->
  Inv σ'.
Proof.
  intros [H1 [Hm Hs] H3 H4] Ea Hu Hma Hsa Eo. split.
  - rewrite Ea. exact H1.
  - rewrite Ea. split; intros s Hin; simpl in *; [apply Hm | apply Hs]; auto.
  - rewrite Ea. exact Hu.
  - rewrite Eo. exact H4.
Qed.

Lemma clearActive_fields l σ :
  m_allStores (clearActive l σ) = m_allStores σ /\
  m_usedStores (clearActive l σ) = m_usedStores σ /\
  m_storeOperations (clearActive l σ) = m_storeOperations σ /\
  activeMemoryStores (clearActive l σ) =
    (if concerns l Location.Memory then ∅ else activeMemoryStores σ) /\
  activeStorageStores (clearActive l σ) =
    (if concerns l Location.Storage then ∅ else activeStorageStores σ).
Proof.
  unfold clearActive.
  destruct (concerns l Location.Memory), (concerns l Location.Storage); auto.
Qed.

Lemma markActiveAsUsed_fields l σ :
  m_allStores (markActiveAsUsed l σ) = m_allStores σ /\
  m_usedStores (markActiveAsUsed l σ) =
    (m_usedStores σ ∪ (if concerns l Location.Memory then activeMemoryStores σ else ∅))
    ∪ (if concerns l Location.Storage then activeStorageStores σ else ∅) /\
  m_storeOperations (markActiveAsUsed l σ) = m_storeOperations σ /\
  activeMemoryStores (markActiveAsUsed l σ) =
    (if concerns l Location.Memory then ∅ else activeMemoryStores σ) /\
  activeStorageStores (markActiveAsUsed l σ) =
    (if concerns l Location.Storage then ∅ else activeStorageStores σ).
Proof.
  unfold markActiveAsUsed, clearActive.
  destruct (concerns l Location.Memory), (concerns l Location.Storage); simpl;
    repeat split; try reflexivity; set_solver.
Qed.

Lemma if_empty_subseteq (c : bool) (a : gset StmtId) : (if c then ∅ else a) ⊆ a.
Proof. destruct c; set_solver. Qed.

Lemma Invariant_clearActive l σ : Inv σ -> Inv (clearActive l σ).
Proof.
  intros H. destruct (clearActive_fields l σ) as (Ea & Eu & Eo & Em & Es).
  apply (Invariant_shrink σ); try assumption.
  - rewrite Eu. exact (inv_used _ _ _ _ _ H).
  - rewrite Em. apply if_empty_subseteq.
  - rewrite Es. apply if_empty_subseteq.
Qed.

Lemma used_union_within (all used m s : gset StmtId) (c1 c2 : bool) :
  used ⊆ all -> m ⊆ all -> s ⊆ all ->
  (used ∪ (if c1 then m else ∅)) ∪ (if c2 then s else ∅) ⊆ all.
Proof. destruct c1, c2; set_solver. Qed.

Lemma Invariant_active_subseteq σ :
  Inv σ -> activeMemoryStores σ ⊆ m_allStores σ /\ activeStorageStores σ ⊆ m_allStores σ.
Proof.
  intros H. destruct (inv_active _ _ _ _ _ H) as [Hm Hs]. simpl in *.
  split; intros s Hin; [apply Hm | apply Hs]; exact Hin.
Qed.

Lemma markActiveAsUsed_outcome l σ : Inv σ -> Out σ (Ok (markActiveAsUsed l σ)).
Proof.
  intros H. destruct (markActiveAsUsed_fields l σ) as (Ea & Eu & Eo & Em & Es).
  destruct (Invariant_active_subseteq σ H) as [Hma Hsa].
  pose proof (inv_used _ _ _ _ _ H) as Hu.
  simpl. split; [| split].
  - apply (Invariant_shrink σ); try assumption.
    + rewrite Eu. apply used_union_within; assumption.
    + rewrite Em. apply if_empty_subseteq.
    + rewrite Es. apply if_empty_subseteq.
  - rewrite Ea. reflexivity.
  - rewrite Eu. clear. set_solver.
Qed.

Lemma clearActive_outcome l σ : Inv σ -> Out σ (Ok (clearActive l σ)).
Proof.
  intros H. destruct (clearActive_fields l σ) as (Ea & Eu & _).
  simpl. split; [apply Invariant_clearActive; exact H | rewrite Ea, Eu; split; reflexivity].
Qed.

Lemma Outcome_trans σ σ1 (r : Result State) :
  Out σ (Ok σ1) -> Out σ1 r -> Out σ r.
Proof.
  intros H1 H2. apply (Outcome_bind σ (Ok σ1) (fun _ => r)); [exact H1 |].
  intros σ0 [= <-] _. exact H2.
Qed.

Lemma forEach_outcome {A : Type} (P : A -> Prop) (f : A -> State -> Result State) l :
  (forall a σ, P a -> Inv σ -> Out σ (f a σ)) ->
  Forall P l -> forall σ, Inv σ -> Out σ (forEach f l σ).
Proof.
  intros Hf Hl. induction Hl as [| a l Ha Hl IH]; intros σ Hσ; simpl.
  - apply Outcome_refl, Hσ.
  - apply Outcome_bind; [apply Hf; assumption |].
    intros σ1 _ Hσ1. apply IH, Hσ1.
Qed.

(** [knownUnrelated] only aborts on its own assertion, and not on
    operations whose storage lengths are known to be 1. *)
Lemma knownUnrelated_word_sized (a b : Operation) :
  WordSized a -> WordSized b ->
  exists r, knownUnrelated (knowledge knowledgeBase rse) a b = Ok r.
Proof.
  intros Ha Hb. unfold knownUnrelated.
  destruct (negb (bool_decide (location a = location b))) eqn:Hloc; [eauto |].
  apply negb_false_iff, bool_decide_eq_true_1 in Hloc.
  destruct (location a) eqn:Hla.
  - destruct (start a) as [s1 |] eqn:Hsa; [| eauto].
    destruct (start b) as [s2 |] eqn:Hsb; [| eauto].
    rewrite Ha by (rewrite ?Hsa; eauto).
    rewrite Hb by (rewrite ?Hsb; eauto). simpl. eauto.
  - repeat case_match; eauto.
Qed.

Lemma applyOperationTo_spec _operation ops statement acc :
  match applyOperationTo knowledgeBase rse _operation ops statement acc with
  | Ok acc' => fst acc ⊆ fst acc' /\ fst acc' ⊆ fst acc ∪ {[statement]}
  | Err e =>
      (forall s o, ops !! s = Some o -> WordSized o) -> WordSized _operation ->
      e <> StorageLengthNotOne
  end.
Proof.
  unfold applyOperationTo, map_at.
  destruct (ops !! statement) as [storeOperation |] eqn:Hlook; simpl; [| discriminate].
  destruct (bool_decide (effect _operation = Effect.Read)).
  - destruct (knownUnrelated _ storeOperation _operation) as [u | e] eqn:Hu; simpl.
    + destruct u; simpl; split; set_solver.
    + intros Hops Hop.
      destruct (knownUnrelated_word_sized storeOperation _operation) as [r Hr];
        [eapply Hops; eassumption | exact Hop | congruence].
  - destruct (_ && _); simpl; split; set_solver.
Qed.

Lemma forEach_applyOperationTo _operation ops l : forall acc,
  match forEach (applyOperationTo knowledgeBase rse _operation ops) l acc with
  | Ok acc' => fst acc ⊆ fst acc' /\ fst acc' ⊆ fst acc ∪ list_to_set l
  | Err e =>
      (forall s o, ops !! s = Some o -> WordSized o) -> WordSized _operation ->
      e <> StorageLengthNotOne
  end.
Proof.
  induction l as [| s l IH]; intros acc; simpl.
  - split; set_solver.
  - pose proof (applyOperationTo_spec _operation ops s acc) as Hs.
    destruct (applyOperationTo _ _ _ _ s acc) as [acc1 | e]; simpl; [| exact Hs].
    specialize (IH acc1).
    destruct (forEach _ l acc1) as [acc2 | e]; [| exact IH].
    destruct Hs, IH. split; set_solver.
Qed.

Lemma applyOperation_outcome _operation σ :
  Inv σ -> (WordIndexed -> WordSized _operation) ->
  Out σ (applyOperation knowledgeBase rse _operation σ).
Proof.
  intros Hσ Hop. unfold applyOperation.
  pose proof (forEach_applyOperationTo _operation (m_storeOperations σ)
    (elements (activeStores (location _operation) σ)) (m_usedStores σ, ∅)) as Hr.
  destruct (forEach _ _ _) as [r | e]; simpl in *.
  - destruct Hr as [Hr1 Hr2]. rewrite list_to_set_elements_L in Hr2.
    destruct (Invariant_active_subseteq σ Hσ) as [Hma Hsa].
    pose proof (inv_used _ _ _ _ _ Hσ) as Hu.
    assert (Hact : activeStores (location _operation) σ ⊆ m_allStores σ)
      by (destruct (location _operation); assumption).
    split; [| split].
    + apply (Invariant_shrink σ); try assumption.
      * destruct (location _operation); reflexivity.
      * assert (E : m_usedStores (setActiveStores (location _operation)
            (activeStores (location _operation) σ ∖ r.2) (setUsedStores r.1 σ)) = r.1)
          by (destruct (location _operation); reflexivity).
        rewrite E. clear -Hr2 Hu Hact. set_solver.
      * destruct (location _operation); simpl; [reflexivity | clear; set_solver].
      * destruct (location _operation); simpl; [clear; set_solver | reflexivity].
      * destruct (location _operation); reflexivity.
    + destruct (location _operation); reflexivity.
    + destruct (location _operation); exact Hr1.
  - intros Hw. apply Hr; [| auto]. exact (inv_operations _ _ _ _ _ Hσ Hw).
Qed.

Lemma vector_at_error {A : Type} (v : list A) i e :
  vector_at v i = Err e -> e = OutOfRange.
Proof. unfold vector_at. destruct (v !! i); congruence. Qed.

Lemma map_at_error {K V : Type} `{Countable K} (m : gmap K V) k e :
  map_at m k = Err e -> e = OutOfRange.
Proof. unfold map_at. destruct (m !! k); congruence. Qed.

Lemma yulAssert_ok site b : yulAssert site b = Ok tt -> b = true.
Proof. destruct b; [reflexivity | discriminate]. Qed.

Lemma lengthOfConstant_spec c :
  match lengthOfConstant c with
  | Ok l => c = 1%nat -> l = one
  | Err e => e <> StorageLengthNotOne
  end.
Proof.
  do 33 (destruct c as [| c]; [simpl; first [discriminate | reflexivity] |]).
  simpl. discriminate.
Qed.

(** What [operationFromSemantics] keeps of the instruction's operation. *)
Lemma operationFromSemantics_spec arguments _op :
  match operationFromSemantics rse arguments _op with
  | Ok op =>
      location op = SemanticInformation.location _op /\
      effect op = SemanticInformation.effect _op /\
      (is_Some (start op) -> is_Some (SemanticInformation.startParameter _op)) /\
      (SemanticInformation.lengthConstant _op = Some 1%nat -> length op = Some one)
  | Err e => e <> StorageLengthNotOne
  end.
Proof.
  unfold operationFromSemantics.
  destruct (yulAssert LengthParameterAndConstant _) as [[] |] eqn:H1; simpl;
    [| unfold yulAssert in H1; case_match; congruence].
  destruct (yulAssert EffectIsNone _) as [[] |] eqn:H2; simpl;
    [| unfold yulAssert in H2; case_match; congruence].
  assert (Hstart : match
      match SemanticInformation.startParameter _op with
      | Some i => a ← vector_at arguments i; Ok (identifierNameIfSSA rse a)
      | None => Ok None
      end with
    | Ok st => is_Some st -> is_Some (SemanticInformation.startParameter _op)
    | Err e => e = OutOfRange
    end).
  { destruct (SemanticInformation.startParameter _op) as [i |]; simpl.
    - destruct (vector_at arguments i) eqn:Ha; simpl;
        [intros _; eexists; reflexivity |].
      eapply vector_at_error; eassumption.
    - intros [? Hn]; discriminate. }
  destruct (match SemanticInformation.startParameter _op with
            | Some i => _ | None => _ end) as [ourStart | e]; simpl; [| congruence].
  assert (Hlen : match
      match SemanticInformation.lengthParameter _op with
      | Some i => a ← vector_at arguments i; Ok (identifierNameIfSSA rse a)
      | None => Ok None
      end with
    | Ok _ => True
    | Err e => e = OutOfRange
    end).
  { destruct (SemanticInformation.lengthParameter _op) as [i |]; simpl; [| exact I].
    destruct (vector_at arguments i) eqn:Ha; simpl; [exact I |].
    eapply vector_at_error; eassumption. }
  destruct (match SemanticInformation.lengthParameter _op with
            | Some i => _ | None => _ end) as [ourLength | e]; simpl; [| congruence].
  destruct (SemanticInformation.lengthConstant _op) as [c |]; simpl.
  - pose proof (lengthOfConstant_spec c) as Hc.
    destruct (lengthOfConstant c) as [l | e]; simpl; [| exact Hc].
    repeat split; try assumption. intros [= ->]. rewrite Hc; reflexivity.
  - repeat split; try assumption. discriminate.
Qed.

Lemma mapM_operationFromSemantics arguments l :
  match mapM (operationFromSemantics rse arguments) l with
  | Ok ops =>
      Forall2 (fun op _op =>
        location op = SemanticInformation.location _op /\
        effect op = SemanticInformation.effect _op /\
        (is_Some (start op) -> is_Some (SemanticInformation.startParameter _op)) /\
        (SemanticInformation.lengthConstant _op = Some 1%nat -> length op = Some one))
        ops l
  | Err e => e <> StorageLengthNotOne
  end.
Proof.
  induction l as [| o l IH]; simpl; [constructor |].
  pose proof (operationFromSemantics_spec arguments o) as Ho.
  destruct (operationFromSemantics rse arguments o) as [op | e]; simpl; [| exact Ho].
  destruct (mapM _ l) as [ops | e]; simpl; [| exact IH].
  constructor; assumption.
Qed.

(** The operations of a call: when storage is indexed by words, each has a
    storage length known to be 1; computing them never trips the assertion of
    [knownUnrelated]. *)
Lemma operationsFromFunctionCall_spec functionName arguments :
  match operationsFromFunctionCall semantics rse functionName arguments with
  | Ok ops => WordIndexed -> Forall WordSized ops
  | Err e => e <> StorageLengthNotOne
  end.
Proof.
  unfold operationsFromFunctionCall.
  destruct (match builtin (m_dialect rse) functionName with
            | Some f => _ | None => _ end) as [se | e] eqn:Hse; simpl.
  2: { destruct (builtin (m_dialect rse) functionName); [discriminate |].
       apply map_at_error in Hse. congruence. }
  destruct (toEVMInstruction (m_dialect rse) functionName) as [i |].
  - pose proof (mapM_operationFromSemantics arguments
      (SemanticInformation.readWriteOperations semantics i)) as Hm.
    destruct (mapM _ _) as [ops | e]; [| exact Hm].
    intros [Htable Hone].
    assert (Hin : Forall (fun o => o ∈ SemanticInformation.readWriteOperations semantics i)
                    (SemanticInformation.readWriteOperations semantics i))
      by (apply Forall_forall; auto).
    revert Hm Hin. generalize (SemanticInformation.readWriteOperations semantics i) at 1 3.
    intros l Hm. induction Hm as [| op o ops l (Hl & He & Hs & Hc) Hm IH]; intros Hin.
    + constructor.
    + inversion Hin; subst. constructor; [| auto].
      intros Hloc Hst. rewrite Hc.
      * simpl. rewrite Hone. apply bool_decide_eq_true_2. reflexivity.
      * apply (Htable i o); [assumption | congruence | auto].
  - intros _.
    repeat case_bool_decide; repeat constructor; intros _ [? Hsome]; discriminate.
Qed.
(*END*)

Lemma applyControlFlow_outcome sideEffects σ :
  Inv σ -> Out σ (Ok (applyControlFlow sideEffects σ)).
Proof.
  intros Hσ. unfold applyControlFlow.
  assert (H1 : Out σ (Ok (if canTerminate sideEffects
                          then markActiveAsUsed (Some Location.Storage) σ else σ))).
  { destruct (canTerminate sideEffects);
      [apply markActiveAsUsed_outcome | apply Outcome_refl]; exact Hσ. }
  destruct (negb (canContinue sideEffects)); [| exact H1].
  eapply Outcome_trans; [exact H1 |].
  assert (H2 : Out (if canTerminate sideEffects
                    then markActiveAsUsed (Some Location.Storage) σ else σ)
      (Ok (clearActive (Some Location.Memory)
             (if canTerminate sideEffects
              then markActiveAsUsed (Some Location.Storage) σ else σ)))).
  { apply clearActive_outcome. apply H1. }
  destruct (negb (canTerminate sideEffects)); [| exact H2].
  eapply Outcome_trans; [exact H2 |].
  apply clearActive_outcome. apply H2.
Qed.

Lemma operator_FunctionCall_outcome walkArguments functionName arguments σ :
  Out σ (walkArguments σ) ->
  Out σ (operator_FunctionCall semantics knowledgeBase rse walkArguments
           functionName arguments σ).
Proof.
  intros Hwalk. unfold operator_FunctionCall.
  apply Outcome_bind; [exact Hwalk |]. intros σ0 _ Hσ0.
  pose proof (operationsFromFunctionCall_spec functionName arguments) as Hops.
  destruct (operationsFromFunctionCall _ _ _ _) as [ops | e]; simpl;
    [| intros _; exact Hops].
  apply Outcome_bind.
  - apply (forEach_outcome (fun op => WordIndexed -> WordSized op)).
    + intros op σ1 Hop Hσ1. apply applyOperation_outcome; assumption.
    + apply Forall_forall. intros op Hin Hw.
      specialize (Hops Hw). rewrite Forall_forall in Hops. auto.
    + exact Hσ0.
  - intros σ1 _ Hσ1.
    destruct (calleeControlFlow rse functionName) as [se | e] eqn:Hse; simpl.
    + apply applyControlFlow_outcome, Hσ1.
    + intros _. unfold calleeControlFlow in Hse.
      destruct (builtin (m_dialect rse) functionName); [discriminate |].
      apply map_at_error in Hse. congruence.
Qed.

Lemma visitExpression_outcome e : forall σ,
  Inv σ -> Out σ (visitExpression semantics knowledgeBase rse e σ).
Proof.
  induction e as [functionName arguments IH | name | kind value]
    using Expression_nested_ind; intros σ Hσ; simpl;
    [| apply Outcome_refl, Hσ | apply Outcome_refl, Hσ].
  apply operator_FunctionCall_outcome.
  revert σ Hσ. induction IH as [| a l Ha Hl IHl]; intros σ Hσ.
  - apply Outcome_refl, Hσ.
  - apply Outcome_bind; [apply IHl, Hσ |].
    intros σ1 _ Hσ1. apply Ha, Hσ1.
Qed.

Lemma allowReturndatacopyToBeRemoved_error arguments e :
  allowReturndatacopyToBeRemoved knowledgeBase rse arguments = Err e -> e = OutOfRange.
Proof.
  unfold allowReturndatacopyToBeRemoved.
  destruct (vector_at arguments 1) as [a1 | e1] eqn:H1; simpl;
    [| intros [= <-]; eapply vector_at_error; eassumption].
  destruct (vector_at arguments 2) as [a2 | e2] eqn:H2; simpl;
    [| intros [= <-]; eapply vector_at_error; eassumption].
  destruct (identifierNameIfSSA rse a2) as [len |]; [| discriminate].
  destruct (identifierNameIfSSA rse a1) as [st |]; [| discriminate].
  destruct (map_at (m_ssaValues rse) len) as [v | e3] eqn:H3; simpl; [discriminate |].
  intros [= <-]. eapply map_at_error; eassumption.
Qed.

(** Recording a store keeps the invariant: the statement is a known store
    of the location of its operation. *)
Lemma recordStore_outcome s functionName arguments σ :
  RecordedStoreShape knowledgeBase rse root s functionName arguments ->
  Inv σ ->
  Out σ (recordStore semantics rse s functionName arguments σ).
Proof.
  intros Hshape Hσ. unfold recordStore.
  pose proof (operationsFromFunctionCall_spec functionName arguments) as Hops.
  destruct (operationsFromFunctionCall _ _ _ _) as [ops | e] eqn:Eops; simpl;
    [| intros _; exact Hops].
  destruct ops as [| op [| op' ops]]; simpl; try (intros _; discriminate).
  assert (Hrec : RecordedStore semantics knowledgeBase rse root s (location op)).
  {
    exists functionName, arguments, op. auto. }
  destruct Hσ as [Hall [Hm Hs] Hused Hoper]. simpl in Hm, Hs.
  split; [split | split]; simpl.
  - intros s0 Hin. destruct (location op); simpl in Hin;
      apply elem_of_union in Hin as [Hin | Hin]; eauto;
      apply elem_of_singleton in Hin; subst; eauto.
  - split; intros s0 Hin; destruct (location op) eqn:Hl; simpl in *.
    + destruct (Hm s0 Hin). split; [apply elem_of_union; auto | assumption].
    + apply elem_of_union in Hin as [Hin | Hin].
      * apply elem_of_singleton in Hin; subst. split; [apply elem_of_union_l, elem_of_singleton; reflexivity | assumption].
      * destruct (Hm s0 Hin). split; [apply elem_of_union; auto | assumption].
    + apply elem_of_union in Hin as [Hin | Hin].
      * apply elem_of_singleton in Hin; subst. split; [apply elem_of_union_l, elem_of_singleton; reflexivity | assumption].
      * destruct (Hs s0 Hin). split; [apply elem_of_union; auto | assumption].
    + destruct (Hs s0 Hin). split; [apply elem_of_union; auto | assumption].
  - destruct (location op); simpl; intros s0 Hin; apply elem_of_union; auto.
  - intros Hw s0 op0. destruct (location op) eqn:Hl; simpl;
      (destruct (decide (s = s0)) as [-> | Hne];
       [rewrite lookup_insert_eq; intros [= <-];
        specialize (Hops Hw); inversion Hops; assumption
       | rewrite lookup_insert_ne by assumption; apply Hoper, Hw]).
  - destruct (location op); simpl; intros s0 Hin; apply elem_of_union; auto.
  - destruct (location op); simpl; reflexivity.
Qed.

Lemma visitStore_outcome s e σ :
  StmtAt root s (ExpressionStatement e) ->
  Inv σ ->
  Out σ (visitStore semantics knowledgeBase rse s e σ).
Proof.
  intros Hat Hσ. unfold visitStore.
  destruct e as [functionName arguments | name | kind value];
    try (simpl; intros _; discriminate).
  destruct (toEVMInstruction (m_dialect rse) functionName) as [i |] eqn:Hi;
    [| apply Outcome_refl, Hσ].
  destruct (negb (forallb isIdentifierOrLiteral arguments)); [apply Outcome_refl, Hσ |].
  destruct (yulAssert CandidateMismatch _) as [[] | e] eqn:Hassert; simpl.
  2: { unfold yulAssert in Hassert. case_match; [discriminate |].
       injection Hassert as <-. intros _; discriminate. }
  apply yulAssert_ok, bool_decide_eq_true_1 in Hassert.
  destruct (isCandidateForRemoval semantics rse i) eqn:Hcand; [| apply Outcome_refl, Hσ].
  destruct (if bool_decide (i = RETURNDATACOPY) then _ else _) as [allowed | e] eqn:Hallow;
    simpl.
  2: { intros _. case_bool_decide; [| discriminate].
       apply allowReturndatacopyToBeRemoved_error in Hallow. congruence. }
  destruct allowed; [| apply Outcome_refl, Hσ].
  apply recordStore_outcome; [| exact Hσ].
  exists i. repeat split; try assumption.
  - symmetry. exact Hassert.
  - intros ->. rewrite bool_decide_eq_true_2 in Hallow by reflexivity. exact Hallow.
Qed.

Lemma Outcome_bind_mono σ (m : Result State) (k : State -> Result State) :
  Out σ m ->
  (forall σ1, Inv σ1 -> m_allStores σ ⊆ m_allStores σ1 -> Out σ1 (k σ1)) ->
  Out σ (m ≫= k).
Proof.
  intros Hm Hk. destruct m as [σ1 | e]; simpl in *; [| exact Hm].
  apply (Outcome_trans σ σ1); [exact Hm |].
  destruct Hm as (Hinv & Hall & _). apply Hk; assumption.
Qed.

Lemma setActive_outcome σ a :
  Inv σ -> Within (m_allStores σ) a -> Out σ (Ok (setActive a σ)).
Proof.
  intros Hσ Ha. simpl. split; [apply Invariant_setActive; assumption | split; reflexivity].
Qed.

Lemma Invariant_initialState : Inv initialState.
Proof.
  split; simpl.
  - intros s Hin. apply not_elem_of_empty in Hin. destruct Hin.
  - apply ActiveWithin_empty.
  - reflexivity.
  - intros _ s op Hlook. rewrite lookup_empty in Hlook. discriminate.
Qed.

(** A position holds one statement, and one block. *)
Lemma position_functional s :
  (forall st1 st2, StmtAt root s st1 -> StmtAt root s st2 -> st1 = st2) /\
  (forall b1 b2, BlockAt root s b1 -> BlockAt root s b2 -> b1 = b2).
Proof.
  induction s as [| i s [IHs IHb]]; split.
  - intros st1 st2 H1. inversion H1.
  - intros b1 b2 H1 H2. inversion H1; inversion H2; congruence.
  - intros st1 st2 H1 H2. inversion H1 as [b blk1 i1 st Hb1 Hl1]; subst.
    inversion H2 as [b blk2 i2 st Hb2 Hl2]; subst.
    rewrite (IHb blk1 blk2 Hb1 Hb2) in Hl1. congruence.
  - intros b1 b2 H1 H2. inversion H1 as [| s1 st1 k1 blk Hs1 Hk1]; subst.
    inversion H2 as [| s2 st2 k2 blk Hs2 Hk2]; subst.
    rewrite (IHs st1 st2 Hs1 Hs2) in Hk1. congruence.
Qed.

Lemma StmtAt_functional s st1 st2 :
  StmtAt root s st1 -> StmtAt root s st2 -> st1 = st2.
Proof. apply position_functional. Qed.

Lemma RecordedStore_functional s l1 l2 :
  RecordedStore semantics knowledgeBase rse root s l1 ->
  RecordedStore semantics knowledgeBase rse root s l2 -> l1 = l2.
Proof.
  intros (f1 & a1 & op1 & (i1 & Hat1 & _) & Hops1 & <-)
         (f2 & a2 & op2 & (i2 & Hat2 & _) & Hops2 & <-).
  pose proof (StmtAt_functional _ _ _ Hat1 Hat2) as E. injection E as -> ->.
  congruence.
Qed.

(** The set relations the invariant stands for. *)
Lemma Invariant_sets σ :
  Inv σ ->
  activeMemoryStores σ ⊆ m_allStores σ /\
  activeStorageStores σ ⊆ m_allStores σ /\
  activeMemoryStores σ ∩ activeStorageStores σ = ∅ /\
  m_usedStores σ ⊆ m_allStores σ.
Proof.
  intros Hσ. destruct (Invariant_active_subseteq σ Hσ) as [Hm Hs].
  repeat split; try assumption; [| exact (inv_used _ _ _ _ _ Hσ)].
  apply set_eq. intros s. split; [| intros Hin; apply not_elem_of_empty in Hin; destruct Hin].
  intros Hin. apply elem_of_intersection in Hin as [H1 H2].
  destruct (inv_active _ _ _ _ _ Hσ) as [Am As]. simpl in Am, As.
  destruct (Am s H1) as [_ R1]. destruct (As s H2) as [_ R2].
  pose proof (RecordedStore_functional s _ _ R1 R2). discriminate.
Qed.

(** A known store is a call of the recorded shape. *)
Lemma Invariant_store_shape σ s functionName arguments :
  Inv σ -> s ∈ m_allStores σ ->
  StmtAt root s (ExpressionStatement (FunctionCall functionName arguments)) ->
  RecordedStoreShape knowledgeBase rse root s functionName arguments.
Proof.
  intros Hσ Hin Hat. destruct (inv_all _ _ _ _ _ Hσ s Hin) as (l & f & a & op & Hshape & _).
  destruct Hshape as (i & Hat' & Hrest).
  pose proof (StmtAt_functional _ _ _ Hat Hat') as E. injection E as -> ->.
  exists i. auto.
Qed.

Lemma finalize_outcome σ : Inv σ -> Out σ (Ok (finalize rse σ)).
Proof.
  intros Hσ. unfold finalize.
  eapply Outcome_trans; [| apply markActiveAsUsed_outcome].
  - destruct (isEVMDialect (m_dialect rse) && providesObjectAccess (m_dialect rse));
      [apply clearActive_outcome | apply markActiveAsUsed_outcome]; exact Hσ.
  - destruct (isEVMDialect (m_dialect rse) && providesObjectAccess (m_dialect rse));
      [apply Invariant_clearActive | apply markActiveAsUsed_outcome]; exact Hσ.
Qed.

Lemma storesToRemove_subseteq σ : storesToRemove rse σ ⊆ m_allStores σ.
Proof.
  unfold storesToRemove, finalize.
  destruct (isEVMDialect (m_dialect rse) && providesObjectAccess (m_dialect rse)).
  - destruct (markActiveAsUsed_fields (Some Location.Storage)
                (clearActive (Some Location.Memory) σ)) as (-> & _).
    destruct (clearActive_fields (Some Location.Memory) σ) as (-> & _).
    apply subseteq_difference_l. reflexivity.
  - destruct (markActiveAsUsed_fields (Some Location.Storage)
                (markActiveAsUsed (Some Location.Memory) σ)) as (-> & _).
    destruct (markActiveAsUsed_fields (Some Location.Memory) σ) as (-> & _).
    apply subseteq_difference_l. reflexivity.
Qed.
(** From here on: the join of the shared traversal, assumed to yield no
    store of its own. *)
Variable merge : gset StmtId -> gset StmtId -> gset StmtId.
Hypothesis merge_within : MergeWithin merge.

Abbreviation VisitKeeps := (VisitKeeps semantics knowledgeBase merge rse root).

Lemma ActiveWithin_merge all a b :
  Within all a -> Within all b -> Within all (mergeActive merge a b).
Proof.
  intros [Hma Hsa] [Hmb Hsb]. split; intros s Hin; simpl in Hin;
    apply merge_within in Hin as [Hin | Hin]; auto.
Qed.

Lemma walkVector_outcome_from b blk l : forall i,
  BlockAt root b blk ->
  (forall j st, l !! j = Some st -> blk !! (i + j)%nat = Some st) ->
  Forall VisitKeeps l ->
  forall σ, Inv σ ->
    Out σ (walkVector (visit semantics knowledgeBase merge rse) b i l σ).
Proof.
  induction l as [| st l IH]; intros i Hb Hl Hkeeps σ Hσ; simpl.
  - apply Outcome_refl, Hσ.
  - inversion Hkeeps as [| ? ? Hst Hrest]; subst.
    apply Outcome_bind.
    + apply Hst; [| exact Hσ].
      apply (StmtAt_intro root b blk); [exact Hb |].
      specialize (Hl 0%nat st eq_refl). rewrite Nat.add_0_r in Hl. exact Hl.
    + intros σ1 _ Hσ1. apply IH; try assumption.
      intros j st' Hj. specialize (Hl (S j) st' Hj).
      rewrite Nat.add_succ_r in Hl. exact Hl.
Qed.

Lemma walkVector_outcome b blk :
  BlockAt root b blk -> Forall VisitKeeps blk ->
  forall σ, Inv σ ->
    Out σ (walkVector (visit semantics knowledgeBase merge rse) b 0 blk σ).
Proof.
  intros Hb Hkeeps. apply (walkVector_outcome_from b blk blk 0%nat); auto.
Qed.

Lemma operator_If_outcome visitCondition walkBody σ :
  (forall σ, Inv σ -> Out σ (visitCondition σ)) ->
  (forall σ, Inv σ -> Out σ (walkBody σ)) ->
  Inv σ -> Out σ (operator_If merge visitCondition walkBody σ).
Proof.
  intros Hc Hb Hσ. unfold operator_If.
  apply Outcome_bind; [apply Hc, Hσ |]. intros σ0 _ Hσ0.
  apply Outcome_bind_mono; [apply Hb, Hσ0 |]. intros σ1 Hσ1 Hmono.
  apply setActive_outcome; [exact Hσ1 |].
  apply ActiveWithin_merge; [exact (inv_active _ _ _ _ _ Hσ1) |].
  eapply ActiveWithin_mono; [exact Hmono | exact (inv_active _ _ _ _ _ Hσ0)].
Qed.

Lemma walkCases_outcome walkBody preState cs : forall k σ,
  (forall j c, cs !! j = Some c ->
     forall σ, Inv σ -> Out σ (walkBody (k + j)%nat (snd c) σ)) ->
  Inv σ -> Within (m_allStores σ) preState ->
  match walkCases walkBody preState k cs σ with
  | Ok r => Out σ (Ok (fst r)) /\ Forall (Within (m_allStores (fst r))) (snd r)
  | Err e => WordIndexed -> e <> StorageLengthNotOne
  end.
Proof.
  induction cs as [| c cs IH]; intros k σ Hbody Hσ Hpre; simpl.
  - split; [auto | constructor].
  - assert (H1 : Out σ (walkBody k (snd c) (setActive preState σ))).
    { eapply Outcome_trans; [apply setActive_outcome; eassumption |].
      specialize (Hbody 0%nat c eq_refl). rewrite Nat.add_0_r in Hbody.
      apply Hbody. apply Invariant_setActive; assumption. }
    destruct (walkBody k (snd c) (setActive preState σ)) as [σ1 | e]; simpl; [| exact H1].
    destruct H1 as (Hσ1 & Hall1 & Hused1).
    specialize (IH (S k) σ1).
    destruct (walkCases walkBody preState (S k) cs σ1) as [r | e]; simpl.
    + destruct IH as [(Hr & Hall2 & Hused2) Hbr]; try assumption.
      * intros j c' Hj. specialize (Hbody (S j) c' Hj).
        rewrite Nat.add_succ_r in Hbody. exact Hbody.
      * eapply ActiveWithin_mono; eassumption.
      * split; [split; [exact Hr | split; etrans; eassumption] |].
        constructor; [| exact Hbr].
        eapply ActiveWithin_mono; [exact Hall2 | exact (inv_active _ _ _ _ _ Hσ1)].
    + apply IH; try assumption.
      * intros j c' Hj. specialize (Hbody (S j) c' Hj).
        rewrite Nat.add_succ_r in Hbody. exact Hbody.
      * eapply ActiveWithin_mono; eassumption.
Qed.

Lemma fold_left_mergeActive_within all bs : forall b,
  Within all b -> Forall (Within all) bs -> Within all (fold_left (mergeActive merge) bs b).
Proof.
  induction bs as [| b' bs IH]; intros b Hb Hbs; simpl; [exact Hb |].
  inversion Hbs; subst. apply IH; [apply ActiveWithin_merge |]; assumption.
Qed.

Lemma joinBranches_within all hasDefault preState branches :
  Within all preState -> Forall (Within all) branches ->
  Within all (joinBranches merge hasDefault preState branches).
Proof.
  intros Hpre Hbr. unfold joinBranches.
  assert (Hl : Forall (Within all)
                 (if hasDefault then rev branches else preState :: branches)).
  { destruct hasDefault; [apply Forall_rev; exact Hbr | constructor; assumption]. }
  destruct (if hasDefault then rev branches else preState :: branches) as [| b bs];
    [exact Hpre |].
  inversion Hl; subst. apply fold_left_mergeActive_within; assumption.
Qed.

Lemma operator_Switch_outcome visitExpr walkBody cs hasDefault σ :
  (forall σ, Inv σ -> Out σ (visitExpr σ)) ->
  (forall j c, cs !! j = Some c -> forall σ, Inv σ -> Out σ (walkBody j (snd c) σ)) ->
  Inv σ ->
  Out σ (operator_Switch merge visitExpr
           (fun preState => walkCases walkBody preState 0 cs) hasDefault σ).
Proof.
  intros He Hb Hσ. unfold operator_Switch.
  apply Outcome_bind; [apply He, Hσ |]. intros σ0 _ Hσ0.
  pose proof (walkCases_outcome walkBody (getActive σ0) cs 0%nat σ0 Hb Hσ0
                (inv_active _ _ _ _ _ Hσ0)) as Hw.
  destruct (walkCases walkBody (getActive σ0) 0 cs σ0) as [r | e]; simpl; [| exact Hw].
  destruct Hw as [Hr Hbr].
  apply (Outcome_trans σ0 (fst r)
           (Ok (setActive (joinBranches merge hasDefault (getActive σ0) (snd r)) (fst r))));
    [exact Hr |].
  destruct Hr as (Hinv & Hall & _).
  apply setActive_outcome; [exact Hinv |].
  apply joinBranches_within; [| exact Hbr].
  eapply ActiveWithin_mono; [exact Hall | exact (inv_active _ _ _ _ _ Hσ0)].
Qed.

Lemma operator_ForLoop_outcome walkPre visitCondition walkBody walkPost σ :
  (forall σ, Inv σ -> Out σ (walkPre σ)) ->
  (forall σ, Inv σ -> Out σ (visitCondition σ)) ->
  (forall σ, Inv σ -> Out σ (walkBody σ)) ->
  (forall σ, Inv σ -> Out σ (walkPost σ)) ->
  Inv σ ->
  Out σ (operator_ForLoop merge walkPre visitCondition walkBody walkPost σ).
Proof.
  intros Hpre Hc Hbody Hpost Hσ. unfold operator_ForLoop.
  apply Outcome_bind; [apply Hpre, Hσ |]. intros σ0 _ Hσ0.
  apply Outcome_bind; [apply Hc, Hσ0 |]. intros σ1 _ Hσ1.
  apply Outcome_bind_mono; [apply Hbody, Hσ1 |]. intros σ2 Hσ2 M2.
  apply Outcome_bind_mono; [apply Hpost, Hσ2 |]. intros σ3 Hσ3 M3.
  apply Outcome_bind_mono; [apply Hc, Hσ3 |]. intros σ4 Hσ4 M4.
  apply Outcome_bind_mono; [apply Hbody, Hσ4 |]. intros σ5 Hσ5 M5.
  apply Outcome_bind_mono; [apply Hpost, Hσ5 |]. intros σ6 Hσ6 M6.
  apply Outcome_bind_mono; [apply Hc, Hσ6 |]. intros σ7 Hσ7 M7.
  apply setActive_outcome; [exact Hσ7 |].
  apply ActiveWithin_merge; [apply ActiveWithin_merge |].
  - exact (inv_active _ _ _ _ _ Hσ7).
  - eapply ActiveWithin_mono; [| exact (inv_active _ _ _ _ _ Hσ4)].
    do 2 (etrans; [eassumption |]). exact M7.
  - eapply ActiveWithin_mono; [| exact (inv_active _ _ _ _ _ Hσ1)].
    do 5 (etrans; [eassumption |]). exact M7.
Qed.

Lemma operator_FunctionDefinition_outcome walkBody σ :
  (forall σ, Inv σ -> Out σ (walkBody σ)) ->
  Inv σ -> Out σ (operator_FunctionDefinition walkBody σ).
Proof.
  intros Hbody Hσ. unfold operator_FunctionDefinition, base_FunctionDefinition.
  assert (H0 : Inv (setActive (∅, ∅) (setStoreOperations ∅ σ))).
  { apply Invariant_setActive; [| apply ActiveWithin_empty].
    apply Invariant_setStoreOperations; [exact Hσ |].
    intros _ s op Hlook. rewrite lookup_empty in Hlook. discriminate. }
  pose proof (Hbody _ H0) as H1.
  destruct (walkBody (setActive (∅, ∅) (setStoreOperations ∅ σ))) as [σ1 | e];
    simpl; [| exact H1].
  destruct H1 as (Hσ1 & Hall1 & Hused1). simpl in Hall1, Hused1.
  destruct (markActiveAsUsed_outcome None σ1 Hσ1) as (Hσ2 & Hall2 & Hused2).
  split; [| split; [etrans; eassumption | etrans; eassumption]].
  apply (Invariant_setStoreOperations
           (setActive (getActive σ) (markActiveAsUsed None σ1))
           (m_storeOperations σ)).
  - apply Invariant_setActive; [exact Hσ2 |].
    eapply ActiveWithin_mono; [| exact (inv_active _ _ _ _ _ Hσ)].
    etrans; eassumption.
  - exact (inv_operations _ _ _ _ _ Hσ).
Qed.

Lemma BlockAt_subBlock s st k blk :
  StmtAt root s st -> subBlocks st !! k = Some blk -> BlockAt root (k :: s) blk.
Proof. intros Hs Hk. eapply BlockAt_sub; eassumption. Qed.

(** Every visit of a statement of the code keeps the invariant. *)
Lemma visit_outcome st : VisitKeeps st.
Proof.
  induction st as [e | xs v | xs e | b IHb | c b IHb | e cs IHcs
                   | pre c post body IHpre IHpost IHbody | n ps rs b IHb |]
    using Statement_nested_ind; intros s σ Hat Hσ; simpl.
  - apply Outcome_bind; [apply visitExpression_outcome, Hσ |].
    intros σ1 _ Hσ1. apply visitStore_outcome; assumption.
  - destruct v as [e |]; [apply visitExpression_outcome, Hσ | apply Outcome_refl, Hσ].
  - apply visitExpression_outcome, Hσ.
  - apply walkVector_outcome; [| exact IHb | exact Hσ].
    apply (BlockAt_subBlock s (Block b)); [exact Hat | reflexivity].
  - apply operator_If_outcome; [apply visitExpression_outcome | | exact Hσ].
    intros σ' Hσ'. apply walkVector_outcome; [| exact IHb | exact Hσ'].
    apply (BlockAt_subBlock s (If c b)); [exact Hat | reflexivity].
  - apply (operator_Switch_outcome (visitExpression semantics knowledgeBase rse e)
             (fun k b => walkVector (visit semantics knowledgeBase merge rse) (k :: s) 0 b));
      [apply visitExpression_outcome | | exact Hσ].
    intros j c' Hj σ' Hσ'. apply walkVector_outcome; [| | exact Hσ'].
    + apply (BlockAt_subBlock s (Switch e cs)); [exact Hat |].
      simpl. rewrite list_lookup_fmap, Hj. reflexivity.
    + rewrite Forall_forall in IHcs. apply IHcs.
      eapply list_elem_of_lookup_2; eassumption.
  - apply operator_ForLoop_outcome; [| apply visitExpression_outcome | | | exact Hσ];
      intros σ' Hσ'; (apply walkVector_outcome; [| assumption | exact Hσ']);
      apply (BlockAt_subBlock s (ForLoop pre c post body)); (exact Hat || reflexivity).
  - apply operator_FunctionDefinition_outcome; [| exact Hσ].
    intros σ' Hσ'. apply walkVector_outcome; [| exact IHb | exact Hσ'].
    apply (BlockAt_subBlock s (FunctionDefinition n ps rs b)); [exact Hat | reflexivity].
  - apply markActiveAsUsed_outcome, Hσ.
Qed.

Lemma walkRoot_outcome :
  Out initialState (walkRoot semantics knowledgeBase merge rse root).
Proof.
  unfold walkRoot. apply walkVector_outcome.
  - constructor.
  - apply Forall_forall. intros st _. apply visit_outcome.
  - apply Invariant_initialState.
Qed.

End InvariantFacts.

(** ** The step on a call, and the end of the run *)

Section StepFacts.

Variable semantics : SemanticInformation.t.
Variable knowledgeBase : Dialect -> (YulString -> option AssignedValue) -> KnowledgeBase.t.
Variable rse : UnusedStoreEliminator.

Lemma applyControlFlow_fields sideEffects σ :
  m_allStores (applyControlFlow sideEffects σ) = m_allStores σ /\
  m_usedStores (applyControlFlow sideEffects σ) =
    m_usedStores σ ∪ (if canTerminate sideEffects then activeStorageStores σ else ∅) /\
  activeMemoryStores (applyControlFlow sideEffects σ) =
    (if canContinue sideEffects then activeMemoryStores σ else ∅) /\
  activeStorageStores (applyControlFlow sideEffects σ) =
    (if canTerminate sideEffects then ∅
     else if canContinue sideEffects then activeStorageStores σ else ∅).
Proof.
  unfold applyControlFlow.
  destruct (canTerminate sideEffects), (canContinue sideEffects); simpl;
    repeat split; try reflexivity; set_solver.
Qed.

Lemma applyOperationTo_unknown_storage_read _operation ops s o acc :
  location _operation = Location.Storage ->
  effect _operation = Effect.Read ->
  start _operation = None ->
  ops !! s = Some o -> location o = Location.Storage ->
  applyOperationTo knowledgeBase rse _operation ops s acc =
  Ok ({[s]} ∪ fst acc, {[s]} ∪ snd acc).
Proof.
  intros Hloc Heff Hstart Ho Hlo. unfold applyOperationTo, map_at.
  rewrite Ho, Heff. simpl.
  rewrite (knownUnrelated_storage_unknown_start _ o _operation Hlo Hloc (or_intror Hstart)).
  reflexivity.
Qed.

Lemma forEach_unknown_storage_read _operation ops l : forall acc,
  location _operation = Location.Storage ->
  effect _operation = Effect.Read ->
  start _operation = None ->
  (forall s, s ∈ l -> exists o, ops !! s = Some o /\ location o = Location.Storage) ->
  forEach (applyOperationTo knowledgeBase rse _operation ops) l acc =
  Ok (list_to_set l ∪ fst acc, list_to_set l ∪ snd acc).
Proof.
  intros acc Hloc Heff Hstart. revert acc.
  induction l as [| s l IH]; intros acc Hl.
  - simpl. f_equal. destruct acc as [u r]. simpl. f_equal; set_solver.
  - destruct (Hl s) as (o & Ho & Hlo); [apply list_elem_of_here |].
    change (forEach (applyOperationTo knowledgeBase rse _operation ops) (s :: l) acc)
      with (applyOperationTo knowledgeBase rse _operation ops s acc ≫=
            forEach (applyOperationTo knowledgeBase rse _operation ops) l).
    rewrite (applyOperationTo_unknown_storage_read _operation ops s o acc)
      by assumption.
    simpl. rewrite IH by (intros s' Hs'; apply Hl; apply list_elem_of_further, Hs').
    simpl. f_equal. f_equal; set_solver.
Qed.

(** C10: two storage operations of which one has no start recorded are
    never known to be unrelated: [knownUnrelated] answers [false].  So a
    storage read without a start marks every active storage store, each
    with its storage operation recorded, as used and leaves none active. *)
Theorem unknown_storage_start_may_alias :
  (forall a b,
     location a = Location.Storage -> location b = Location.Storage ->
     start a = None \/ start b = None ->
     knownUnrelated (knowledge knowledgeBase rse) a b = Ok false) /\
  (forall _operation σ,
     location _operation = Location.Storage ->
     effect _operation = Effect.Read ->
     start _operation = None ->
     (forall s, s ∈ activeStorageStores σ ->
        exists o, m_storeOperations σ !! s = Some o /\ location o = Location.Storage) ->
     exists σ',
       applyOperation knowledgeBase rse _operation σ = Ok σ' /\
       m_usedStores σ' = m_usedStores σ ∪ activeStorageStores σ /\
       activeStorageStores σ' = ∅ /\
       activeMemoryStores σ' = activeMemoryStores σ /\
       m_allStores σ' = m_allStores σ).
Proof.
  split; [intros a b; apply knownUnrelated_storage_unknown_start |].
  intros _operation σ Hloc Heff Hstart Hact.
  unfold applyOperation. rewrite Hloc. simpl.
  rewrite (forEach_unknown_storage_read _operation (m_storeOperations σ)
             (elements (activeStorageStores σ)) (m_usedStores σ, ∅));
    [| rewrite Hloc; reflexivity | assumption | assumption
     | intros s Hs; apply Hact; apply elem_of_elements, Hs].
  simpl. eexists. split; [reflexivity |]. simpl.
  rewrite list_to_set_elements_L.
  repeat split; set_solver.
Qed.

Lemma finalize_fields σ :
  m_allStores (finalize rse σ) = m_allStores σ /\
  m_usedStores (finalize rse σ) =
    (m_usedStores σ ∪
     (if isEVMDialect (m_dialect rse) && providesObjectAccess (m_dialect rse)
      then ∅ else activeMemoryStores σ)) ∪ activeStorageStores σ /\
  activeMemoryStores (finalize rse σ) = ∅ /\
  activeStorageStores (finalize rse σ) = ∅.
Proof.
  unfold finalize.
  destruct (isEVMDialect (m_dialect rse) && providesObjectAccess (m_dialect rse));
    simpl; repeat split; try reflexivity; set_solver.
Qed.

End StepFacts.

(** ** The invariants of the walk *)

Section WalkFacts.

Variable semantics : SemanticInformation.t.
Variable knowledgeBase : Dialect -> (YulString -> option AssignedValue) -> KnowledgeBase.t.
Variable merge : gset StmtId -> gset StmtId -> gset StmtId.
Variable rse : UnusedStoreEliminator.
Variable root : list Statement.

Lemma Outcome_ok σ σ' r :
  r = Ok σ' -> Outcome semantics knowledgeBase rse root σ r ->
  Invariant semantics knowledgeBase rse root σ' /\
  m_allStores σ ⊆ m_allStores σ' /\ m_usedStores σ ⊆ m_usedStores σ'.
Proof. intros ->. auto. Qed.

(** C8: the invariant holds when the walk starts; it is kept, and no
    store leaves [m_allStores] or [m_usedStores], across the visit of every
    statement of the code and of every expression from any state that
    meets it, across the end of the run, and so by the walk over the whole
    code; and in a state that meets it both active sets are within
    [m_allStores], they are disjoint, and [m_usedStores] is within
    [m_allStores]. *)
Theorem walk_invariants :
  MergeWithin merge ->
  Invariant semantics knowledgeBase rse root initialState /\
  (forall σ, Invariant semantics knowledgeBase rse root σ ->
     activeMemoryStores σ ⊆ m_allStores σ /\
     activeStorageStores σ ⊆ m_allStores σ /\
     activeMemoryStores σ ∩ activeStorageStores σ = ∅ /\
     m_usedStores σ ⊆ m_allStores σ) /\
  (forall s st σ σ',
     StmtAt root s st ->
     Invariant semantics knowledgeBase rse root σ ->
     visit semantics knowledgeBase merge rse s st σ = Ok σ' ->
     Invariant semantics knowledgeBase rse root σ' /\
     m_allStores σ ⊆ m_allStores σ' /\ m_usedStores σ ⊆ m_usedStores σ') /\
  (forall e σ σ',
     Invariant semantics knowledgeBase rse root σ ->
     visitExpression semantics knowledgeBase rse e σ = Ok σ' ->
     Invariant semantics knowledgeBase rse root σ' /\
     m_allStores σ ⊆ m_allStores σ' /\ m_usedStores σ ⊆ m_usedStores σ') /\
  (forall σ,
     Invariant semantics knowledgeBase rse root σ ->
     Invariant semantics knowledgeBase rse root (finalize rse σ) /\
     m_allStores σ ⊆ m_allStores (finalize rse σ) /\
     m_usedStores σ ⊆ m_usedStores (finalize rse σ)) /\
  (forall σ,
     walkRoot semantics knowledgeBase merge rse root = Ok σ ->
     Invariant semantics knowledgeBase rse root σ).
Proof.
  intros Hmerge. split; [apply Invariant_initialState |].
  split; [apply Invariant_sets |].
  split; [| split; [| split]].
  - intros s st σ σ' Hat Hσ Hv.
    apply (Outcome_ok σ σ' _ Hv). apply (visit_outcome _ _ _ _ _ Hmerge); assumption.
  - intros e σ σ' Hσ Hv.
    apply (Outcome_ok σ σ' _ Hv). apply visitExpression_outcome, Hσ.
  - intros σ Hσ. apply (finalize_outcome semantics knowledgeBase rse root σ Hσ).
  - intros σ Hwalk.
    apply (Outcome_ok initialState σ _ Hwalk).
    apply (walkRoot_outcome _ _ _ _ _ Hmerge).
Qed.

Lemma allowReturndatacopyToBeRemoved_shape arguments :
  allowReturndatacopyToBeRemoved knowledgeBase rse arguments = Ok true ->
  RemovableReturndatacopy knowledgeBase rse arguments.
Proof.
  unfold allowReturndatacopyToBeRemoved, vector_at, map_at.
  destruct (arguments !! 1%nat) as [a1 |] eqn:H1; simpl; [| discriminate].
  destruct (arguments !! 2%nat) as [a2 |] eqn:H2; simpl; [| discriminate].
  destruct a2 as [| len |]; simpl; try discriminate.
  case_bool_decide as Hlen; [| discriminate].
  destruct a1 as [| st |]; simpl; try discriminate.
  case_bool_decide as Hst; [| discriminate].
  destruct (m_ssaValues rse !! len) as [[v] |] eqn:Hv; simpl; [| discriminate].
  intros [= H]. apply andb_prop in H as [Hz Hcall].
  destruct v as [lengthName lengthArguments | |]; try discriminate.
  apply bool_decide_eq_true_1 in Hcall.
  exists st, len, lengthName, lengthArguments.
  repeat (split; [first [reflexivity | assumption] |]). assumption.
Qed.

(** A [returndatacopy] among the known stores has the removable shape. *)
Lemma known_returndatacopy_shape σ s functionName arguments :
  Invariant semantics knowledgeBase rse root σ ->
  s ∈ m_allStores σ ->
  StmtAt root s (ExpressionStatement (FunctionCall functionName arguments)) ->
  toEVMInstruction (m_dialect rse) functionName = Some RETURNDATACOPY ->
  RemovableReturndatacopy knowledgeBase rse arguments.
Proof.
  intros Hσ Hin Hat Hi.
  destruct (Invariant_store_shape _ _ _ _ σ s functionName arguments Hσ Hin Hat)
    as (i & _ & Hi' & _ & Hallow).
  apply allowReturndatacopyToBeRemoved_shape, Hallow. congruence.
Qed.

(** When memory is ignored, the known stores are calls of [sstore]. *)
Lemma known_store_ignoring_memory σ s functionName arguments instruction :
  Invariant semantics knowledgeBase rse root σ ->
  m_ignoreMemory rse = true ->
  s ∈ m_allStores σ ->
  StmtAt root s (ExpressionStatement (FunctionCall functionName arguments)) ->
  toEVMInstruction (m_dialect rse) functionName = Some instruction ->
  instruction = SSTORE.
Proof.
  intros Hσ Hignore Hin Hat Hi.
  destruct (Invariant_store_shape _ _ _ _ σ s functionName arguments Hσ Hin Hat)
    as (i & _ & Hi' & Hhard & _).
  assert (i = instruction) as -> by congruence.
  rewrite Hignore in Hhard. simpl in Hhard. rewrite orb_false_r in Hhard.
  apply bool_decide_eq_true_1 in Hhard. exact Hhard.
Qed.

End WalkFacts.

(** ** The run *)

Section DriverFacts.

Variable semantics : SemanticInformation.t.
Variable knowledgeBase : Dialect -> (YulString -> option AssignedValue) -> KnowledgeBase.t.
Variable merge : gset StmtId -> gset StmtId -> gset StmtId.
Variable sideEffectsPropagator : Dialect -> list Statement -> gmap YulString SideEffects.t.
Variable controlFlowSideEffectsCollector :
  Dialect -> list Statement -> gmap YulString ControlFlowSideEffects.
Variable ssaValueTracker : list Statement -> gmap YulString Expression.

Abbreviation runEliminator' :=
  (runEliminator sideEffectsPropagator controlFlowSideEffectsCollector ssaValueTracker).
Abbreviation run' :=
  (run semantics knowledgeBase merge sideEffectsPropagator
       controlFlowSideEffectsCollector ssaValueTracker).

Lemma run_ok dialect _ast removed :
  run' dialect _ast = Ok removed ->
  exists σ,
    walkRoot semantics knowledgeBase merge (runEliminator' dialect _ast) _ast = Ok σ /\
    removed = storesToRemove (runEliminator' dialect _ast) σ.
Proof.
  unfold run. intros H.
  destruct (walkRoot _ _ _ _ _) as [σ | e]; simpl in H; [| discriminate].
  injection H as <-. exists σ. split; reflexivity.
Qed.

Lemma run_error dialect _ast e :
  run' dialect _ast = Err e ->
  walkRoot semantics knowledgeBase merge (runEliminator' dialect _ast) _ast = Err e.
Proof.
  unfold run. intros H.
  destruct (walkRoot _ _ _ _ _) as [σ | e']; simpl in H; [discriminate |].
  injection H as ->. reflexivity.
Qed.

(** C3: at the end of the run the active memory stores are dropped when
    the dialect is an EVM dialect that provides object access, and marked
    as used otherwise; the active storage stores are marked as used in
    both cases; and the set given to the statement remover is
    [m_allStores] without [m_usedStores]. *)
Theorem finalize_removes_unused :
  (forall (rse : UnusedStoreEliminator) (σ : State),
     let objectAccess :=
       isEVMDialect (m_dialect rse) && providesObjectAccess (m_dialect rse) in
     let used :=
       (m_usedStores σ ∪ (if objectAccess then ∅ else activeMemoryStores σ))
       ∪ activeStorageStores σ in
     m_allStores (finalize rse σ) = m_allStores σ /\
     m_usedStores (finalize rse σ) = used /\
     activeMemoryStores (finalize rse σ) = ∅ /\
     activeStorageStores (finalize rse σ) = ∅ /\
     storesToRemove rse σ = m_allStores σ ∖ used) /\
  (forall dialect _ast,
     run' dialect _ast =
     (σ ← walkRoot semantics knowledgeBase merge (runEliminator' dialect _ast) _ast;
      Ok (m_allStores σ ∖
          ((m_usedStores σ ∪
            (if isEVMDialect dialect && providesObjectAccess dialect
             then ∅ else activeMemoryStores σ))
           ∪ activeStorageStores σ)))).
Proof.
  assert (Hfin : forall (rse : UnusedStoreEliminator) (σ : State),
    storesToRemove rse σ =
    m_allStores σ ∖
      ((m_usedStores σ ∪
        (if isEVMDialect (m_dialect rse) && providesObjectAccess (m_dialect rse)
         then ∅ else activeMemoryStores σ)) ∪ activeStorageStores σ)).
  { intros rse σ. unfold storesToRemove.
    destruct (finalize_fields rse σ) as (-> & -> & _). reflexivity. }
  split.
  - intros rse σ objectAccess used.
    destruct (finalize_fields rse σ) as (H1 & H2 & H3 & H4).
    repeat (split; [assumption |]). apply Hfin.
  - intros dialect _ast. unfold run.
    destruct (walkRoot _ _ _ _ _) as [σ | e]; simpl; [| reflexivity].
    rewrite Hfin. reflexivity.
Qed.

Lemma walkRoot_invariant rse _ast σ :
  MergeWithin merge ->
  walkRoot semantics knowledgeBase merge rse _ast = Ok σ ->
  Invariant semantics knowledgeBase rse _ast σ.
Proof.
  intros Hmerge Hwalk.
  pose proof (walkRoot_outcome semantics knowledgeBase rse _ast merge Hmerge) as H.
  rewrite Hwalk in H. apply H.
Qed.

(** C4: a [returndatacopy] statement that the walk has entered into
    [m_allStores], or that the run hands to the statement remover, has the
    removable shape: its start offset is an SSA variable known to be zero
    and its length an SSA variable whose value is a call of
    [returndatasize]. *)
Theorem returndatacopy_removed_only_in_shape dialect _ast s functionName arguments :
  MergeWithin merge ->
  StmtAt _ast s (ExpressionStatement (FunctionCall functionName arguments)) ->
  toEVMInstruction dialect functionName = Some RETURNDATACOPY ->
  (forall σ,
     walkRoot semantics knowledgeBase merge (runEliminator' dialect _ast) _ast = Ok σ ->
     s ∈ m_allStores σ ->
     RemovableReturndatacopy knowledgeBase (runEliminator' dialect _ast) arguments) /\
  (forall removed,
     run' dialect _ast = Ok removed -> s ∈ removed ->
     RemovableReturndatacopy knowledgeBase (runEliminator' dialect _ast) arguments).
Proof.
  intros Hmerge Hat Hi.
  assert (Hwalk : forall σ,
     walkRoot semantics knowledgeBase merge (runEliminator' dialect _ast) _ast = Ok σ ->
     s ∈ m_allStores σ ->
     RemovableReturndatacopy knowledgeBase (runEliminator' dialect _ast) arguments).
  { intros σ Hw Hin.
    eapply known_returndatacopy_shape; [| exact Hin | exact Hat | exact Hi].
    eapply walkRoot_invariant; eassumption. }
  split; [exact Hwalk |].
  intros removed Hrun Hin. apply run_ok in Hrun as (σ & Hw & ->).
  apply (Hwalk σ Hw). eapply storesToRemove_subseteq; exact Hin.
Qed.

(** C7: when the code contains [msize], a statement that writes to memory
    (a call of one of the memory-writing opcodes of [visit]) is never
    entered into [m_allStores] or an active set by the walk, and is not
    among the statements the run hands to the statement remover. *)
Theorem msize_keeps_memory_stores dialect _ast s functionName arguments instruction :
  MergeWithin merge ->
  containsMSize dialect _ast = true ->
  StmtAt _ast s (ExpressionStatement (FunctionCall functionName arguments)) ->
  toEVMInstruction dialect functionName = Some instruction ->
  isMemoryWrite instruction = true ->
  (forall σ,
     walkRoot semantics knowledgeBase merge (runEliminator' dialect _ast) _ast = Ok σ ->
     (s ∉ m_allStores σ) /\ (s ∉ activeMemoryStores σ) /\ (s ∉ activeStorageStores σ)) /\
  (forall removed, run' dialect _ast = Ok removed -> s ∉ removed).
Proof.
  intros Hmerge Hmsize Hat Hi Hmem.
  assert (Hwalk : forall σ,
     walkRoot semantics knowledgeBase merge (runEliminator' dialect _ast) _ast = Ok σ ->
     s ∉ m_allStores σ).
  { intros σ Hw Hin.
    assert (instruction = SSTORE) as ->.
    { eapply (known_store_ignoring_memory semantics knowledgeBase
                (runEliminator' dialect _ast) _ast σ s);
        [eapply walkRoot_invariant; eassumption | exact Hmsize | exact Hin
        | exact Hat | exact Hi]. }
    discriminate Hmem. }
  split.
  - intros σ Hw. specialize (Hwalk σ Hw).
    destruct (Invariant_sets _ _ _ _ σ (walkRoot_invariant _ _ _ Hmerge Hw))
      as (Hm & Hs & _).
    repeat split; [exact Hwalk | |]; intros Hin; apply Hwalk; [apply Hm | apply Hs]; exact Hin.
  - intros removed Hrun Hin. apply run_ok in Hrun as (σ & Hw & ->).
    apply (Hwalk σ Hw). eapply storesToRemove_subseteq; exact Hin.
Qed.

Lemma runValues_one _ast :
  runValues ssaValueTracker _ast !! one = Some (mkAssignedValue oneLiteral).
Proof.
  unfold runValues. rewrite lookup_insert_ne by discriminate.
  apply lookup_insert_eq.
Qed.

(** C9: when the storage operations of the instructions that have a start
    parameter have the constant length 1, and the knowledge base knows the
    value of a symbol bound to the literal 1, then every storage operation
    the step derives from a call that has a start has a length known to be
    1; on such operations [knownUnrelated] answers; and neither the visit of
    a statement of the code, from a state that meets the invariant, nor the
    run aborts on the assertion of [knownUnrelated]. *)
Theorem storage_assertion_unreachable dialect _ast :
  MergeWithin merge ->
  (forall i o, o ∈ SemanticInformation.readWriteOperations semantics i ->
     SemanticInformation.location o = Location.Storage ->
     is_Some (SemanticInformation.startParameter o) ->
     SemanticInformation.lengthConstant o = Some 1%nat) ->
  (forall d lookup, lookup one = Some (mkAssignedValue oneLiteral) ->
     KnowledgeBase.valueIfKnownConstant (knowledgeBase d lookup) one = Some 1) ->
  let rse := runEliminator' dialect _ast in
  (forall functionName arguments operations,
     operationsFromFunctionCall semantics rse functionName arguments = Ok operations ->
     Forall (StorageWordSized knowledgeBase rse) operations) /\
  (forall a b,
     StorageWordSized knowledgeBase rse a -> StorageWordSized knowledgeBase rse b ->
     exists r, knownUnrelated (knowledge knowledgeBase rse) a b = Ok r) /\
  (forall s st σ,
     StmtAt _ast s st -> Invariant semantics knowledgeBase rse _ast σ ->
     visit semantics knowledgeBase merge rse s st σ <> Err StorageLengthNotOne) /\
  run' dialect _ast <> Err StorageLengthNotOne.
Proof.
  intros Hmerge Htable Hone rse.
  assert (Hw : StorageWordIndexed semantics knowledgeBase rse).
  { split; [exact Htable |]. apply Hone. apply runValues_one. }
  split; [| split; [| split]].
  - intros functionName arguments operations Hops.
    pose proof (operationsFromFunctionCall_spec semantics knowledgeBase rse
                  functionName arguments) as H.
    rewrite Hops in H. exact (H Hw).
  - apply knownUnrelated_word_sized.
  - intros s st σ Hat Hσ Herr.
    pose proof (visit_outcome semantics knowledgeBase rse _ast merge Hmerge st s σ Hat Hσ)
      as H.
    rewrite Herr in H. exact (H Hw eq_refl).
  - intros Herr. apply run_error in Herr.
    pose proof (walkRoot_outcome semantics knowledgeBase rse _ast merge Hmerge) as H.
    fold rse in Herr. rewrite Herr in H. exact (H Hw eq_refl).
Qed.

End DriverFacts.

(** ** The instance meets the assumptions *)

Module EVMExampleFacts.
Import EVMExample.

Lemma merge_within : MergeWithin merge.
Proof.
  intros a b s Hin. apply elem_of_intersection in Hin as [Ha _]. left. exact Ha.
Qed.

Lemma semantics_word_indexed i o :
  o ∈ SemanticInformation.readWriteOperations semantics i ->
  SemanticInformation.location o = Location.Storage ->
  is_Some (SemanticInformation.startParameter o) ->
  SemanticInformation.lengthConstant o = Some 1%nat.
Proof.
  intros Hin Hloc [p Hp].
  destruct i; simpl in Hin;
    repeat (apply elem_of_cons in Hin as [-> | Hin]; [simpl in *; congruence |]);
    apply elem_of_nil in Hin; destruct Hin.
Qed.

Lemma knowledgeBase_one d lookup :
  lookup one = Some (mkAssignedValue oneLiteral) ->
  KnowledgeBase.valueIfKnownConstant (knowledgeBase d lookup) one = Some 1.
Proof. intros H. simpl. unfold constantOf. rewrite H. reflexivity. Qed.

Lemma valueOfLiteral_range n c : valueOfLiteral n = Some c -> is_u256 c.
Proof.
  unfold valueOfLiteral. destruct n as [| ch n]; [discriminate |].
  destruct (parseDigits 0 (String ch n)) as [z |]; simpl; [| discriminate].
  intros [= <-]. unfold is_u256, u256_modulus. apply Z.mod_pos_bound. lia.
Qed.

Lemma constantOf_range lookup v c : constantOf lookup v = Some c -> is_u256 c.
Proof.
  unfold constantOf. destruct (lookup v) as [[[| | [] n]] |]; try discriminate.
  apply valueOfLiteral_range.
Qed.

(** The answers of the literal-folding knowledge base are sound for the
    values of the literals. *)
Lemma knowledgeBase_sound d lookup :
  KnowledgeSound (valuation lookup) (knowledgeBase d lookup).
Proof.
  split; simpl; unfold valuation.
  - intros v. destruct (constantOf lookup v) as [c |] eqn:Hc.
    + eapply constantOf_range; eassumption.
    + unfold is_u256, u256_modulus. lia.
  - intros v c ->. reflexivity.
  - intros v H. apply bool_decide_eq_true_1 in H. rewrite H. reflexivity.
  - intros a b H. destruct (constantOf lookup a), (constantOf lookup b); try discriminate.
    apply negb_true_iff, bool_decide_eq_false_1 in H. exact H.
  - intros a b H. destruct (constantOf lookup a), (constantOf lookup b); try discriminate.
    apply andb_prop in H as [H1 H2].
    apply bool_decide_eq_true_1 in H1. apply bool_decide_eq_true_1 in H2. lia.
  - intros a b H. apply bool_decide_eq_true_1 in H. subst. reflexivity.
Qed.

End EVMExampleFacts.

(** ** The claims on the instance *)

Section Examples.

Import EVMExample.

(** C1 (the claim as stated fails): on
    [mstore(0, 1) mstore(0, 2) return(0, 32)] the run removes nothing: a
    literal argument is not an SSA variable, so no start is recorded, the
    second store is not known to cover the first, and [return] may read
    both. *)
Lemma literal_stores_not_removed :
  runOn false literalStores = Ok ∅ /\
  runOn true literalStores = Ok ∅.
Proof. split; vm_compute; reflexivity. Qed.

(** C1 (as amended): when the literals are bound to SSA variables, as in
    [let a := 0  let b := 1  let c := 2  let d := 32
     mstore(a, b)  mstore(a, c)  return(a, d)],
    the run removes the first [mstore] (statement 4) and nothing else. *)
Theorem ssa_dead_store_removed (objectAccess : bool) :
  runOn objectAccess ssaStores = Ok {[ [4%nat] ]}.
Proof. destruct objectAccess; vm_compute; reflexivity. Qed.

(** C5 (the claim as stated fails): an operation without a start does not
    cover itself: neither the storage write of a call of a contract, nor the
    write of [mstore(0, 1)], whose start is a literal. *)
Lemma knownCovered_not_reflexive :
  knownCovered (knowledgeOf literalStores)
    (mkOperation Location.Storage Effect.Write None None)
    (mkOperation Location.Storage Effect.Write None None) = false /\
  operationsFromFunctionCall semantics (eliminator false literalStores)
    "mstore" [number "0"; number "1"] =
    Ok [mkOperation Location.Memory Effect.Write None (Some thirtyTwo)] /\
  knownCovered (knowledgeOf literalStores)
    (mkOperation Location.Memory Effect.Write None (Some thirtyTwo))
    (mkOperation Location.Memory Effect.Write None (Some thirtyTwo)) = false.
Proof. repeat split; vm_compute; reflexivity. Qed.

Lemma knownCovered_refl_known_witness :
  is_Some (start (mkOperation Location.Memory Effect.Write (Some "a") (Some thirtyTwo))) /\
  is_Some (length (mkOperation Location.Memory Effect.Write (Some "a") (Some thirtyTwo))) /\
  knownCovered (knowledgeOf ssaStores)
    (mkOperation Location.Memory Effect.Write (Some "a") (Some thirtyTwo))
    (mkOperation Location.Memory Effect.Write (Some "a") (Some thirtyTwo)) = true.
Proof.
  split; [eexists; reflexivity |]. split; [eexists; reflexivity |].
  apply knownCovered_refl_known; eexists; reflexivity.
Defined.

(** C6 (the claim as stated fails): the write of
    [calldatacopy(p, p, z)], with [z] known to be zero, is known to be
    covered by itself and known to be unrelated to itself. *)
Lemma covered_and_unrelated_when_empty :
  operationsFromFunctionCall semantics (eliminator false emptyCopy)
    "calldatacopy" [Identifier "p"; Identifier "p"; Identifier "z"] =
    Ok [mkOperation Location.Memory Effect.Write (Some "p") (Some "z")] /\
  knownCovered (knowledgeOf emptyCopy)
    (mkOperation Location.Memory Effect.Write (Some "p") (Some "z"))
    (mkOperation Location.Memory Effect.Write (Some "p") (Some "z")) = true /\
  knownUnrelated (knowledgeOf emptyCopy)
    (mkOperation Location.Memory Effect.Write (Some "p") (Some "z"))
    (mkOperation Location.Memory Effect.Write (Some "p") (Some "z")) = Ok true.
Proof. repeat split; vm_compute; reflexivity. Qed.

Lemma knownCovered_excludes_knownUnrelated_witness :
  knownCovered (knowledgeOf ssaStores)
    (mkOperation Location.Memory Effect.Write (Some "a") (Some thirtyTwo))
    (mkOperation Location.Memory Effect.Write (Some "a") (Some thirtyTwo)) = true /\
  knownUnrelated (knowledgeOf ssaStores)
    (mkOperation Location.Memory Effect.Write (Some "a") (Some thirtyTwo))
    (mkOperation Location.Memory Effect.Write (Some "a") (Some thirtyTwo)) <> Ok true.
Proof.
  split; [vm_compute; reflexivity |].
  apply (knownCovered_excludes_knownUnrelated (knowledgeOf ssaStores)
           (valuation (fun v => runValues ssaValueTracker ssaStores !! v))).
  - apply EVMExampleFacts.knowledgeBase_sound.
  - vm_compute; reflexivity.
  - intros l [= <-]. vm_compute. discriminate.
Defined.

Lemma unknown_storage_start_may_alias_witness :
  location (mkOperation Location.Storage Effect.Write (Some "k") (Some one))
    = Location.Storage /\
  location (mkOperation Location.Storage Effect.Read None None) = Location.Storage /\
  start (mkOperation Location.Storage Effect.Read None None) = None /\
  knownUnrelated (knowledge knowledgeBase (eliminator false storageStores))
    (mkOperation Location.Storage Effect.Write (Some "k") (Some one))
    (mkOperation Location.Storage Effect.Read None None) = Ok false.
Proof.
  repeat (split; [reflexivity |]).
  apply (proj1 (unknown_storage_start_may_alias knowledgeBase
                  (eliminator false storageStores)));
    [reflexivity | reflexivity | right; reflexivity].
Defined.

Lemma returndatacopy_removed_only_in_shape_witness :
  StmtAt returndataCopy [3%nat]
    (call "returndatacopy" [Identifier "p"; Identifier "z"; Identifier "n"]) /\
  toEVMInstruction (dialect true) "returndatacopy" = Some RETURNDATACOPY /\
  runOn true returndataCopy = Ok {[ [3%nat] ]} /\
  RemovableReturndatacopy knowledgeBase (eliminator true returndataCopy)
    [Identifier "p"; Identifier "z"; Identifier "n"].
Proof.
  assert (Hat : StmtAt returndataCopy [3%nat]
    (call "returndatacopy" [Identifier "p"; Identifier "z"; Identifier "n"])).
  { apply (StmtAt_intro _ [] returndataCopy); [constructor | reflexivity]. }
  split; [exact Hat |]. split; [reflexivity |]. split; [vm_compute; reflexivity |].
  apply (proj2 (returndatacopy_removed_only_in_shape semantics knowledgeBase merge
                  noSideEffects noControlFlowSideEffects ssaValueTracker
                  (dialect true) returndataCopy [3%nat] "returndatacopy"
                  [Identifier "p"; Identifier "z"; Identifier "n"]
                  EVMExampleFacts.merge_within Hat eq_refl) {[ [3%nat] ]}).
  - vm_compute. reflexivity.
  - apply elem_of_singleton. reflexivity.
Defined.

Lemma msize_keeps_memory_stores_witness :
  containsMSize (dialect false) msizeStores = true /\
  StmtAt msizeStores [2%nat] (call "mstore" [Identifier "a"; Identifier "b"]) /\
  toEVMInstruction (dialect false) "mstore" = Some MSTORE /\
  isMemoryWrite MSTORE = true /\
  exists removed,
    runOn false msizeStores = Ok removed /\ [2%nat] ∉ removed.
Proof.
  assert (Hat : StmtAt msizeStores [2%nat] (call "mstore" [Identifier "a"; Identifier "b"])).
  { apply (StmtAt_intro _ [] msizeStores); [constructor | reflexivity]. }
  split; [reflexivity |]. split; [exact Hat |]. split; [reflexivity |].
  split; [reflexivity |]. eexists. split; [vm_compute; reflexivity |].
  apply (proj2 (msize_keeps_memory_stores semantics knowledgeBase merge
                  noSideEffects noControlFlowSideEffects ssaValueTracker
                  (dialect false) msizeStores [2%nat] "mstore"
                  [Identifier "a"; Identifier "b"] MSTORE
                  EVMExampleFacts.merge_within eq_refl Hat eq_refl eq_refl)).
  vm_compute. reflexivity.
Defined.

Lemma walk_invariants_witness :
  exists σ',
    visit semantics knowledgeBase merge (eliminator false ssaStores) [4%nat]
      (call "mstore" [Identifier "a"; Identifier "b"]) initialState = Ok σ' /\
    Invariant semantics knowledgeBase (eliminator false ssaStores) ssaStores σ' /\
    m_allStores initialState ⊆ m_allStores σ' /\
    m_usedStores initialState ⊆ m_usedStores σ' /\
    activeMemoryStores σ' ⊆ m_allStores σ' /\
    activeStorageStores σ' ⊆ m_allStores σ' /\
    activeMemoryStores σ' ∩ activeStorageStores σ' = ∅ /\
    m_usedStores σ' ⊆ m_allStores σ'.
Proof.
  destruct (walk_invariants semantics knowledgeBase merge (eliminator false ssaStores)
              ssaStores EVMExampleFacts.merge_within) as (H0 & Hsets & Hvisit & _).
  eexists. split; [vm_compute; reflexivity |].
  match goal with
  | |- Invariant _ _ _ _ ?s /\ _ =>
      destruct (Hvisit [4%nat] (call "mstore" [Identifier "a"; Identifier "b"])
                  initialState s) as (Hinv & Hall & Hused)
  end.
  - apply (StmtAt_intro _ [] ssaStores); [constructor | reflexivity].
  - exact H0.
  - vm_compute. reflexivity.
  - split; [exact Hinv |]. split; [exact Hall |]. split; [exact Hused |].
    apply Hsets, Hinv.
Defined.

Lemma storage_assertion_unreachable_witness :
  (exists removed, runOn false storageStores = Ok removed) /\
  runOn false storageStores <> Err StorageLengthNotOne.
Proof.
  split; [eexists; vm_compute; reflexivity |].
  apply (proj2 (proj2 (proj2
    (storage_assertion_unreachable semantics knowledgeBase merge
       noSideEffects noControlFlowSideEffects ssaValueTracker
       (dialect false) storageStores EVMExampleFacts.merge_within
       EVMExampleFacts.semantics_word_indexed EVMExampleFacts.knowledgeBase_one)))).
Defined.

End Examples.


(** * Further properties of the step *)

(** ** What the alias predicates mean *)

Section AliasMeaning.

Variable kb : KnowledgeBase.t.
Variable ρ : YulString -> Z.
Hypothesis kb_sound : KnowledgeSound ρ kb.

Lemma hasLengthOne_sound v :
  hasLengthOne kb v = true -> exists l, v = Some l /\ ρ l = 1.
Proof.
  destruct v as [l |]; simpl; [| discriminate].
  intros H. apply bool_decide_eq_true_1 in H.
  exists l. split; [reflexivity |]. apply (sound_constant _ _ kb_sound), H.
Qed.

Lemma knownBefore_sound a b :
  knownBefore kb a b = true ->
  exists s1 l1 s2, start a = Some s1 /\ length a = Some l1 /\ start b = Some s2 /\
    ρ s1 + ρ l1 <= ρ s2.
Proof.
  unfold knownBefore.
  destruct (start a) as [s1 |]; [| discriminate].
  destruct (length a) as [l1 |]; [| discriminate].
  destruct (start b) as [s2 |]; [| discriminate].
  destruct (KnowledgeBase.valueIfKnownConstant kb l1) as [x |] eqn:Hx; [| discriminate].
  destruct (KnowledgeBase.valueIfKnownConstant kb s1) as [y |] eqn:Hy; [| discriminate].
  destruct (KnowledgeBase.valueIfKnownConstant kb s2) as [z |] eqn:Hz; [| discriminate].
  apply (sound_constant _ _ kb_sound) in Hx, Hy, Hz. subst. intros H.
  exists s1, l1, s2. repeat split.
  apply endsBefore_spec in H; [exact H | apply (sound_range _ _ kb_sound) ..].
Qed.

(** X1: with a knowledge base whose answers are sound, two operations at
    the same location that are known to be unrelated touch no common byte
    (or storage slot). *)
Theorem knownUnrelated_sound (a b : Operation) (x : Z) :
  knownUnrelated kb a b = Ok true ->
  location a = location b ->
  MayTouch ρ a x -> MayTouch ρ b x -> False.
Proof.
  intros Hu Hloc (Hza & Hsa & Hea) (Hzb & Hsb & Heb).
  unfold knownUnrelated in Hu.
  rewrite (bool_decide_eq_true_2 _ Hloc) in Hu. simpl in Hu.
  destruct (location a).
  - destruct (start a) as [s1 |] eqn:Es1; [| discriminate].
    destruct (start b) as [s2 |] eqn:Es2; [| discriminate].
    destruct (hasLengthOne kb (length a)) eqn:H1; simpl in Hu; [| discriminate].
    destruct (hasLengthOne kb (length b)) eqn:H2; simpl in Hu; [| discriminate].
    injection Hu as Hu. apply (sound_different _ _ kb_sound) in Hu.
    apply hasLengthOne_sound in H1 as (l1 & El1 & Hl1).
    apply hasLengthOne_sound in H2 as (l2 & El2 & Hl2).
    specialize (Hsa s1 eq_refl). specialize (Hsb s2 eq_refl).
    specialize (Hea s1 l1 eq_refl El1). specialize (Heb s2 l2 eq_refl El2). lia.
  - destruct (isKnownZero kb (length a)) eqn:Z1.
    { destruct (length a) as [l |]; [| discriminate]. simpl in Z1.
      apply (sound_zero _ _ kb_sound) in Z1. exact (Hza l eq_refl Z1). }
    destruct (isKnownZero kb (length b)) eqn:Z2.
    { destruct (length b) as [l |]; [| discriminate]. simpl in Z2.
      apply (sound_zero _ _ kb_sound) in Z2. exact (Hzb l eq_refl Z2). }
    simpl in Hu.
    destruct (knownBefore kb a b) eqn:B1.
    { apply knownBefore_sound in B1 as (s1 & l1 & s2 & E1 & E2 & E3 & Hle).
      specialize (Hea s1 l1 E1 E2). specialize (Hsb s2 E3). lia. }
    destruct (knownBefore kb b a) eqn:B2.
    { apply knownBefore_sound in B2 as (s1 & l1 & s2 & E1 & E2 & E3 & Hle).
      specialize (Heb s1 l1 E1 E2). specialize (Hsa s2 E3). lia. }
    destruct (knownWordsApart kb a b) eqn:W; [| discriminate].
    unfold knownWordsApart in W.
    destruct (start a) as [s1 |]; [| discriminate].
    destruct (length a) as [l1 |]; [| discriminate].
    destruct (start b) as [s2 |]; [| discriminate].
    destruct (length b) as [l2 |]; [| discriminate].
    destruct (KnowledgeBase.valueIfKnownConstant kb l1) as [v1 |] eqn:V1; [| discriminate].
    destruct (KnowledgeBase.valueIfKnownConstant kb l2) as [v2 |] eqn:V2; [| discriminate].
    apply (sound_constant _ _ kb_sound) in V1, V2. subst.
    apply andb_prop in W as [W12 W3]. apply andb_prop in W12 as [W1 W2].
    apply bool_decide_eq_true_1 in W1. apply bool_decide_eq_true_1 in W2.
    apply (sound_different32 _ _ kb_sound) in W3.
    specialize (Hsa s1 eq_refl). specialize (Hsb s2 eq_refl).
    specialize (Hea s1 l1 eq_refl eq_refl). specialize (Heb s2 l2 eq_refl eq_refl).
    pose proof (sound_range _ _ kb_sound s1) as R1.
    pose proof (sound_range _ _ kb_sound s2) as R2.
    unfold is_u256, u256_modulus in *.
    destruct (Z_le_gt_dec (ρ s2) (ρ s1)) as [Hle | Hgt].
    + rewrite Z.mod_small in W3 by lia. lia.
    + assert (E : (ρ s1 - ρ s2) mod 2 ^ 256 = ρ s1 - ρ s2 + 2 ^ 256).
      { symmetry. apply Z.mod_unique with (q := -1); lia. }
      rewrite E in W3. lia.
Qed.

(** X2: with a knowledge base whose answers are sound, an operation that
    is known to be covered is at the location of the covering one, and every
    byte (or storage slot) it may touch is surely touched by the covering
    one. *)
Theorem knownCovered_sound (_covered _covering : Operation) (x : Z) :
  knownCovered kb _covered _covering = true ->
  MayTouch ρ _covered x ->
  location _covered = location _covering /\ MustTouch ρ _covering x.
Proof.
  intros Hc (Hz & Hs & He). unfold knownCovered in Hc.
  destruct (decide (location _covered = location _covering)) as [Hloc | Hne].
  2: { rewrite (bool_decide_eq_false_2 _ Hne) in Hc. discriminate. }
  split; [exact Hloc |].
  rewrite (bool_decide_eq_true_2 _ Hloc) in Hc. simpl in Hc.
  destruct (_ && _) eqn:Hsyn in Hc.
  { apply andb_prop in Hsyn as [H1 H2].
    apply andb_prop in H1 as [H1 H1']. apply andb_prop in H2 as [H2 H2'].
    apply bool_decide_eq_true_1 in H1, H1', H2, H2'.
    destruct H1 as [s Es]. destruct H2 as [l El].
    exists s, l. rewrite <- H1', <- H2'. repeat split; auto. }
  destruct (location _covered); [discriminate |].
  destruct (isKnownZero kb (length _covered)) eqn:Z1.
  { destruct (length _covered) as [l |]; [| discriminate]. simpl in Z1.
    apply (sound_zero _ _ kb_sound) in Z1. destruct (Hz l eq_refl Z1). }
  destruct (start _covered) as [cs |] eqn:Ecs; [| discriminate].
  destruct (start _covering) as [gs |] eqn:Egs; [| discriminate].
  destruct (length _covered) as [cl |] eqn:Ecl; [| discriminate].
  destruct (length _covering) as [gl |] eqn:Egl; [| discriminate].
  specialize (Hs cs eq_refl). specialize (He cs cl eq_refl eq_refl).
  specialize (Hz cl eq_refl).
  exists gs, gl. split; [exact Egs |]. split; [exact Egl |].
  destruct (KnowledgeBase.valueIfKnownConstant kb cl) as [a |] eqn:Ha;
    destruct (KnowledgeBase.valueIfKnownConstant kb gl) as [b |] eqn:Hb;
    rewrite ?andb_false_r in Hc; simpl in Hc;
    try (repeat destruct (KnowledgeBase.valueIfKnownConstant kb _); discriminate).
  apply (sound_constant _ _ kb_sound) in Ha, Hb. subst a b.
  destruct (KnowledgeBase.knownToBeEqual kb cs gs && _) eqn:Heq.
  - apply andb_prop in Heq as [Heq Hle]. apply bool_decide_eq_true_1 in Hle.
    apply (sound_equal _ _ kb_sound) in Heq. lia.
  - destruct (KnowledgeBase.valueIfKnownConstant kb cs) as [y |] eqn:Hy; [| discriminate].
    destruct (KnowledgeBase.valueIfKnownConstant kb gs) as [z |] eqn:Hz'; [| discriminate].
    apply (sound_constant _ _ kb_sound) in Hy, Hz'. subst y z.
    unfold rangeInside in Hc.
    apply andb_prop in Hc as [Hc H4]. apply andb_prop in Hc as [Hc H3].
    apply andb_prop in Hc as [H1 H2].
    apply bool_decide_eq_true_1 in H1, H2, H3, H4.
    rewrite (u256_add_no_overflow (ρ gs) (ρ gl)) in H4
      by (first [apply (sound_range _ _ kb_sound) | exact H2]).
    rewrite (u256_add_no_overflow (ρ cs) (ρ cl)) in H4
      by (first [apply (sound_range _ _ kb_sound) | exact H3]).
    lia.
Qed.

End AliasMeaning.

(** ** The shape of [knownUnrelated] *)

Section AliasShape.

Variable kb : KnowledgeBase.t.

(** X3: when the two difference queries of the knowledge base do not
    depend on the order of their arguments, neither does [knownUnrelated],
    its abort included. *)
Theorem knownUnrelated_symmetric (a b : Operation) :
  (forall u v, KnowledgeBase.knownToBeDifferent kb u v =
               KnowledgeBase.knownToBeDifferent kb v u) ->
  (forall u v, KnowledgeBase.knownToBeDifferentByAtLeast32 kb u v =
               KnowledgeBase.knownToBeDifferentByAtLeast32 kb v u) ->
  knownUnrelated kb a b = knownUnrelated kb b a.
Proof.
  intros Hd Hd32. unfold knownUnrelated.
  destruct (decide (location a = location b)) as [Hloc | Hne].
  2: { rewrite (bool_decide_eq_false_2 _ Hne).
       rewrite (bool_decide_eq_false_2 (location b = location a)) by congruence.
       reflexivity. }
  rewrite (bool_decide_eq_true_2 _ Hloc).
  rewrite (bool_decide_eq_true_2 (location b = location a)) by congruence.
  simpl. rewrite <- Hloc. destruct (location a).
  - destruct (start a) as [s1 |], (start b) as [s2 |]; try reflexivity.
    rewrite (andb_comm (hasLengthOne kb (length b))), (Hd s2 s1). reflexivity.
  - rewrite (orb_comm (isKnownZero kb (length b))).
    destruct (isKnownZero kb (length a) || isKnownZero kb (length b)); [reflexivity |].
    destruct (knownBefore kb a b), (knownBefore kb b a); try reflexivity.
    assert (E : knownWordsApart kb b a = knownWordsApart kb a b).
    { unfold knownWordsApart.
      destruct (start a) as [s1 |], (length a) as [l1 |],
               (start b) as [s2 |], (length b) as [l2 |]; try reflexivity.
      destruct (KnowledgeBase.valueIfKnownConstant kb l1),
               (KnowledgeBase.valueIfKnownConstant kb l2); try reflexivity.
      rewrite (Hd32 s2 s1).
      rewrite (andb_comm (bool_decide (z0 <= 32))). reflexivity. }
    rewrite E. reflexivity.
Qed.

(** X4: [knownUnrelated] aborts in one case only: both operations are
    storage operations with a start, and the length of one of them is not
    known to be 1.  On memory operations, on operations at different
    locations and on a storage operation without a start it always
    answers. *)
Theorem knownUnrelated_abort (a b : Operation) (e : Error) :
  knownUnrelated kb a b = Err e <->
  e = StorageLengthNotOne /\
  location a = Location.Storage /\ location b = Location.Storage /\
  is_Some (start a) /\ is_Some (start b) /\
  hasLengthOne kb (length a) && hasLengthOne kb (length b) = false.
Proof.
  unfold knownUnrelated. split.
  - destruct (decide (location a = location b)) as [Hloc | Hne].
    2: { rewrite (bool_decide_eq_false_2 _ Hne). discriminate. }
    rewrite (bool_decide_eq_true_2 _ Hloc). simpl.
    destruct (location a) eqn:Ha.
    + destruct (start a) as [s1 |]; [| discriminate].
      destruct (start b) as [s2 |]; [| discriminate].
      destruct (hasLengthOne kb (length a) && hasLengthOne kb (length b)); simpl;
        [discriminate |].
      intros [= <-]. repeat split; eauto.
    + repeat case_match; discriminate.
  - intros (-> & Ha & Hb & [s1 Hs1] & [s2 Hs2] & Hlen).
    rewrite Ha, Hb, Hs1, Hs2, Hlen. reflexivity.
Qed.

End AliasShape.

(** ** What [applyOperation] does *)

Section ApplyFacts.

Variable knowledgeBase : Dialect -> (YulString -> option AssignedValue) -> KnowledgeBase.t.
Variable rse : UnusedStoreEliminator.

Abbreviation kb := (knowledge knowledgeBase rse).

Lemma applyOperationTo_step _operation ops s acc acc' :
  applyOperationTo knowledgeBase rse _operation ops s acc = Ok acc' ->
  exists so d,
    ops !! s = Some so /\ leavesActive kb _operation so = Ok d /\
    fst acc' = (if d && bool_decide (effect _operation = Effect.Read)
                then {[s]} ∪ fst acc else fst acc) /\
    snd acc' = (if d then {[s]} ∪ snd acc else snd acc).
Proof.
  unfold applyOperationTo, map_at, leavesActive.
  destruct (ops !! s) as [so |]; simpl; [| discriminate].
  intros H. exists so.
  destruct (bool_decide (effect _operation = Effect.Read)).
  - destruct (knownUnrelated kb so _operation) as [u |]; simpl in *; [| discriminate].
    exists (negb u). destruct u; simpl in *; injection H as <-; auto.
  - destruct (_ && _); simpl in *; injection H as <-; eauto.
Qed.

Lemma forEach_applyOperationTo_exact _operation ops l : forall acc r,
  forEach (applyOperationTo knowledgeBase rse _operation ops) l acc = Ok r ->
  (forall s, s ∈ l -> exists so d,
     ops !! s = Some so /\ leavesActive kb _operation so = Ok d) /\
  (forall s, s ∈ snd r <->
     s ∈ snd acc \/
     (s ∈ l /\ exists so, ops !! s = Some so /\ leavesActive kb _operation so = Ok true)) /\
  (forall s, s ∈ fst r <->
     s ∈ fst acc \/
     (effect _operation = Effect.Read /\ s ∈ l /\
      exists so, ops !! s = Some so /\ leavesActive kb _operation so = Ok true)).
Proof.
  induction l as [| s0 l IH]; intros acc r H; simpl in H.
  - injection H as <-. split; [| split].
    + intros s Hin. apply elem_of_nil in Hin. destruct Hin.
    + intros s. split; [auto |]. intros [? | [Hin _]]; [assumption |].
      apply elem_of_nil in Hin. destruct Hin.
    + intros s. split; [auto |]. intros [? | (_ & Hin & _)]; [assumption |].
      apply elem_of_nil in Hin. destruct Hin.
  - destruct (applyOperationTo _ _ _ _ s0 acc) as [acc1 |] eqn:Hstep; simpl in H;
      [| discriminate].
    apply applyOperationTo_step in Hstep as (so & d & Hso & Hd & Hfst & Hsnd).
    destruct (IH acc1 r H) as (Hall & Hs & Hf).
    split; [| split].
    + intros s Hin. apply elem_of_cons in Hin as [-> | Hin]; eauto.
    + intros s. rewrite Hs, Hsnd. split.
      * intros [Hin | (Hin & so' & Hso' & Hd')].
        -- destruct d; [| auto].
           apply elem_of_union in Hin as [Hin | Hin]; [| auto].
           apply elem_of_singleton in Hin. subst. right.
           split; [apply list_elem_of_here | eauto].
        -- right. split; [apply list_elem_of_further, Hin | eauto].
      * intros [Hin | (Hin & so' & Hso' & Hd')].
        -- left. destruct d; [apply elem_of_union_r |]; exact Hin.
        -- apply elem_of_cons in Hin as [-> | Hin]; [| right; eauto].
           left. assert (d = true) as -> by congruence.
           apply elem_of_union_l, elem_of_singleton. reflexivity.
    + intros s. rewrite Hf, Hfst. split.
      * intros [Hin | (Hr & Hin & so' & Hso' & Hd')].
        -- destruct d; simpl in Hin; [| auto].
           case_bool_decide as Hr; [| auto].
           apply elem_of_union in Hin as [Hin | Hin]; [| auto].
           apply elem_of_singleton in Hin. subst. right.
           split; [exact Hr |]. split; [apply list_elem_of_here | eauto].
        -- right. split; [exact Hr |]. split; [apply list_elem_of_further, Hin | eauto].
      * intros [Hin | (Hr & Hin & so' & Hso' & Hd')].
        -- left. destruct (d && _); [apply elem_of_union_r |]; exact Hin.
        -- apply elem_of_cons in Hin as [-> | Hin]; [| right; eauto].
           left. assert (d = true) as -> by congruence.
           rewrite (bool_decide_eq_true_2 _ Hr). simpl.
           apply elem_of_union_l, elem_of_singleton. reflexivity.
Qed.

Lemma applyOperation_effect _operation σ σ' :
  applyOperation knowledgeBase rse _operation σ = Ok σ' ->
  (forall s, s ∈ activeStores (location _operation) σ ->
     exists so d, m_storeOperations σ !! s = Some so /\
                  leavesActive kb _operation so = Ok d) /\
  (forall s, s ∈ activeStores (location _operation) σ' <->
     s ∈ activeStores (location _operation) σ /\
     exists so, m_storeOperations σ !! s = Some so /\
                leavesActive kb _operation so = Ok false) /\
  m_usedStores σ' =
    m_usedStores σ ∪
    (if bool_decide (effect _operation = Effect.Read)
     then activeStores (location _operation) σ ∖ activeStores (location _operation) σ'
     else ∅) /\
  (forall l, l <> location _operation -> activeStores l σ' = activeStores l σ) /\
  m_allStores σ' = m_allStores σ /\
  m_storeOperations σ' = m_storeOperations σ.
Proof.
  unfold applyOperation. intros H.
  destruct (forEach _ _ _) as [r |] eqn:Hr; simpl in H; [| discriminate].
  injection H as <-.
  apply forEach_applyOperationTo_exact in Hr as (Hall & Hs & Hf). simpl in Hs, Hf.
  assert (Hact : activeStores (location _operation)
            (setActiveStores (location _operation)
               (activeStores (location _operation) σ ∖ r.2) (setUsedStores r.1 σ)) =
          activeStores (location _operation) σ ∖ r.2)
    by (destruct (location _operation); reflexivity).
  assert (Hkeep : forall s, s ∈ activeStores (location _operation) σ ∖ r.2 <->
     s ∈ activeStores (location _operation) σ /\
     exists so, m_storeOperations σ !! s = Some so /\
                leavesActive kb _operation so = Ok false).
  { intros s. rewrite elem_of_difference, Hs. split.
    - intros [Hin Hnot]. split; [exact Hin |].
      destruct (Hall s) as (so & d & Hso & Hd); [apply elem_of_elements, Hin |].
      exists so. split; [exact Hso |]. destruct d; [| exact Hd].
      exfalso. apply Hnot. right. split; [apply elem_of_elements, Hin | eauto].
    - intros (Hin & so & Hso & Hd). split; [exact Hin |].
      intros [Hemp | (_ & so' & Hso' & Hd')].
      + apply not_elem_of_empty in Hemp. exact Hemp.
      + congruence. }
  split; [| split; [| split; [| split; [| split]]]].
  - intros s Hin. apply Hall, elem_of_elements, Hin.
  - intros s. rewrite Hact. apply Hkeep.
  - rewrite Hact.
    assert (Hu : m_usedStores (setActiveStores (location _operation)
              (activeStores (location _operation) σ ∖ r.2) (setUsedStores r.1 σ)) = r.1)
      by (destruct (location _operation); reflexivity).
    rewrite Hu. apply set_eq. intros s. rewrite Hf, elem_of_union.
    split.
    + intros [Hin | (Hread & Hin & so & Hso & Hd)]; [auto |].
      right. rewrite (bool_decide_eq_true_2 _ Hread).
      apply elem_of_elements in Hin.
      apply elem_of_difference. split; [exact Hin |].
      rewrite Hkeep. intros (_ & so' & Hso' & Hd'). congruence.
    + intros [Hin | Hin]; [auto |]. right.
      case_bool_decide as Hread; [| apply not_elem_of_empty in Hin; destruct Hin].
      apply elem_of_difference in Hin as [Hin Hnot].
      split; [exact Hread |]. split; [apply elem_of_elements, Hin |].
      destruct (Hall s) as (so & d & Hso & Hd); [apply elem_of_elements, Hin |].
      exists so. split; [exact Hso |]. destruct d; [exact Hd |].
      exfalso. apply Hnot, Hkeep. eauto.
  - intros l Hl. destruct l, (location _operation); congruence || reflexivity.
  - destruct (location _operation); reflexivity.
  - destruct (location _operation); reflexivity.
Qed.

Lemma forEach_applyOperationTo_unchanged _operation ops l : forall acc,
  (forall s, s ∈ l -> exists so,
     ops !! s = Some so /\ leavesActive kb _operation so = Ok false) ->
  forEach (applyOperationTo knowledgeBase rse _operation ops) l acc = Ok acc.
Proof.
  induction l as [| s0 l IH]; intros acc Hl; simpl; [reflexivity |].
  destruct (Hl s0) as (so & Hso & Hd); [apply list_elem_of_here |].
  assert (Hstep : applyOperationTo knowledgeBase rse _operation ops s0 acc = Ok acc).
  { unfold applyOperationTo, map_at. rewrite Hso. simpl.
    unfold leavesActive in Hd.
    destruct (bool_decide (effect _operation = Effect.Read)).
    - destruct (knownUnrelated kb so _operation) as [u |]; simpl in *; [| discriminate].
      destruct u; [reflexivity | discriminate].
    - destruct (_ && _); [discriminate | reflexivity]. }
  rewrite Hstep. simpl. apply IH.
  intros s Hin. apply Hl, list_elem_of_further, Hin.
Qed.

(** X6: applying an operation a second time changes nothing: what the
    first application left active stays active, and nothing more is marked
    as used. *)
Theorem applyOperation_idempotent _operation σ σ' :
  applyOperation knowledgeBase rse _operation σ = Ok σ' ->
  applyOperation knowledgeBase rse _operation σ' = Ok σ'.
Proof.
  intros H. apply applyOperation_effect in H as (_ & Hkeep & _ & _ & _ & Hops).
  unfold applyOperation.
  rewrite (forEach_applyOperationTo_unchanged _operation (m_storeOperations σ')
             (elements (activeStores (location _operation) σ')) (m_usedStores σ', ∅)).
  - simpl. f_equal. destruct σ', (location _operation); simpl; f_equal;
      apply difference_empty_L.
  - intros s Hin. apply elem_of_elements, Hkeep in Hin as (_ & so & Hso & Hd).
    rewrite Hops. eauto.
Qed.

Lemma reads_keep_or_use_all operations : forall σ σ',
  Forall (fun op => effect op = Effect.Read) operations ->
  forEach (applyOperation knowledgeBase rse) operations σ = Ok σ' ->
  forall l s, s ∈ activeStores l σ -> s ∈ activeStores l σ' \/ s ∈ m_usedStores σ'.
Proof.
  induction operations as [| op ops IH]; intros σ σ' Hreads H l s Hin; simpl in H.
  - injection H as <-. left. exact Hin.
  - inversion Hreads as [| ? ? Hread Hrest]; subst.
    destruct (applyOperation knowledgeBase rse op σ) as [σ1 |] eqn:H1; simpl in H;
      [| discriminate].
    assert (Hmono : forall τ τ' os,
      forEach (applyOperation knowledgeBase rse) os τ = Ok τ' ->
      m_usedStores τ ⊆ m_usedStores τ').
    { intros τ τ' os. revert τ. induction os as [| o os IHos]; intros τ Hos; simpl in Hos.
      - injection Hos as <-. reflexivity.
      - destruct (applyOperation knowledgeBase rse o τ) as [τ1 |] eqn:Ho; simpl in Hos;
          [| discriminate].
        apply applyOperation_effect in Ho as (_ & _ & Hu & _).
        etrans; [| apply IHos, Hos]. rewrite Hu. apply union_subseteq_l. }
    apply applyOperation_effect in H1 as (_ & _ & Hused & Hother & _).
    rewrite (bool_decide_eq_true_2 _ Hread) in Hused.
    destruct (decide (l = location op)) as [-> | Hne].
    + destruct (decide (s ∈ activeStores (location op) σ1)) as [Hin1 | Hout].
      * apply (IH σ1 σ' Hrest H _ s Hin1).
      * right. apply (Hmono σ1 σ' ops H). rewrite Hused.
        apply elem_of_union_r, elem_of_difference. split; assumption.
    + apply (IH σ1 σ' Hrest H l s). rewrite (Hother l Hne). exact Hin.
Qed.

(** X5: a successful [applyOperation] has found a recorded operation for
    every active store of the location of the operation; it keeps active
    exactly the stores on which the test of its loop fails; for a read it
    adds exactly the stores it drops to [m_usedStores], for a write it adds
    none; and it changes nothing else. *)
Theorem applyOperation_exact _operation σ σ' :
  applyOperation knowledgeBase rse _operation σ = Ok σ' ->
  (forall s, s ∈ activeStores (location _operation) σ ->
     exists so d, m_storeOperations σ !! s = Some so /\
                  leavesActive kb _operation so = Ok d) /\
  (forall s, s ∈ activeStores (location _operation) σ' <->
     s ∈ activeStores (location _operation) σ /\
     exists so, m_storeOperations σ !! s = Some so /\
                leavesActive kb _operation so = Ok false) /\
  m_usedStores σ' =
    m_usedStores σ ∪
    (if bool_decide (effect _operation = Effect.Read)
     then activeStores (location _operation) σ ∖ activeStores (location _operation) σ'
     else ∅) /\
  (forall l, l <> location _operation -> activeStores l σ' = activeStores l σ) /\
  m_allStores σ' = m_allStores σ /\
  m_storeOperations σ' = m_storeOperations σ.
Proof. apply applyOperation_effect. Qed.

(** X7: reads never drop a store silently: after a sequence of operations
    that are all reads, every store that was active is still active or is
    marked as used. *)
Theorem reads_keep_or_use operations σ σ' l s :
  Forall (fun op => effect op = Effect.Read) operations ->
  forEach (applyOperation knowledgeBase rse) operations σ = Ok σ' ->
  s ∈ activeStores l σ ->
  s ∈ activeStores l σ' \/ s ∈ m_usedStores σ'.
Proof. intros Hreads H. apply (reads_keep_or_use_all operations σ σ' Hreads H). Qed.

End ApplyFacts.


(** ** The step on a call *)

Section CallFacts.

Variable semantics : SemanticInformation.t.
Variable knowledgeBase : Dialect -> (YulString -> option AssignedValue) -> KnowledgeBase.t.
Variable rse : UnusedStoreEliminator.

Abbreviation kb := (knowledge knowledgeBase rse).

Lemma leavesActive_stays _operation so :
  leavesActive kb _operation so = Ok false ->
  (effect _operation = Effect.Read -> knownUnrelated kb so _operation = Ok true) /\
  (effect _operation = Effect.Write -> knownCovered kb so _operation = false).
Proof.
  unfold leavesActive. intros H. split; intros Heff; rewrite Heff in H; simpl in H.
  - destruct (knownUnrelated kb so _operation) as [[] | e]; simpl in H;
      first [reflexivity | discriminate].
  - injection H as H. exact H.
Qed.

Lemma leavesActive_drops _operation so :
  leavesActive kb _operation so = Ok true ->
  effect _operation = Effect.Read \/
  (effect _operation = Effect.Write /\ knownCovered kb so _operation = true).
Proof.
  unfold leavesActive. intros H.
  destruct (bool_decide (effect _operation = Effect.Read)) eqn:Hread.
  - left. apply bool_decide_eq_true_1 in Hread. exact Hread.
  - right. injection H as H. apply andb_true_iff in H as [Hw Hc].
    apply bool_decide_eq_true_1 in Hw. split; assumption.
Qed.

(** What a sequence of operations does to the state: only the used and
    the active stores change; what stays active was kept by every operation
    at its location; what leaves an active set was read and is used, or is
    covered by a write. *)
Lemma forEach_applyOperation_effect operations : forall σ σ',
  forEach (applyOperation knowledgeBase rse) operations σ = Ok σ' ->
  m_allStores σ' = m_allStores σ /\
  m_storeOperations σ' = m_storeOperations σ /\
  m_usedStores σ ⊆ m_usedStores σ' /\
  (forall l, activeStores l σ' ⊆ activeStores l σ) /\
  (forall op s, op ∈ operations -> s ∈ activeStores (location op) σ' ->
     exists so, m_storeOperations σ !! s = Some so /\
       (effect op = Effect.Read -> knownUnrelated kb so op = Ok true) /\
       (effect op = Effect.Write -> knownCovered kb so op = false)) /\
  (forall l s, s ∈ activeStores l σ ->
     s ∈ activeStores l σ' \/ s ∈ m_usedStores σ' \/
     exists op so, op ∈ operations /\ location op = l /\ effect op = Effect.Write /\
       m_storeOperations σ !! s = Some so /\ knownCovered kb so op = true).
Proof.
  induction operations as [| op ops IH]; intros σ σ' H; simpl in H.
  - injection H as <-.
    split; [reflexivity |]. split; [reflexivity |]. split; [reflexivity |].
    split; [intros l; reflexivity |].
    split; [intros op s Hop; apply elem_of_nil in Hop; destruct Hop |].
    intros l s Hin. left. exact Hin.
  - destruct (applyOperation knowledgeBase rse op σ) as [σ1 |] eqn:H1; simpl in H;
      [| discriminate].
    apply applyOperation_effect in H1 as (Hrec & Hact & Hused & Hother & Hall & Hops).
    destruct (IH σ1 σ' H) as (IHall & IHops & IHused & IHsub & IHkept & IHdrop).
    assert (Hsub1 : forall l, activeStores l σ1 ⊆ activeStores l σ).
    { intros l. destruct (decide (l = location op)) as [-> | Hne].
      - intros s Hs. apply Hact in Hs as [Hs _]. exact Hs.
      - rewrite (Hother l Hne). reflexivity. }
    assert (Hused1 : m_usedStores σ ⊆ m_usedStores σ1).
    { rewrite Hused. apply union_subseteq_l. }
    split; [rewrite IHall; exact Hall |].
    split; [rewrite IHops; exact Hops |].
    split; [etrans; [exact Hused1 | exact IHused] |].
    split; [intros l; etrans; [apply IHsub | apply Hsub1] |].
    split.
    + intros op' s Hop' Hs. apply elem_of_cons in Hop' as [-> | Hop'].
      * apply IHsub in Hs. apply Hact in Hs as (_ & so & Hso & Hstay).
        exists so. split; [exact Hso |]. apply leavesActive_stays, Hstay.
      * destruct (IHkept op' s Hop' Hs) as (so & Hso & Hrw).
        exists so. split; [rewrite <- Hops; exact Hso | exact Hrw].
    + intros l s Hin.
      destruct (decide (s ∈ activeStores l σ1)) as [Hin1 | Hout].
      * destruct (IHdrop l s Hin1) as [Hkeep | [Hu | (op' & so & Hop' & Hl & Hw & Hso & Hc)]].
        -- left. exact Hkeep.
        -- right. left. exact Hu.
        -- right. right. exists op', so.
           split; [apply elem_of_cons; right; exact Hop' |].
           split; [exact Hl |]. split; [exact Hw |].
           split; [rewrite <- Hops; exact Hso | exact Hc].
      * destruct (decide (l = location op)) as [-> | Hne];
          [| exfalso; apply Hout; rewrite (Hother l Hne); exact Hin].
        destruct (Hrec s Hin) as (so & d & Hso & Hd).
        destruct d.
        -- apply leavesActive_drops in Hd as [Hread | [Hw Hc]].
           ++ right. left. apply IHused. rewrite Hused.
              rewrite (bool_decide_eq_true_2 _ Hread).
              apply elem_of_union_r, elem_of_difference. split; assumption.
           ++ right. right. exists op, so.
              split; [apply elem_of_cons; left; reflexivity |].
              split; [reflexivity |]. split; [exact Hw |].
              split; assumption.
        -- exfalso. apply Hout. apply Hact. split; [exact Hin |].
           exists so. split; assumption.
Qed.

Lemma calleeControlFlow_source functionName sideEffects :
  calleeControlFlow rse functionName = Ok sideEffects ->
  match builtin (m_dialect rse) functionName with
  | Some b => sideEffects = controlFlowSideEffects b
  | None => m_controlFlowSideEffects rse !! functionName = Some sideEffects
  end.
Proof.
  unfold calleeControlFlow, map_at.
  destruct (builtin (m_dialect rse) functionName) as [b |].
  - intros [= <-]. reflexivity.
  - destruct (m_controlFlowSideEffects rse !! functionName) as [c |];
      [intros [= <-]; reflexivity | discriminate].
Qed.


End CallFacts.

(** ** The operations of a call *)

Section OperationFacts.

Variable semantics : SemanticInformation.t.
Variable knowledgeBase : Dialect -> (YulString -> option AssignedValue) -> KnowledgeBase.t.
Variable rse : UnusedStoreEliminator.

Lemma identifierNameIfSSA_Some e n :
  identifierNameIfSSA rse e = Some n ->
  e = Identifier n /\ is_Some (m_ssaValues rse !! n).
Proof.
  destruct e as [| name |]; simpl; try discriminate.
  case_bool_decide as H; [| discriminate]. intros [= <-]. auto.
Qed.

(** X8: a call of a function that is not an EVM instruction has only
    reads as operations, without start and length, at most one per
    location, whatever its arguments; so applying them never drops a store
    without marking it as used. *)
Theorem other_calls_only_read functionName arguments operations :
  toEVMInstruction (m_dialect rse) functionName = None ->
  operationsFromFunctionCall semantics rse functionName arguments = Ok operations ->
  Forall (fun op => effect op = Effect.Read /\ start op = None /\ length op = None)
         operations /\
  NoDup (location <$> operations) /\
  (forall arguments',
     operationsFromFunctionCall semantics rse functionName arguments' = Ok operations) /\
  (forall σ σ' l s,
     forEach (applyOperation knowledgeBase rse) operations σ = Ok σ' ->
     s ∈ activeStores l σ ->
     s ∈ activeStores l σ' \/ s ∈ m_usedStores σ').
Proof.
  intros Hi Hops.
  assert (Hshape : Forall (fun op => effect op = Effect.Read /\ start op = None /\
                                     length op = None) operations /\
                   NoDup (location <$> operations)).
  { unfold operationsFromFunctionCall in Hops. rewrite Hi in Hops.
    destruct (match builtin (m_dialect rse) functionName with
              | Some f => _ | None => _ end) as [se |]; simpl in Hops; [| discriminate].
    injection Hops as <-.
    repeat case_bool_decide; simpl; split; repeat constructor;
      set_solver. }
  destruct Hshape as [Hshape Hnodup].
  split; [exact Hshape |]. split; [exact Hnodup |]. split.
  - intros arguments'. unfold operationsFromFunctionCall in *. rewrite Hi in *.
    exact Hops.
  - intros σ σ' l s Hrun. apply (reads_keep_or_use_all knowledgeBase rse operations σ σ');
      [| exact Hrun].
    eapply Forall_impl; [exact Hshape |]. intros op (He & _). exact He.
Qed.

(** X9: a call of a function that is neither a builtin of the dialect nor
    has side effects recorded has no operations: [operationsFromFunctionCall]
    aborts as the lookup does, and so does the step on the call once its
    arguments are walked. *)
Theorem unknown_function_aborts functionName arguments :
  builtin (m_dialect rse) functionName = None ->
  m_functionSideEffects rse !! functionName = None ->
  operationsFromFunctionCall semantics rse functionName arguments = Err OutOfRange /\
  (forall walkArguments σ σ0,
     walkArguments σ = Ok σ0 ->
     operator_FunctionCall semantics knowledgeBase rse walkArguments
       functionName arguments σ = Err OutOfRange).
Proof.
  intros Hb Hs.
  assert (H : operationsFromFunctionCall semantics rse functionName arguments
              = Err OutOfRange).
  { unfold operationsFromFunctionCall, map_at. rewrite Hb, Hs. reflexivity. }
  split; [exact H |].
  intros walkArguments σ σ0 Hw. unfold operator_FunctionCall. rewrite Hw. simpl.
  rewrite H. reflexivity.
Qed.

(** X10: one operation of an instruction is translated exactly when it
    has not both a length parameter and a constant length, its effect is
    not [None], its start and length parameters are indices of arguments
    of the call, and its constant length is 1 or 32. *)
Theorem operationFromSemantics_succeeds arguments _op :
  (exists op, operationFromSemantics rse arguments _op = Ok op) <->
  ~ (is_Some (SemanticInformation.lengthParameter _op) /\
     is_Some (SemanticInformation.lengthConstant _op)) /\
  SemanticInformation.effect _op <> Effect.None /\
  (forall i, SemanticInformation.startParameter _op = Some i ->
     (i < List.length arguments)%nat) /\
  (forall i, SemanticInformation.lengthParameter _op = Some i ->
     (i < List.length arguments)%nat) /\
  (forall c, SemanticInformation.lengthConstant _op = Some c ->
     c = 1%nat \/ c = 32%nat).
Proof.
  unfold operationFromSemantics, yulAssert, vector_at.
  destruct _op as [loc eff sp lp lc]; simpl.
  assert (Hc : forall c, (exists l, lengthOfConstant c = Ok l) <-> c = 1%nat \/ c = 32%nat).
  { intros c. split.
    - intros [l Hl]. do 33 (destruct c as [| c]; [simpl in Hl; try discriminate; auto |]).
      simpl in Hl. discriminate.
    - intros [-> | ->]; simpl; eauto. }
  assert (Hat : forall i : nat, (exists a : Expression, arguments !! i = Some a) <->
                                (i < List.length arguments)%nat).
  { intros i. rewrite <- lookup_lt_is_Some. reflexivity. }
  split.
  - intros [op H].
    destruct (bool_decide (is_Some lp) && bool_decide (is_Some lc)) eqn:Hb;
      simpl in H; [discriminate |].
    destruct (bool_decide (eff = Effect.None)) eqn:He; simpl in H; [discriminate |].
    apply bool_decide_eq_false_1 in He.
    split.
    { intros [H1 H2]. rewrite (bool_decide_eq_true_2 _ H1) in Hb.
      rewrite (bool_decide_eq_true_2 _ H2) in Hb. discriminate. }
    split; [exact He |].
    assert (Hstart : (forall i, sp = Some i -> (i < List.length arguments)%nat) /\
      exists st, match sp with
        | Some i => match arguments !! i with Some a => Ok a | None => Err OutOfRange end
                    ≫= (fun a => Ok (identifierNameIfSSA rse a))
        | None => Ok None end = Ok st).
    { destruct sp as [i |].
      - destruct (arguments !! i) as [a |] eqn:Ea; simpl in H; [| discriminate].
        split; [intros ? [= <-]; apply Hat; eauto | simpl; eauto].
      - split; [discriminate | eauto]. }
    destruct Hstart as [Hstart [st Est]]. rewrite Est in H. simpl in H.
    split; [exact Hstart |].
    assert (Hlen : (forall i, lp = Some i -> (i < List.length arguments)%nat) /\
      exists ln, match lp with
        | Some i => match arguments !! i with Some a => Ok a | None => Err OutOfRange end
                    ≫= (fun a => Ok (identifierNameIfSSA rse a))
        | None => Ok None end = Ok ln).
    { destruct lp as [i |].
      - destruct (arguments !! i) as [a |] eqn:Ea; simpl in H; [| discriminate].
        split; [intros ? [= <-]; apply Hat; eauto | simpl; eauto].
      - split; [discriminate | eauto]. }
    destruct Hlen as [Hlen [ln Eln]]. rewrite Eln in H. simpl in H.
    split; [exact Hlen |].
    intros c ->. apply Hc. simpl in H.
    destruct (lengthOfConstant c); simpl in H; [eauto | discriminate].
  - intros (Hboth & Heff & Hs & Hl & Hk).
    assert (Hb : bool_decide (is_Some lp) && bool_decide (is_Some lc) = false).
    { apply andb_false_iff.
      destruct (decide (is_Some lp)) as [Hlp | Hlp];
        [| left; apply bool_decide_eq_false_2, Hlp].
      right. apply bool_decide_eq_false_2. intros Hlc. apply Hboth. auto. }
    rewrite Hb. simpl. rewrite (bool_decide_eq_false_2 _ Heff). simpl.
    assert (Hsp : exists st, match sp with
        | Some i => match arguments !! i with Some a => Ok a | None => Err OutOfRange end
                    ≫= (fun a => Ok (identifierNameIfSSA rse a))
        | None => Ok None end = Ok st).
    { destruct sp as [i |]; [| eauto].
      destruct (proj2 (Hat i) (Hs i eq_refl)) as [a ->]. simpl. eauto. }
    destruct Hsp as [st ->]. simpl.
    assert (Hlp : exists ln, match lp with
        | Some i => match arguments !! i with Some a => Ok a | None => Err OutOfRange end
                    ≫= (fun a => Ok (identifierNameIfSSA rse a))
        | None => Ok None end = Ok ln).
    { destruct lp as [i |]; [| eauto].
      destruct (proj2 (Hat i) (Hl i eq_refl)) as [a ->]. simpl. eauto. }
    destruct Hlp as [ln ->]. simpl.
    destruct lc as [c |]; simpl; [| eauto].
    destruct (proj2 (Hc c) (Hk c eq_refl)) as [l ->]. simpl. eauto.
Qed.

Lemma argumentSymbol_known arguments (p : option nat) st s :
  match p with
  | Some i => a ← vector_at arguments i; Ok (identifierNameIfSSA rse a)
  | None => Ok None
  end = Ok st ->
  st = Some s ->
  Identifier s ∈ arguments /\ is_Some (m_ssaValues rse !! s).
Proof.
  unfold vector_at. destruct p as [i |]; [| intros [= <-]; discriminate].
  destruct (arguments !! i) as [arg |] eqn:Ea; simpl; [| discriminate].
  intros [= <-] Hn. apply identifierNameIfSSA_Some in Hn as [-> Hn].
  split; [eapply list_elem_of_lookup_2; eassumption | exact Hn].
Qed.

Lemma lengthOfConstant_names c l :
  lengthOfConstant c = Ok l -> l = one \/ l = thirtyTwo.
Proof.
  do 33 (destruct c as [| c]; [simpl; try discriminate; intros [= <-]; auto |]).
  simpl. discriminate.
Qed.

Lemma operationFromSemantics_symbols arguments _op op :
  operationFromSemantics rse arguments _op = Ok op ->
  (forall s, start op = Some s ->
     Identifier s ∈ arguments /\ is_Some (m_ssaValues rse !! s)) /\
  (forall l, length op = Some l ->
     (Identifier l ∈ arguments /\ is_Some (m_ssaValues rse !! l)) \/
     l = one \/ l = thirtyTwo).
Proof.
  unfold operationFromSemantics.
  destruct (yulAssert LengthParameterAndConstant _) as [[] |]; simpl; [| discriminate].
  destruct (yulAssert EffectIsNone _) as [[] |]; simpl; [| discriminate].
  pose proof (argumentSymbol_known arguments (SemanticInformation.startParameter _op))
    as Hstart.
  destruct (match SemanticInformation.startParameter _op with
            | Some i => _ | None => _ end) as [st |]; simpl; [| discriminate].
  pose proof (argumentSymbol_known arguments (SemanticInformation.lengthParameter _op))
    as Hlen.
  destruct (match SemanticInformation.lengthParameter _op with
            | Some i => _ | None => _ end) as [ln |]; simpl; [| discriminate].
  destruct (SemanticInformation.lengthConstant _op) as [c |]; simpl.
  - destruct (lengthOfConstant c) as [l |] eqn:El; simpl; [| discriminate].
    intros [= <-]. simpl. split; [intros s Hs; eapply Hstart; eauto |].
    intros l' [= <-]. right. eapply lengthOfConstant_names; eassumption.
  - intros [= <-]. simpl. split; [intros s Hs; eapply Hstart; eauto |].
    intros l Hl. left. eapply Hlen; eauto.
Qed.

(** X11: every start recorded in an operation of a call is the name of
    an identifier among the arguments of the call that has an SSA value;
    every length recorded is such a name or one of the constants [one] and
    [thirtyTwo]. *)
Theorem recorded_symbols_are_known functionName arguments operations op :
  operationsFromFunctionCall semantics rse functionName arguments = Ok operations ->
  op ∈ operations ->
  (forall s, start op = Some s ->
     Identifier s ∈ arguments /\ is_Some (m_ssaValues rse !! s)) /\
  (forall l, length op = Some l ->
     (Identifier l ∈ arguments /\ is_Some (m_ssaValues rse !! l)) \/
     l = one \/ l = thirtyTwo).
Proof.
  unfold operationsFromFunctionCall.
  destruct (match builtin (m_dialect rse) functionName with
            | Some f => _ | None => _ end) as [se |]; simpl; [| discriminate].
  destruct (toEVMInstruction (m_dialect rse) functionName) as [i |].
  - generalize (SemanticInformation.readWriteOperations semantics i). intros l.
    revert operations. induction l as [| o l IH]; intros operations H Hin; simpl in H.
    + injection H as <-. apply elem_of_nil in Hin. destruct Hin.
    + destruct (operationFromSemantics rse arguments o) as [op0 |] eqn:Ho; simpl in H;
        [| discriminate].
      destruct (mapM _ l) as [ops |]; simpl in H; [| discriminate].
      injection H as <-. apply elem_of_cons in Hin as [-> | Hin].
      * eapply operationFromSemantics_symbols; eassumption.
      * apply (IH ops eq_refl Hin).
  - intros [= <-] Hin.
    repeat case_bool_decide; simpl in Hin; set_unfold;
      intuition (subst; simpl in *; discriminate).
Qed.

End OperationFacts.

(** ** Recording a store *)

Section VisitFacts.

Variable semantics : SemanticInformation.t.
Variable knowledgeBase : Dialect -> (YulString -> option AssignedValue) -> KnowledgeBase.t.
Variable rse : UnusedStoreEliminator.

(** X12: the examination of an expression statement as a store only
    succeeds on a call.  It then either changes nothing, or the call is a
    call of an instruction that is a candidate, all of whose arguments are
    identifiers or literals and which has a single operation; the statement
    then enters [m_allStores] and the active set of the location of that
    operation, the operation is recorded for it, and nothing else
    changes. *)
Theorem visitStore_records s e σ σ' :
  visitStore semantics knowledgeBase rse s e σ = Ok σ' ->
  exists functionName arguments,
    e = FunctionCall functionName arguments /\
    (σ' = σ \/
     exists instruction op,
       toEVMInstruction (m_dialect rse) functionName = Some instruction /\
       forallb isIdentifierOrLiteral arguments = true /\
       isCandidateForRemoval semantics rse instruction = true /\
       operationsFromFunctionCall semantics rse functionName arguments = Ok [op] /\
       m_allStores σ' = {[s]} ∪ m_allStores σ /\
       activeStores (location op) σ' = {[s]} ∪ activeStores (location op) σ /\
       (forall l, l <> location op -> activeStores l σ' = activeStores l σ) /\
       m_usedStores σ' = m_usedStores σ /\
       m_storeOperations σ' = <[s := op]> (m_storeOperations σ)).
Proof.
  unfold visitStore.
  destruct e as [functionName arguments | name | kind value]; try discriminate.
  intros H. exists functionName, arguments. split; [reflexivity |].
  destruct (toEVMInstruction (m_dialect rse) functionName) as [i |] eqn:Hi;
    [| injection H as <-; auto].
  destruct (forallb isIdentifierOrLiteral arguments) eqn:Hargs; simpl in H;
    [| injection H as <-; auto].
  destruct (yulAssert CandidateMismatch _) as [[] |]; simpl in H; [| discriminate].
  destruct (isCandidateForRemoval semantics rse i) eqn:Hcand;
    [| injection H as <-; auto].
  destruct (if bool_decide (i = RETURNDATACOPY) then _ else _) as [allowed |];
    simpl in H; [| discriminate].
  destruct allowed; [| injection H as <-; auto].
  right. unfold recordStore in H.
  destruct (operationsFromFunctionCall semantics rse functionName arguments)
    as [ops |] eqn:Hops; simpl in H; [| discriminate].
  destruct ops as [| op [| op' ops]]; simpl in H; try discriminate.
  injection H as <-. exists i, op.
  repeat (split; [first [reflexivity | assumption] |]).
  destruct (location op); simpl; repeat split; try reflexivity;
    intros l Hl; destruct l; first [reflexivity | congruence].
Qed.

(** X13: leaving a function definition restores [m_storeOperations] and
    the active stores of the enclosing code; its body is walked from a
    state with empty active stores and no recorded operation, and what
    is active at its end is marked as used. *)
Theorem operator_FunctionDefinition_restores walkBody σ σ' :
  operator_FunctionDefinition walkBody σ = Ok σ' ->
  exists σ1,
    walkBody (setActive (∅, ∅) (setStoreOperations ∅ σ)) = Ok σ1 /\
    m_storeOperations σ' = m_storeOperations σ /\
    getActive σ' = getActive σ /\
    m_allStores σ' = m_allStores σ1 /\
    m_usedStores σ' = (m_usedStores σ1 ∪ activeMemoryStores σ1) ∪ activeStorageStores σ1.
Proof.
  unfold operator_FunctionDefinition, base_FunctionDefinition. intros H.
  destruct (walkBody _) as [σ1 |] eqn:Hbody; simpl in H; [| discriminate].
  injection H as <-. exists σ1. split; [reflexivity |].
  destruct (markActiveAsUsed_fields None σ1) as (Ha & Hu & _).
  simpl. repeat split; assumption.
Qed.

(** X14: marking the active stores of both locations as used is marking
    those of memory and then those of storage, in either order; marking and
    clearing are idempotent, and clearing after marking changes nothing. *)
Theorem markActiveAsUsed_composes (σ : State) :
  markActiveAsUsed None σ =
    markActiveAsUsed (Some Location.Storage) (markActiveAsUsed (Some Location.Memory) σ) /\
  markActiveAsUsed None σ =
    markActiveAsUsed (Some Location.Memory) (markActiveAsUsed (Some Location.Storage) σ) /\
  (forall l, markActiveAsUsed l (markActiveAsUsed l σ) = markActiveAsUsed l σ) /\
  (forall l, clearActive l (clearActive l σ) = clearActive l σ) /\
  (forall l, clearActive l (markActiveAsUsed l σ) = markActiveAsUsed l σ) /\
  clearActive None σ =
    clearActive (Some Location.Storage) (clearActive (Some Location.Memory) σ).
Proof.
  assert (Hstate : forall a u u' m s o, u = u' -> mkState a u m s o = mkState a u' m s o)
    by (intros; subst; reflexivity).
  destruct σ as [all used mem sto ops].
  split; [| split; [| split; [| split; [| split]]]].
  - reflexivity.
  - apply Hstate. clear. set_solver.
  - intros [[] |]; apply Hstate; clear; set_solver.
  - intros [[] |]; reflexivity.
  - intros [[] |]; reflexivity.
  - reflexivity.
Qed.

End VisitFacts.

(** ** What the run removes *)

Section RemovalFacts.

Variable semantics : SemanticInformation.t.
Variable knowledgeBase : Dialect -> (YulString -> option AssignedValue) -> KnowledgeBase.t.
Variable merge : gset StmtId -> gset StmtId -> gset StmtId.
Variable sideEffectsPropagator : Dialect -> list Statement -> gmap YulString SideEffects.t.
Variable controlFlowSideEffectsCollector :
  Dialect -> list Statement -> gmap YulString ControlFlowSideEffects.
Variable ssaValueTracker : list Statement -> gmap YulString Expression.

(** X15: every statement the run hands to the statement remover is an
    expression statement of the code that calls [sstore] or one of the
    memory-writing instructions of [visit]; no other statement is
    removed. *)
Theorem run_removes_only_stores dialect _ast removed s :
  MergeWithin merge ->
  run semantics knowledgeBase merge sideEffectsPropagator
      controlFlowSideEffectsCollector ssaValueTracker dialect _ast = Ok removed ->
  s ∈ removed ->
  exists functionName arguments instruction,
    StmtAt _ast s (ExpressionStatement (FunctionCall functionName arguments)) /\
    toEVMInstruction dialect functionName = Some instruction /\
    (instruction = SSTORE \/ isMemoryWrite instruction = true).
Proof.
  intros Hmerge Hrun Hin.
  apply run_ok in Hrun as (σ & Hwalk & ->).
  apply storesToRemove_subseteq in Hin.
  pose proof (walkRoot_invariant _ _ _ _ _ _ Hmerge Hwalk) as Hσ.
  destruct (inv_all _ _ _ _ _ Hσ s Hin)
    as (l & f & args & op & (i & Hat & Hi & Hhard & _) & _).
  exists f, args, i. split; [exact Hat |]. split; [exact Hi |].
  apply orb_prop in Hhard as [H | H].
  - left. apply bool_decide_eq_true_1 in H. exact H.
  - right. apply andb_prop in H as [_ H]. exact H.
Qed.

End RemovalFacts.

(** ** The further properties on the instance *)

Section FurtherExamples.

Import EVMExample.

Abbreviation ssaValuation :=
  (valuation (fun v => runValues ssaValueTracker ssaStores !! v)).
Abbreviation ssaEliminator := (eliminator false ssaStores).
Abbreviation storeOfA := (mkOperation Location.Memory Effect.Write (Some "a") (Some thirtyTwo)).
Abbreviation readOfD := (mkOperation Location.Memory Effect.Read (Some "d") (Some thirtyTwo)).
Abbreviation readOfReturn := (mkOperation Location.Memory Effect.Read (Some "a") (Some "d")).

Lemma storeOfA_may_touch : MayTouch ssaValuation storeOfA 5.
Proof.
  split; [| split].
  - intros l [= <-]. vm_compute. discriminate.
  - intros s [= <-]. vm_compute. discriminate.
  - intros s l [= <-] [= <-]. vm_compute. reflexivity.
Qed.

Lemma knownUnrelated_sound_witness :
  knownUnrelated (knowledgeOf ssaStores) storeOfA readOfD = Ok true /\
  location storeOfA = location readOfD /\
  MayTouch ssaValuation storeOfA 5 /\
  ~ MayTouch ssaValuation readOfD 5.
Proof.
  split; [vm_compute; reflexivity |]. split; [reflexivity |].
  split; [exact storeOfA_may_touch |].
  intros Hb.
  apply (knownUnrelated_sound (knowledgeOf ssaStores) ssaValuation
           (EVMExampleFacts.knowledgeBase_sound _ _) storeOfA readOfD 5);
    [vm_compute; reflexivity | reflexivity | exact storeOfA_may_touch | exact Hb].
Defined.

Lemma knownCovered_sound_witness :
  knownCovered (knowledgeOf ssaStores) storeOfA storeOfA = true /\
  MayTouch ssaValuation storeOfA 5 /\
  location storeOfA = location storeOfA /\
  MustTouch ssaValuation storeOfA 5.
Proof.
  split; [vm_compute; reflexivity |]. split; [exact storeOfA_may_touch |].
  apply (knownCovered_sound (knowledgeOf ssaStores) ssaValuation
           (EVMExampleFacts.knowledgeBase_sound _ _) storeOfA storeOfA 5);
    [vm_compute; reflexivity | exact storeOfA_may_touch].
Defined.

Lemma knowledgeBase_different_sym d lookup u v :
  KnowledgeBase.knownToBeDifferent (knowledgeBase d lookup) u v =
  KnowledgeBase.knownToBeDifferent (knowledgeBase d lookup) v u.
Proof.
  simpl. destruct (constantOf lookup u) as [x |], (constantOf lookup v) as [y |];
    try reflexivity.
  f_equal. apply bool_decide_ext. split; congruence.
Qed.

Lemma knowledgeBase_different32_sym d lookup u v :
  KnowledgeBase.knownToBeDifferentByAtLeast32 (knowledgeBase d lookup) u v =
  KnowledgeBase.knownToBeDifferentByAtLeast32 (knowledgeBase d lookup) v u.
Proof.
  simpl. destruct (constantOf lookup u) as [x |] eqn:Hx,
                  (constantOf lookup v) as [y |] eqn:Hy; try reflexivity.
  apply EVMExampleFacts.constantOf_range in Hx, Hy.
  unfold is_u256, u256_modulus in *.
  apply Bool.eq_iff_eq_true.
  rewrite !andb_true_iff, !bool_decide_eq_true.
  destruct (Z_lt_ge_dec x y) as [Hlt | Hge].
  - assert (E1 : (x - y) mod 2 ^ 256 = x - y + 2 ^ 256)
      by (symmetry; apply Z.mod_unique with (q := -1); lia).
    assert (E2 : (y - x) mod 2 ^ 256 = y - x) by (apply Z.mod_small; lia).
    rewrite E1, E2. lia.
  - destruct (Z.eq_dec x y) as [-> | Hne].
    + tauto.
    + assert (E1 : (x - y) mod 2 ^ 256 = x - y) by (apply Z.mod_small; lia).
      assert (E2 : (y - x) mod 2 ^ 256 = y - x + 2 ^ 256)
        by (symmetry; apply Z.mod_unique with (q := -1); lia).
      rewrite E1, E2. lia.
Qed.

Lemma knownUnrelated_symmetric_witness :
  knownUnrelated (knowledgeOf ssaStores) storeOfA readOfD =
  knownUnrelated (knowledgeOf ssaStores) readOfD storeOfA.
Proof.
  apply (knownUnrelated_symmetric (knowledgeOf ssaStores) storeOfA readOfD).
  - intros u v. apply knowledgeBase_different_sym.
  - intros u v. apply knowledgeBase_different32_sym.
Defined.

Lemma applyOperation_exact_witness :
  exists σ σ',
    beforeReturn = Ok σ /\
    applyOperation knowledgeBase ssaEliminator readOfReturn σ = Ok σ' /\
    m_usedStores σ' =
      m_usedStores σ ∪
      (activeStores Location.Memory σ ∖ activeStores Location.Memory σ') /\
    m_allStores σ' = m_allStores σ.
Proof.
  eexists. eexists. split; [vm_compute; reflexivity |].
  split; [vm_compute; reflexivity |].
  match goal with
  | |- m_usedStores ?s' = m_usedStores ?s ∪ _ /\ _ =>
      destruct (applyOperation_exact knowledgeBase ssaEliminator readOfReturn s s')
        as (_ & _ & Hu & _ & Ha & _); [vm_compute; reflexivity |]
  end.
  split; [exact Hu | exact Ha].
Defined.

Lemma applyOperation_idempotent_witness :
  exists σ σ',
    beforeReturn = Ok σ /\
    applyOperation knowledgeBase ssaEliminator readOfReturn σ = Ok σ' /\
    applyOperation knowledgeBase ssaEliminator readOfReturn σ' = Ok σ'.
Proof.
  eexists. eexists. split; [vm_compute; reflexivity |].
  match goal with
  | |- applyOperation _ _ _ ?s = Ok ?s' /\ _ =>
      assert (H : applyOperation knowledgeBase ssaEliminator readOfReturn s = Ok s')
        by (vm_compute; reflexivity);
      split; [exact H |];
      exact (applyOperation_idempotent knowledgeBase ssaEliminator readOfReturn s s' H)
  end.
Defined.

Lemma reads_keep_or_use_witness :
  exists σ σ',
    beforeReturn = Ok σ /\
    Forall (fun op => effect op = Effect.Read) [readOfReturn] /\
    forEach (applyOperation knowledgeBase ssaEliminator) [readOfReturn] σ = Ok σ' /\
    [5%nat] ∈ activeStores Location.Memory σ /\
    ([5%nat] ∈ activeStores Location.Memory σ' \/ [5%nat] ∈ m_usedStores σ').
Proof.
  assert (Hreads : Forall (fun op => effect op = Effect.Read) [readOfReturn])
    by (repeat constructor).
  assert (Hin : forall X : gset StmtId, bool_decide ([5%nat] ∈ X) = true -> [5%nat] ∈ X)
    by (intros X; apply bool_decide_eq_true_1).
  let r := eval vm_compute in beforeReturn in
  match r with
  | Ok ?s =>
      let r' := eval vm_compute in
                  (forEach (applyOperation knowledgeBase ssaEliminator) [readOfReturn] s) in
      match r' with
      | Ok ?s' =>
          assert (Hrun : forEach (applyOperation knowledgeBase ssaEliminator)
                           [readOfReturn] s = Ok s') by (vm_compute; reflexivity);
          assert (Hact : [5%nat] ∈ activeStores Location.Memory s)
            by (apply Hin; vm_compute; reflexivity);
          exists s, s';
          split; [vm_compute; reflexivity |];
          split; [exact Hreads |];
          split; [exact Hrun |];
          split; [exact Hact |];
          exact (reads_keep_or_use knowledgeBase ssaEliminator [readOfReturn] s s'
                   Location.Memory [5%nat] Hreads Hrun Hact)
      end
  end.
Defined.

Lemma other_calls_only_read_witness :
  toEVMInstruction (m_dialect userFunctionEliminator) "f" = None /\
  operationsFromFunctionCall semantics userFunctionEliminator "f" [Identifier "a"] =
    Ok [mkOperation Location.Memory Effect.Read None None;
        mkOperation Location.Storage Effect.Read None None] /\
  NoDup (location <$> [mkOperation Location.Memory Effect.Read None None;
                       mkOperation Location.Storage Effect.Read None None]).
Proof.
  split; [reflexivity |]. split; [vm_compute; reflexivity |].
  apply (other_calls_only_read semantics knowledgeBase userFunctionEliminator
           "f" [Identifier "a"]); [reflexivity | vm_compute; reflexivity].
Defined.

Lemma unknown_function_aborts_witness :
  builtin (m_dialect ssaEliminator) "g" = None /\
  m_functionSideEffects ssaEliminator !! "g" = None /\
  operationsFromFunctionCall semantics ssaEliminator "g" [] = Err OutOfRange.
Proof.
  split; [reflexivity |]. split; [reflexivity |].
  apply (unknown_function_aborts semantics knowledgeBase ssaEliminator "g" []);
    reflexivity.
Defined.

Lemma recorded_symbols_are_known_witness :
  operationsFromFunctionCall semantics ssaEliminator "mstore"
    [Identifier "a"; Identifier "b"] = Ok [storeOfA] /\
  Identifier "a" ∈ [Identifier "a"; Identifier "b"] /\
  is_Some (m_ssaValues ssaEliminator !! "a").
Proof.
  split; [vm_compute; reflexivity |].
  apply (recorded_symbols_are_known semantics ssaEliminator "mstore"
           [Identifier "a"; Identifier "b"] [storeOfA] storeOfA);
    [vm_compute; reflexivity | apply list_elem_of_here | reflexivity].
Defined.

Lemma visitStore_records_witness :
  exists σ' functionName arguments,
    visitStore semantics knowledgeBase ssaEliminator [4%nat]
      (FunctionCall "mstore" [Identifier "a"; Identifier "b"]) initialState = Ok σ' /\
    FunctionCall "mstore" [Identifier "a"; Identifier "b"] =
      FunctionCall functionName arguments.
Proof.
  let r := eval vm_compute in
             (visitStore semantics knowledgeBase ssaEliminator [4%nat]
                (FunctionCall "mstore" [Identifier "a"; Identifier "b"]) initialState) in
  match r with
  | Ok ?s' =>
      assert (H : visitStore semantics knowledgeBase ssaEliminator [4%nat]
                    (FunctionCall "mstore" [Identifier "a"; Identifier "b"])
                    initialState = Ok s') by (vm_compute; reflexivity);
      destruct (visitStore_records semantics knowledgeBase ssaEliminator [4%nat]
                  (FunctionCall "mstore" [Identifier "a"; Identifier "b"])
                  initialState s' H) as (f & a & He & _);
      exists s', f, a; split; [exact H | exact He]
  end.
Defined.

Lemma operator_FunctionDefinition_restores_witness :
  exists σ σ',
    beforeReturn = Ok σ /\
    operator_FunctionDefinition (fun τ => Ok τ) σ = Ok σ' /\
    m_storeOperations σ' = m_storeOperations σ /\
    getActive σ' = getActive σ.
Proof.
  eexists. eexists. split; [vm_compute; reflexivity |].
  split; [vm_compute; reflexivity |].
  match goal with
  | |- m_storeOperations ?s' = m_storeOperations ?s /\ _ =>
      destruct (operator_FunctionDefinition_restores (fun τ => Ok τ) s s')
        as (σ1 & _ & Ho & Ha & _); [vm_compute; reflexivity |]
  end.
  split; [exact Ho | exact Ha].
Defined.

Lemma run_removes_only_stores_witness :
  runOn false ssaStores = Ok {[ [4%nat] ]} /\
  exists functionName arguments instruction,
    StmtAt ssaStores [4%nat] (ExpressionStatement (FunctionCall functionName arguments)) /\
    toEVMInstruction (dialect false) functionName = Some instruction /\
    (instruction = SSTORE \/ isMemoryWrite instruction = true).
Proof.
  split; [vm_compute; reflexivity |].
  apply (run_removes_only_stores semantics knowledgeBase merge
           noSideEffects noControlFlowSideEffects ssaValueTracker
           (dialect false) ssaStores {[ [4%nat] ]} [4%nat]
           EVMExampleFacts.merge_within);
    [vm_compute; reflexivity | apply elem_of_singleton; reflexivity].
Defined.

End FurtherExamples.


(** ** The step on a call, on the instance *)

Section CallExamples.

Import EVMExample.

Abbreviation stopEliminator := (eliminator false storesBeforeStop).

(** What the step on a call ensures, for the call of [functionName] that
    takes [σ] to [σ']. *)
Abbreviation CallEffects functionName arguments σ σ' :=
  (exists σ0 operations σ1 sideEffects,
     Ok σ = Ok σ0 /\
     operationsFromFunctionCall semantics stopEliminator functionName arguments
       = Ok operations /\
     forEach (applyOperation knowledgeBase stopEliminator) operations σ0 = Ok σ1 /\
     calleeControlFlow stopEliminator functionName = Ok sideEffects /\
     match builtin (m_dialect stopEliminator) functionName with
     | Some b => sideEffects = controlFlowSideEffects b
     | None => m_controlFlowSideEffects stopEliminator !! functionName = Some sideEffects
     end /\
     (forall op s, op ∈ operations -> s ∈ activeStores (location op) σ1 ->
        exists so, m_storeOperations σ0 !! s = Some so /\
          (effect op = Effect.Read ->
           knownUnrelated (knowledge knowledgeBase stopEliminator) so op = Ok true) /\
          (effect op = Effect.Write ->
           knownCovered (knowledge knowledgeBase stopEliminator) so op = false)) /\
     (forall l s, s ∈ activeStores l σ0 ->
        s ∈ activeStores l σ1 \/ s ∈ m_usedStores σ1 \/
        exists op so, op ∈ operations /\ location op = l /\ effect op = Effect.Write /\
          m_storeOperations σ0 !! s = Some so /\
          knownCovered (knowledge knowledgeBase stopEliminator) so op = true) /\
     (forall l, activeStores l σ1 ⊆ activeStores l σ0) /\
     m_usedStores σ0 ⊆ m_usedStores σ1 /\
     m_allStores σ1 = m_allStores σ0 /\
     m_allStores σ' = m_allStores σ1 /\
     m_usedStores σ' =
       m_usedStores σ1 ∪ (if canTerminate sideEffects then activeStorageStores σ1 else ∅) /\
     activeMemoryStores σ' =
       (if canContinue sideEffects then activeMemoryStores σ1 else ∅) /\
     activeStorageStores σ' =
       (if canTerminate sideEffects then ∅
        else if canContinue sideEffects then activeStorageStores σ1 else ∅)).


End CallExamples.
